(** * Truvari [bench] and [anno trf]: a shallow embedding and its properties

    The development follows [truvari/bench.py] (the pickers, the matrix
    builder, the writer with its stats box, the command-line checks) and
    [truvari/annotations/trf.py] (the motif comparator, the deletion
    annotator and [TRFAnno.annotate]).

    Conventions of the embedding:
    - Python [None]-able attributes are [option]s; Python floats are exact
      rationals ([Q]); Python ints are [Z] (counts and indices are [nat]);
    - a [dict] keyed by strings is a [gmap string _], a [set] of strings a
      [gset string], a [Counter] a [gmap string Z] read with default [0];
    - objects mutated in place (the stats box, an entry's INFO, the motif
      dictionaries handed to the comparator) are threaded explicitly. *)

From Stdlib Require Import ZArith QArith Qround Qabs String List Lia Bool.
From Stdlib Require Import Sorting.Sorted Sorting.Permutation DecimalString.
From stdpp Require Import gmap strings list fin_maps fin_sets sorting.

Local Open Scope Z_scope.

(** ** Python values that end up in a record's INFO column *)

Inductive InfoVal : Type :=
| PyNone
| PyBool (b : bool)
| PyInt (z : Z)
| PyFloat (q : Q)
| PyStr (s : string).

(** [str(i)] of a Python int. *)
Definition str_int (z : Z) : string := NilZero.string_of_int (Z.to_int z).
Definition str_idx (n : nat) : string := NilZero.string_of_uint (Nat.to_uint n).

(** [int(x)] of a float: truncation towards zero. *)
Definition py_int (q : Q) : Z := Z.quot (Qnum q) (Zpos (Qden q)).

(** Round-half-even to the nearest integer, the rule behind Python's
    [round]. *)
Definition round_half_even (q : Q) : Z :=
  let f := Qfloor q in
  let r := (q - inject_Z f)%Q in
  match (r ?= 1 # 2)%Q with
  | Lt => f
  | Gt => f + 1
  | Eq => if Z.even f then f else f + 1
  end.

(** [round(x, ndigits)], taken on the exact rational [x].  Python rounds the
    binary double that stands for [x], so the two agree except where [x] is
    a decimal tie that the double misses: [round(-2.55, 1)] is [-2.5] in
    Python and [-13/5] here. *)
Definition py_round (q : Q) (ndigits : nat) : Q :=
  let scale := Z.pow 10 (Z.of_nat ndigits) in
  (inject_Z (round_half_even (q * inject_Z scale)) / inject_Z scale)%Q.

(** ** Variants *)

Inductive SvType : Type := INS | DEL | DUP | INV | OTHER.

(** Modelled from the spec: the variant record is pysam's and is declared
    outside the two modules embedded here.  Section 3 of the specification
    gives a variant a chromosome, a half-open interval, alleles, a type tag
    and a size; [text] is what [str(entry)] renders, [info] the INFO mapping
    the writer and the annotator assign into. *)
Record Variant : Type := mkVariant {
  chrom : string;
  start : Z;
  stop : Z;
  ref : string;
  alt : string;
  svtype : SvType;
  svsize : Z;
  text : string;
  info : gmap string InfoVal
}.

(** Modelled from the spec: [truvari.entry_size] is declared outside the two
    modules embedded here; it returns the size attribute of section 3. *)
Definition entry_size (entry : Variant) : Z := svsize entry.

(** Modelled from the spec: [truvari.entry_variant_type] is declared outside
    the two modules embedded here; it returns the type tag of section 3. *)
Definition entry_variant_type (entry : Variant) : SvType := svtype entry.

(** [entry.info[key] = value] *)
Definition info_set (key : string) (value : InfoVal) (entry : Variant) : Variant :=
  {| chrom := chrom entry; start := start entry; stop := stop entry;
     ref := ref entry; alt := alt entry; svtype := svtype entry;
     svsize := svsize entry; text := text entry;
     info := <[key := value]> (info entry) |}.

(** [str(x)] for an optional entry: [str(None)] is the text ["None"]. *)
Definition str_entry (x : option Variant) : string :=
  match x with
  | Some v => text v
  | None => "None"
  end.

(** ** MatchResult *)

Abbreviation Genotype := (list (option Z)).

(** Modelled from the spec: [truvari.MatchResult] is declared outside the two
    modules embedded here.  The attributes are those of section 3 of the
    specification, together with the genotype attributes the pickers and the
    writer read ([base_gt], [comp_gt] and their allele counts). *)
Record MatchResult : Type := mkMatchResult {
  base : option Variant;
  comp : option Variant;
  base_gt : option Genotype;
  base_gt_count : Z;
  comp_gt : option Genotype;
  comp_gt_count : Z;
  state : bool;
  seqsim : option Q;
  sizesim : option Q;
  ovlpct : option Q;
  sizediff : option Q;
  st_dist : option Z;
  ed_dist : option Z;
  gt_match : option Z;
  multi : bool;
  score : option Q;
  matid : option string
}.

(** Modelled from the spec: [truvari.MatchResult()], the constructor, is
    declared outside the two modules embedded here.  A fresh result has no
    side, no measure, no matid and a false state (sections 3 and 4.5). *)
Definition MatchResult_new : MatchResult :=
  {| base := None; comp := None; base_gt := None; base_gt_count := 0;
     comp_gt := None; comp_gt_count := 0; state := false;
     seqsim := None; sizesim := None; ovlpct := None; sizediff := None;
     st_dist := None; ed_dist := None; gt_match := None; multi := false;
     score := None; matid := None |}.

(** Attribute assignments on a (copied) MatchResult. *)
Definition set_base (v : option Variant) (m : MatchResult) : MatchResult :=
  {| base := v; comp := comp m; base_gt := base_gt m;
     base_gt_count := base_gt_count m; comp_gt := comp_gt m;
     comp_gt_count := comp_gt_count m; state := state m; seqsim := seqsim m;
     sizesim := sizesim m; ovlpct := ovlpct m; sizediff := sizediff m;
     st_dist := st_dist m; ed_dist := ed_dist m; gt_match := gt_match m;
     multi := multi m; score := score m; matid := matid m |}.

Definition set_comp (v : option Variant) (m : MatchResult) : MatchResult :=
  {| base := base m; comp := v; base_gt := base_gt m;
     base_gt_count := base_gt_count m; comp_gt := comp_gt m;
     comp_gt_count := comp_gt_count m; state := state m; seqsim := seqsim m;
     sizesim := sizesim m; ovlpct := ovlpct m; sizediff := sizediff m;
     st_dist := st_dist m; ed_dist := ed_dist m; gt_match := gt_match m;
     multi := multi m; score := score m; matid := matid m |}.

Definition set_state (b : bool) (m : MatchResult) : MatchResult :=
  {| base := base m; comp := comp m; base_gt := base_gt m;
     base_gt_count := base_gt_count m; comp_gt := comp_gt m;
     comp_gt_count := comp_gt_count m; state := b; seqsim := seqsim m;
     sizesim := sizesim m; ovlpct := ovlpct m; sizediff := sizediff m;
     st_dist := st_dist m; ed_dist := ed_dist m; gt_match := gt_match m;
     multi := multi m; score := score m; matid := matid m |}.

Definition set_multi (b : bool) (m : MatchResult) : MatchResult :=
  {| base := base m; comp := comp m; base_gt := base_gt m;
     base_gt_count := base_gt_count m; comp_gt := comp_gt m;
     comp_gt_count := comp_gt_count m; state := state m; seqsim := seqsim m;
     sizesim := sizesim m; ovlpct := ovlpct m; sizediff := sizediff m;
     st_dist := st_dist m; ed_dist := ed_dist m; gt_match := gt_match m;
     multi := b; score := score m; matid := matid m |}.

Definition set_matid (s : string) (m : MatchResult) : MatchResult :=
  {| base := base m; comp := comp m; base_gt := base_gt m;
     base_gt_count := base_gt_count m; comp_gt := comp_gt m;
     comp_gt_count := comp_gt_count m; state := state m; seqsim := seqsim m;
     sizesim := sizesim m; ovlpct := ovlpct m; sizediff := sizediff m;
     st_dist := st_dist m; ed_dist := ed_dist m; gt_match := gt_match m;
     multi := multi m; score := score m; matid := Some s |}.

(** ** [annotate_entry] (bench.py) *)

Definition opt_val {A} (f : A -> InfoVal) (x : option A) : InfoVal :=
  match x with
  | Some a => f a
  | None => PyNone
  end.

(** Truthiness of [match.score]: [None] and a zero are false. *)
Definition score_truthy (s : option Q) : bool :=
  match s with
  | Some q => negb (Qeq_bool q 0)
  | None => false
  end.

Definition annotate_entry (entry : Variant) (match_ : MatchResult) : Variant :=
  let entry := info_set "PctSeqSimilarity"
                 (opt_val (fun x => PyFloat (py_round x 4)) (seqsim match_)) entry in
  let entry := info_set "PctSizeSimilarity"
                 (opt_val (fun x => PyFloat (py_round x 4)) (sizesim match_)) entry in
  let entry := info_set "PctRecOverlap"
                 (opt_val (fun x => PyFloat (py_round x 4)) (ovlpct match_)) entry in
  let entry := info_set "SizeDiff" (opt_val PyFloat (sizediff match_)) entry in
  let entry := info_set "StartDistance" (opt_val PyInt (st_dist match_)) entry in
  let entry := info_set "EndDistance" (opt_val PyInt (ed_dist match_)) entry in
  let entry := info_set "GTMatch" (opt_val PyInt (gt_match match_)) entry in
  let entry := info_set "TruScore"
                 (if score_truthy (score match_)
                  then opt_val (fun x => PyInt (py_int x)) (score match_)
                  else PyNone) entry in
  let entry := info_set "MatchId" (opt_val PyStr (matid match_)) entry in
  info_set "Multi" (PyBool (multi match_)) entry.

(** ** StatsBox (bench.py)

    [StatsBox] is an ordered dictionary; its integer counters are kept in a
    [gmap] keyed by the very strings of the source, the rates filled in by
    [calc_performance] in a second one, and [gt_matrix]
    ([defaultdict(Counter)]) in a map of maps. *)

Record StatsBox : Type := mkStatsBox {
  counters : gmap string Z;
  rates : gmap string Q;
  gt_matrix : gmap string (gmap string Z)
}.

Definition StatsBox_new : StatsBox :=
  {| counters :=
       <["TP-base" := 0]> (<["TP-comp" := 0]> (<["FP" := 0]> (<["FN" := 0]>
       (<["base cnt" := 0]> (<["comp cnt" := 0]>
       (<["TP-comp_TP-gt" := 0]> (<["TP-comp_FP-gt" := 0]>
       (<["TP-base_TP-gt" := 0]> (<["TP-base_FP-gt" := 0]> ∅)))))))));
     rates :=
       <["precision" := 0%Q]> (<["recall" := 0%Q]> (<["f1" := 0%Q]>
       (<["gt_concordance" := 0%Q]> ∅)));
     gt_matrix := ∅ |}.

(** [box[key]] for a counter *)
Definition box_get (box : StatsBox) (key : string) : Z :=
  default 0 (counters box !! key).

(** [box[key] += 1] *)
Definition box_incr (key : string) (box : StatsBox) : StatsBox :=
  {| counters := <[key := box_get box key + 1]> (counters box);
     rates := rates box;
     gt_matrix := gt_matrix box |}.

(** [box["gt_matrix"][gtBase][gtComp] += 1] *)
Definition gt_matrix_incr (gtBase gtComp : string) (box : StatsBox) : StatsBox :=
  let row := default ∅ (gt_matrix box !! gtBase) in
  {| counters := counters box;
     rates := rates box;
     gt_matrix :=
       <[gtBase := <[gtComp := default 0 (row !! gtComp) + 1]> row]> (gt_matrix box) |}.

(** [str(match.base_gt)]: the text of a genotype tuple. *)
Definition str_allele (a : option Z) : string :=
  match a with
  | Some z => str_int z
  | None => "None"
  end.

Definition str_gt (g : option Genotype) : string :=
  match g with
  | None => "None"
  | Some [] => "()"
  | Some [a] => "(" +:+ str_allele a +:+ ",)"
  | Some l => "(" +:+ String.concat ", " (map str_allele l) +:+ ")"
  end.

(** ** BenchOutput.write_match (bench.py)

    The four output files are the lists of the records written to them, in
    writing order. *)

Record BenchOutput : Type := mkBenchOutput {
  stats_box : StatsBox;
  tpb_out : list Variant;
  tpc_out : list Variant;
  fn_out : list Variant;
  fp_out : list Variant
}.

Definition BenchOutput_new : BenchOutput :=
  {| stats_box := StatsBox_new; tpb_out := []; tpc_out := [];
     fn_out := []; fp_out := [] |}.

Definition with_box (f : StatsBox -> StatsBox) (self : BenchOutput) : BenchOutput :=
  {| stats_box := f (stats_box self); tpb_out := tpb_out self;
     tpc_out := tpc_out self; fn_out := fn_out self; fp_out := fp_out self |}.

Definition tpb_write (v : Variant) (self : BenchOutput) : BenchOutput :=
  {| stats_box := stats_box self; tpb_out := tpb_out self ++ [v];
     tpc_out := tpc_out self; fn_out := fn_out self; fp_out := fp_out self |}.

Definition tpc_write (v : Variant) (self : BenchOutput) : BenchOutput :=
  {| stats_box := stats_box self; tpb_out := tpb_out self;
     tpc_out := tpc_out self ++ [v]; fn_out := fn_out self; fp_out := fp_out self |}.

Definition fn_write (v : Variant) (self : BenchOutput) : BenchOutput :=
  {| stats_box := stats_box self; tpb_out := tpb_out self;
     tpc_out := tpc_out self; fn_out := fn_out self ++ [v]; fp_out := fp_out self |}.

Definition fp_write (v : Variant) (self : BenchOutput) : BenchOutput :=
  {| stats_box := stats_box self; tpb_out := tpb_out self;
     tpc_out := tpc_out self; fn_out := fn_out self; fp_out := fp_out self ++ [v] |}.

(** [match.gt_match == 0] *)
Definition gt_match_is_zero (m : MatchResult) : bool :=
  match gt_match m with
  | Some z => z =? 0
  | None => false
  end.

(** The [if match.base:] half of [write_match]. *)
Definition write_match_base (self : BenchOutput) (match_ : MatchResult) : BenchOutput :=
  match base match_ with
  | Some b =>
      let self := with_box (box_incr "base cnt") self in
      let b := annotate_entry b match_ in
      if state match_ then
        let gtBase := str_gt (base_gt match_) in
        let gtComp := str_gt (comp_gt match_) in
        let self := with_box (gt_matrix_incr gtBase gtComp) self in
        let self := with_box (box_incr "TP-base") self in
        let self := tpb_write b self in
        if gt_match_is_zero match_
        then with_box (box_incr "TP-base_TP-gt") self
        else with_box (box_incr "TP-base_FP-gt") self
      else
        let self := with_box (box_incr "FN") self in
        fn_write b self
  | None => self
  end.

(** The [if match.comp:] half of [write_match]. *)
Definition write_match_comp (self : BenchOutput) (match_ : MatchResult)
    (sizemin : Z) : BenchOutput :=
  match comp match_ with
  | Some c =>
      let c := annotate_entry c match_ in
      if state match_ then
        let self := with_box (box_incr "comp cnt") self in
        let self := with_box (box_incr "TP-comp") self in
        let self := tpc_write c self in
        if gt_match_is_zero match_
        then with_box (box_incr "TP-comp_TP-gt") self
        else with_box (box_incr "TP-comp_FP-gt") self
      else if sizemin <=? entry_size c then
        let self := with_box (box_incr "comp cnt") self in
        let self := with_box (box_incr "FP") self in
        fp_write c self
      else self
  | None => self
  end.

Definition write_match (self : BenchOutput) (match_ : MatchResult)
    (sizemin : Z) : BenchOutput :=
  write_match_comp (write_match_base self match_) match_ sizemin.

(** The writing loop of [Bench.run]: [matches] is the chained output of
    [compare_chunk] over the chunks, [include] is [regions.include]. *)
Definition run_step (extend : Z) (include : Variant -> bool) (sizemin : Z)
    (output : BenchOutput) (match_ : MatchResult) : BenchOutput :=
  let match_ :=
    match comp match_ with
    | Some c =>
        if negb (extend =? 0) && negb (state match_) && negb (include c)
        then set_comp None match_
        else match_
    | None => match_
    end in
  write_match output match_ sizemin.

Definition run_loop (extend : Z) (include : Variant -> bool) (sizemin : Z)
    (matches : list MatchResult) (output : BenchOutput) : BenchOutput :=
  fold_left (run_step extend include sizemin) matches output.

(** ** The order on MatchResults *)

Definition cmp_bool (a b : bool) : comparison :=
  match a, b with
  | false, true => Lt
  | true, false => Gt
  | _, _ => Eq
  end.

(** larger is better, [None] lowest *)
Definition cmp_more {A} (cmp : A -> A -> comparison) (a b : option A) : comparison :=
  match a, b with
  | None, None => Eq
  | None, Some _ => Lt
  | Some _, None => Gt
  | Some x, Some y => cmp x y
  end.

(** smaller is better, [None] lowest *)
Definition cmp_less {A} (cmp : A -> A -> comparison) (a b : option A) : comparison :=
  match a, b with
  | None, None => Eq
  | None, Some _ => Lt
  | Some _, None => Gt
  | Some x, Some y => cmp y x
  end.

Definition lex (c1 c2 : comparison) : comparison :=
  match c1 with
  | Eq => c2
  | _ => c1
  end.

(** Modelled from the spec: [MatchResult.__lt__] is declared outside the two
    modules embedded here.  Section 4.2 of the specification ranks by
    [state] ([true] above [false]), then by composite score (higher is
    better), then by absolute start distance, then by absolute size
    difference (smaller is better).  A missing measure ranks below every
    present one. *)
Definition rank_compare (a b : MatchResult) : comparison :=
  lex (cmp_bool (state a) (state b))
 (lex (cmp_more Qcompare (score a) (score b))
 (lex (cmp_less Z.compare (Z.abs <$> st_dist a) (Z.abs <$> st_dist b))
      (cmp_less Qcompare (Qabs <$> sizediff a) (Qabs <$> sizediff b)))).

(** [a < b] *)
Definition mr_lt (a b : MatchResult) : bool :=
  match rank_compare a b with
  | Lt => true
  | _ => false
  end.

(** ** Arrays of MatchResults

    A two-dimensional numpy array is the list of its rows. *)

Abbreviation Matrix := (list (list MatchResult)).

(** [match_matrix.shape] *)
Definition shape (match_matrix : Matrix) : Z * Z :=
  (Z.of_nat (length match_matrix),
   match match_matrix with
   | row :: _ => Z.of_nat (length row)
   | [] => 0
   end).

(** [np.ravel(match_matrix)] *)
Definition ravel (match_matrix : Matrix) : list MatchResult := concat match_matrix.

(** Modelled from the spec: [match_matrix.sort()] is numpy's.  It sorts
    ascending by [<]; section 4.2 asks for a stable order (ties keep input
    order), which insertion after the last equal element gives. *)
Fixpoint sort_insert (x : MatchResult) (l : list MatchResult) : list MatchResult :=
  match l with
  | [] => [x]
  | y :: l' => if mr_lt x y then x :: y :: l' else y :: sort_insert x l'
  end.

Definition np_sort (l : list MatchResult) : list MatchResult :=
  fold_left (fun acc x => sort_insert x acc) l [].

(** The order in which both greedy pickers walk: [match_matrix[::-1]] after
    ravel and sort. *)
Definition walk_order (match_matrix : Matrix) : list MatchResult :=
  rev (np_sort (ravel match_matrix)).

(** ** [pick_single_matches] (bench.py) *)

Module Single.

(** The local variables of the function. *)
Record locals : Type := mkLocals {
  ret : list MatchResult;
  base_cnt : Z;
  comp_cnt : Z;
  used_comp : gset string;
  used_base : gset string
}.

Definition init (match_matrix : Matrix) : locals :=
  let '(b, c) := shape match_matrix in
  {| ret := []; base_cnt := b; comp_cnt := c; used_comp := ∅; used_base := ∅ |}.

(** The three branches of the loop body. *)
Definition only_comp (s : locals) (match_ : MatchResult) : locals :=
  let to_process := set_multi true (set_state false (set_base None match_)) in
  {| ret := ret s ++ [to_process];
     base_cnt := base_cnt s;
     comp_cnt := comp_cnt s - 1;
     used_comp := {[ str_entry (comp to_process) ]} ∪ used_comp s;
     used_base := used_base s |}.

Definition only_base (s : locals) (match_ : MatchResult) : locals :=
  let to_process := set_multi true (set_state false (set_comp None match_)) in
  {| ret := ret s ++ [to_process];
     base_cnt := base_cnt s - 1;
     comp_cnt := comp_cnt s;
     used_comp := used_comp s;
     used_base := {[ str_entry (base to_process) ]} ∪ used_base s |}.

Definition write_both (s : locals) (match_ : MatchResult) : locals :=
  let to_process := match_ in
  {| ret := ret s ++ [to_process];
     base_cnt := base_cnt s - 1;
     comp_cnt := comp_cnt s - 1;
     used_comp := {[ str_entry (comp to_process) ]} ∪ used_comp s;
     used_base := {[ str_entry (base to_process) ]} ∪ used_base s |}.

(** The loop body after the [break] test. *)
Definition body (s : locals) (match_ : MatchResult) : locals :=
  let base_is_used := bool_decide (str_entry (base match_) ∈ used_base s) in
  let comp_is_used := bool_decide (str_entry (comp match_) ∈ used_comp s) in
  if (base_cnt s =? 0) && negb comp_is_used then only_comp s match_
  else if (comp_cnt s =? 0) && negb base_is_used then only_base s match_
  else if negb base_is_used && negb comp_is_used then write_both s match_
  else s.

(** [if base_cnt == 0 and comp_cnt == 0: break] *)
Definition finished (s : locals) : bool :=
  (base_cnt s =? 0) && (comp_cnt s =? 0).

Fixpoint loop (s : locals) (l : list MatchResult) : locals :=
  match l with
  | [] => s
  | match_ :: rest => if finished s then s else loop (body s match_) rest
  end.

Definition pick_single_matches (match_matrix : Matrix) : list MatchResult :=
  ret (loop (init match_matrix) (walk_order match_matrix)).

End Single.

(** ** [pick_gtcomp_matches] (bench.py) *)

Module GtComp.

Record locals : Type := mkLocals {
  ret : list MatchResult;
  base_cnt : Z;
  comp_cnt : Z;
  used_comp : gmap string Z;
  used_base : gmap string Z
}.

(** Reading a [Counter]: a missing key counts [0] and is not inserted. *)
Definition count (c : gmap string Z) (key : string) : Z := default 0 (c !! key).

Definition init (match_matrix : Matrix) : locals :=
  let '(b, c) := shape match_matrix in
  {| ret := []; base_cnt := b; comp_cnt := c; used_comp := ∅; used_base := ∅ |}.

Definition only_comp (s : locals) (match_ : MatchResult) : locals :=
  let c_key := str_entry (comp match_) in
  let to_process := set_multi true (set_state false (set_base None match_)) in
  {| ret := if count (used_comp s) c_key =? 0 then ret s ++ [to_process] else ret s;
     base_cnt := base_cnt s;
     comp_cnt := comp_cnt s - 1;
     used_comp := <[c_key := 9]> (used_comp s);
     used_base := used_base s |}.

Definition only_base (s : locals) (match_ : MatchResult) : locals :=
  let b_key := str_entry (base match_) in
  let to_process := set_multi true (set_state false (set_comp None match_)) in
  {| ret := if count (used_base s) b_key =? 0 then ret s ++ [to_process] else ret s;
     base_cnt := base_cnt s - 1;
     comp_cnt := comp_cnt s;
     used_comp := used_comp s;
     used_base := <[b_key := 9]> (used_base s) |}.

Definition write_both (s : locals) (match_ : MatchResult) : locals :=
  let b_key := str_entry (base match_) in
  let c_key := str_entry (comp match_) in
  let to_process := match_ in
  let to_process :=
    if negb (count (used_base s) b_key =? 0) then set_base None to_process
    else to_process in
  let to_process :=
    if negb (count (used_comp s) c_key =? 0) then set_comp None to_process
    else to_process in
  let used_base' :=
    <[b_key := count (used_base s) b_key + comp_gt_count match_]> (used_base s) in
  let used_comp' :=
    <[c_key := count (used_comp s) c_key + base_gt_count match_]> (used_comp s) in
  let base_cnt' :=
    if base_gt_count match_ <=? count used_base' b_key
    then base_cnt s - 1 else base_cnt s in
  let comp_cnt' :=
    if comp_gt_count match_ <=? count used_comp' c_key
    then comp_cnt s - 1 else comp_cnt s in
  {| ret := match base to_process, comp to_process with
            | None, None => ret s
            | _, _ => ret s ++ [to_process]
            end;
     base_cnt := base_cnt';
     comp_cnt := comp_cnt';
     used_comp := used_comp';
     used_base := used_base' |}.

Definition body (s : locals) (match_ : MatchResult) : locals :=
  let b_key := str_entry (base match_) in
  let c_key := str_entry (comp match_) in
  let base_is_used := base_gt_count match_ <=? count (used_base s) b_key in
  let comp_is_used := comp_gt_count match_ <=? count (used_comp s) c_key in
  if (base_cnt s =? 0) && negb comp_is_used then only_comp s match_
  else if (comp_cnt s =? 0) && negb base_is_used then only_base s match_
  else if negb base_is_used && negb comp_is_used then write_both s match_
  else s.

Definition finished (s : locals) : bool :=
  (base_cnt s =? 0) && (comp_cnt s =? 0).

Fixpoint loop (s : locals) (l : list MatchResult) : locals :=
  match l with
  | [] => s
  | match_ :: rest => if finished s then s else loop (body s match_) rest
  end.

Definition pick_gtcomp_matches (match_matrix : Matrix) : list MatchResult :=
  ret (loop (init match_matrix) (walk_order match_matrix)).

End GtComp.

(** ** [Bench.build_matrix] (bench.py)

    [build_match] is [matcher.build_match], the similarity scorer, which
    lives outside the two modules embedded here; it is an argument, as the
    matcher is in the source. *)

Inductive MatrixOrList : Type :=
| AsList (l : list MatchResult)
| AsArray (m : Matrix).

(** The f-strings of the three cases. *)
Definition matid_fp (chunk_id : Z) (cid : nat) : string :=
  str_int chunk_id +:+ "._." +:+ str_idx cid.
Definition matid_fn (chunk_id : Z) (bid : nat) : string :=
  str_int chunk_id +:+ "." +:+ str_idx bid +:+ "._".
Definition matid_pair (chunk_id : Z) (bid cid : nat) : string :=
  str_int chunk_id +:+ "." +:+ str_idx bid +:+ "." +:+ str_idx cid.

Definition build_matrix (base_variants comp_variants : list Variant)
    (build_match : Variant -> Variant -> string -> MatchResult)
    (chunk_id : Z) : MatrixOrList :=
  if (length base_variants =? 0)%nat then
    AsList (imap (fun cid c =>
                    set_matid (matid_fp chunk_id cid)
                      (set_comp (Some c) MatchResult_new)) comp_variants)
  else if (length comp_variants =? 0)%nat then
    AsList (imap (fun bid b =>
                    set_matid (matid_fn chunk_id bid)
                      (set_base (Some b) MatchResult_new)) base_variants)
  else
    AsArray (imap (fun bid b =>
                     imap (fun cid c => build_match b c (matid_pair chunk_id bid cid))
                       comp_variants) base_variants).

(** ** Exceptions and exits

    A small error monad for the places where the source can raise or call
    [sys.exit]. *)

Inductive Exn : Type := IndexError | ZeroDivisionError.

Inductive Py (A : Type) : Type :=
| Ret (a : A)
| Raise (e : Exn)
| SysExit (code : Z).
Arguments Ret {A} a.
Arguments Raise {A} e.
Arguments SysExit {A} code.

Definition py_bind {A B} (m : Py A) (k : A -> Py B) : Py B :=
  match m with
  | Ret a => k a
  | Raise e => Raise e
  | SysExit c => SysExit c
  end.

#[global] Instance Py_ret : MRet Py := fun A a => Ret a.
#[global] Instance Py_bind : MBind Py := fun A B k m => py_bind m k.

(** ** The repeat annotator (annotations/trf.py) *)

Module TRF.

(** A motif record as loaded from the repeats file or parsed from the
    tool's output. *)
Record Motif : Type := mkMotif {
  m_start : Z;
  m_end : Z;
  period : Z;
  copies : Q;
  consize : Z;
  pctmat : Z;
  pctindel : Z;
  score : Z;
  entropy : Q;
  repeat : string
}.

(** A motif dictionary once scoring has added ['ovl_pct'] and ['diff']. *)
Record Scored : Type := mkScored {
  anno : Motif;
  ovl_pct : Q;
  diff : Q
}.

(** [b['end'] = value] on a scored dictionary *)
Definition set_end (value : Z) (b : Scored) : Scored :=
  {| anno := {| m_start := m_start (anno b); m_end := value;
                period := period (anno b); copies := copies (anno b);
                consize := consize (anno b); pctmat := pctmat (anno b);
                pctindel := pctindel (anno b); score := score (anno b);
                entropy := entropy (anno b); repeat := repeat (anno b) |};
     ovl_pct := ovl_pct b;
     diff := diff b |}.

Record Region : Type := mkRegion {
  reg_chrom : string;
  reg_start : Z;
  reg_end : Z;
  annos : list Motif
}.

(** Modelled from the spec: [truvari.overlap_percent] is declared outside
    this module.  Sections 4.1 and 4.8 define the reciprocal overlap of two
    intervals as [max(0, min(end) - max(start)) / max(span_a, span_b)]. *)
Definition overlap_percent (astart aend bstart bend : Z) : Q :=
  let ovl := Z.max 0 (Z.min aend bend - Z.max astart bstart) in
  let den := Z.max (aend - astart) (bend - bstart) in
  (inject_Z ovl / inject_Z den)%Q.

(** [compare_scores(a, b)]: the returned integer, and [b] as the call
    leaves it.  The last branch executes [bspan = b['end'] = b['start']],
    a chained assignment: it stores [b['start']] into [b['end']] and into
    [bspan]. *)
Definition compare_scores (a b : Scored) : Z * Scored :=
  if Qlt_le_dec (ovl_pct b) (ovl_pct a) then (1, b)
  else if Qlt_le_dec (ovl_pct a) (ovl_pct b) then (-1, b)
  else if score (anno b) <? score (anno a) then (1, b)
  else if score (anno a) <? score (anno b) then (-1, b)
  else
    let aspan := m_end (anno a) - m_start (anno a) in
    let b := set_end (m_start (anno b)) b in
    let bspan := m_start (anno b) in
    if bspan <? aspan then (1, b)
    else if aspan <? bspan then (-1, b)
    else (0, b).

(** *** [list.sort(reverse=True, key=score_sorter)]

    The list holds references to dictionaries the comparator may write to,
    so the dictionaries live in a store and the list is a list of indices
    into it.  The sort is CPython's for a list of fewer than 64 elements:
    reverse, find the leading run, binary-insert the rest, reverse. *)

Abbreviation Store := (list Scored).

(** [K(x) < K(y)] for [K = cmp_to_key(compare_scores)]: calls
    [compare_scores(x, y)] and tests the result against zero. *)
Definition key_lt (st : Store) (x y : nat) : bool * Store :=
  match st !! x, st !! y with
  | Some a, Some b =>
      let '(r, b') := compare_scores a b in (r <? 0, <[y := b']> st)
  | _, _ => (false, st)
  end.

Fixpoint run_extend (descending : bool) (st : Store) (prev : nat)
    (rest : list nat) : nat * Store :=
  match rest with
  | [] => (0%nat, st)
  | x :: rest' =>
      let '(b, st) := key_lt st x prev in
      if Bool.eqb b descending then
        let '(n, st) := run_extend descending st x rest' in (S n, st)
      else (0%nat, st)
  end.

Definition count_run (st : Store) (l : list nat) : nat * bool * Store :=
  match l with
  | [] => (0%nat, false, st)
  | [_] => (1%nat, false, st)
  | x0 :: x1 :: rest =>
      let '(descending, st) := key_lt st x1 x0 in
      let '(n, st) := run_extend descending st x1 rest in
      (S (S n), descending, st)
  end.

Fixpoint bisect (fuel : nat) (st : Store) (sorted : list nat) (pivot : nat)
    (l r : nat) : nat * Store :=
  match fuel with
  | O => (l, st)
  | S fuel =>
      if (l <? r)%nat then
        let p := (l + (r - l) / 2)%nat in
        match sorted !! p with
        | Some x =>
            let '(b, st) := key_lt st pivot x in
            if b then bisect fuel st sorted pivot l p
            else bisect fuel st sorted pivot (S p) r
        | None => (l, st)
        end
      else (l, st)
  end.

Fixpoint binarysort (st : Store) (sorted rest : list nat) : list nat * Store :=
  match rest with
  | [] => (sorted, st)
  | pivot :: rest' =>
      let '(l, st) :=
        bisect (S (length sorted)) st sorted pivot 0%nat (length sorted) in
      binarysort st (take l sorted ++ pivot :: drop l sorted) rest'
  end.

Definition sort_reverse (st : Store) (l : list nat) : list nat * Store :=
  let l := rev l in
  if (length l <? 2)%nat then (rev l, st)
  else
    let '(n, descending, st) := count_run st l in
    let run := if descending then rev (take n l) else take n l in
    let '(sorted, st) := binarysort st run (drop n l) in
    (rev sorted, st).

(** [scores.sort(reverse=True, key=score_sorter)] followed by
    [scores[0] if scores else None]. *)
Definition best_score (scores : list Scored) : option Scored :=
  let '(order, st) := sort_reverse scores (seq 0 (length scores)) in
  match order with
  | first :: _ => st !! first
  | [] => None
  end.

(** *** TRFAnno *)

Record TRFAnno : Type := mkTRFAnno {
  region : Region;
  reference : string;
  (** [run_trf] as a function of the haplotype: the external tool, its
      output parsed and shifted to reference coordinates *)
  run_trf : string -> list Motif;
  known_motifs : gmap string Q
}.

(** [{_['repeat']: _['copies'] for _ in region['annos']}] *)
Definition make_known_motifs (r : Region) : gmap string Q :=
  fold_left (fun m a => <[repeat a := copies a]> m) (annos r) ∅.

(** Python slices [s[:k]] and [s[k:]]. *)
Definition slice_bound (s : string) (k : Z) : nat :=
  let len := Z.of_nat (String.length s) in
  Z.to_nat (Z.min len (if k <? 0 then Z.max 0 (k + len) else k)).

Definition slice_to (s : string) (k : Z) : string :=
  substring 0 (slice_bound s k) s.

Definition slice_from (s : string) (k : Z) : string :=
  substring (slice_bound s k) (String.length s - slice_bound s k) s.

Definition make_seq (self : TRFAnno) (entry : Variant) (svtype : SvType) : Py string :=
  let r_start := start entry - reg_start (region self) in
  let r_end := stop entry - reg_start (region self) in
  let up_seq := slice_to (reference self) r_start in
  let dn_seq := slice_from (reference self) r_end in
  match svtype with
  | INS => Ret (up_seq +:+ alt entry +:+ dn_seq)
  | DEL => Ret (up_seq +:+ dn_seq)
  | _ => SysExit 1
  end.

Definition score_annotation (self : TRFAnno) (var_start var_end : Z)
    (a : Motif) : option Scored :=
  let ovl := overlap_percent var_start var_end (m_start a) (m_end a) in
  if Qle_bool ovl 0 then None
  else
    let d := match known_motifs self !! repeat a with
             | Some known => (copies a - known)%Q
             | None => 0%Q
             end in
    Some {| anno := a; ovl_pct := ovl; diff := d |}.

(** The scoring loop of [del_annotator]: dividing by a zero period
    raises. *)
Fixpoint del_scores (var_start var_end svlen : Z) (l : list Motif)
    : Py (list Scored) :=
  match l with
  | [] => Ret []
  | a :: rest =>
      let ovl := overlap_percent var_start var_end (m_start a) (m_end a) in
      if Qeq_bool ovl 0 then del_scores var_start var_end svlen rest
      else if period a =? 0 then Raise ZeroDivisionError
      else
        let m_sc :=
          {| anno := a; ovl_pct := ovl;
             diff := (- (ovl * inject_Z svlen) / inject_Z (period a))%Q |} in
        scores ← del_scores var_start var_end svlen rest;
        Ret (m_sc :: scores)
  end.

Definition del_annotator (self : TRFAnno) (entry : Variant) (svlen : Z)
    : Py (option Scored) :=
  scores ← del_scores (start entry) (stop entry) svlen (annos (region self));
  Ret (best_score scores).

Definition ins_annotator (self : TRFAnno) (entry : Variant) : Py (option Scored) :=
  m_seq ← make_seq self entry INS;
  let annos := run_trf self m_seq in
  let scores :=
    omap (score_annotation self (start entry) (stop entry)) annos in
  Ret (best_score scores).

(** [annotate] assigns into [entry.info] in place: the result is the entry
    as the call leaves it, and how the call ended. *)
Definition annotate (self : TRFAnno) (entry : Variant) (min_length : Z)
    : Variant * Py unit :=
  let svtype := entry_variant_type entry in
  let sz := entry_size entry in
  let entry := info_set "TRF" (PyBool true) entry in
  if sz <? min_length then (entry, Ret tt)
  else
    let found :=
      match svtype with
      | DEL => del_annotator self entry sz
      | INS => ins_annotator self entry
      | _ => Ret None
      end in
    match found with
    | Ret (Some r) =>
        let entry := info_set "TRFovl" (PyFloat (py_round (ovl_pct r) 3)) entry in
        let entry := info_set "TRFdiff" (PyFloat (py_round (diff r) 1)) entry in
        let entry := info_set "TRFperiod" (PyInt (period (anno r))) entry in
        let entry := info_set "TRFcopies" (PyFloat (copies (anno r))) entry in
        let entry := info_set "TRFscore" (PyInt (score (anno r))) entry in
        let entry := info_set "TRFentropy" (PyFloat (entropy (anno r))) entry in
        let entry := info_set "TRFrepeat" (PyStr (repeat (anno r))) entry in
        (entry, Ret tt)
    | Ret None => (entry, Ret tt)
    | Raise e => (entry, Raise e)
    | SysExit c => (entry, SysExit c)
    end.

End TRF.

(** ** Command line handling of bench (bench.py) *)

Module Cli.

(** What the checks see of the outside world. *)
Record World : Type := mkWorld {
  abspath : string -> string;          (* os.path.abspath *)
  isdir : string -> bool;              (* os.path.isdir *)
  exists_ : string -> bool;            (* os.path.exists *)
  header_samples : string -> list string
    (* pysam.VariantFile(fn).header.samples *)
}.

(** The attributes of the argparse namespace the functions below read or
    assign. *)
Record Args : Type := mkArgs {
  base : string;
  comp : string;
  output : string;
  reference : option string;
  refdist : Z;
  chunksize : Z;
  bSample : option string;
  cSample : option string;
  sizemin : Z;
  sizefilt : option Z;
  includebed : option string;
  extend : Z
}.

(** [truvari.Matcher.make_match_params()], declared outside this module:
    the defaults are an argument. *)
Record MatchParams : Type := mkMatchParams {
  d_refdist : Z;
  d_chunksize : Z;
  d_sizemin : Z;
  d_sizefilt : Z;
  d_sizemax : Z
}.

(** Truthiness of an optional string: [None] and the empty string are
    false. *)
Definition truthy (s : option string) : bool :=
  match s with
  | Some x => negb (String.eqb x "")
  | None => false
  end.

(** [s.endswith(suffix)] *)
Definition endswith (s suffix : string) : bool :=
  let n := String.length s in
  let k := String.length suffix in
  (k <=? n)%nat && String.eqb (substring (n - k) k s) suffix.

(** [parse_args], from the namespace [parser.parse_args(args)] returns
    on. *)
Definition parse_args (w : World) (defaults : MatchParams) (args : Args) : Args :=
  let sizefilt' :=
    match sizefilt args with
    | None =>
        if sizemin args <? d_sizefilt defaults then Some (sizemin args)
        else Some (d_sizefilt defaults)
    | Some v => Some v
    end in
  {| base := abspath w (base args);
     comp := abspath w (comp args);
     output := output args;
     reference := if truthy (reference args)
                  then abspath w <$> reference args else reference args;
     refdist := refdist args;
     chunksize := chunksize args;
     bSample := bSample args;
     cSample := cSample args;
     sizemin := sizemin args;
     sizefilt := sizefilt';
     includebed := if truthy (includebed args)
                   then abspath w <$> includebed args else includebed args;
     extend := extend args |}.

(** Logging: a computation appends to the lines written so far, and ends
    as [Py] says. *)
Definition Logged (A : Type) : Type := list string -> Py A * list string.

#[global] Instance Logged_ret : MRet Logged := fun A a log => (Ret a, log).
#[global] Instance Logged_bind : MBind Logged := fun A B k m log =>
  match m log with
  | (Ret a, log') => k a log'
  | (Raise e, log') => (Raise e, log')
  | (SysExit c, log') => (SysExit c, log')
  end.

Definition logging_error (msg : string) : Logged unit :=
  fun log => (Ret tt, log ++ [msg]).
Definition stderr_write (msg : string) : Logged unit :=
  fun log => (Ret tt, log ++ [msg]).
Definition raise {A} (e : Exn) : Logged A := fun log => (Raise e, log).
Definition sys_exit {A} (code : Z) : Logged A := fun log => (SysExit code, log).

(** One [if cond: logging.error(msg); check_fail = True] statement. *)
Definition check (cond : bool) (msg : string) (check_fail : bool) : Logged bool :=
  if cond then _ ← logging_error msg; mret true else mret check_fail.

Definition check_params (w : World) (args : Args) : Logged bool :=
  let check_fail := false in
  check_fail ← check (chunksize args <? refdist args)
    "--chunksize must be >= --refdist" check_fail;
  check_fail ← check (negb (extend args =? 0) && bool_decide (includebed args = None))
    "--extend can only be used when --includebed is set" check_fail;
  check_fail ← check (isdir w (output args))
    ("Output directory '" +:+ output args +:+ "' already exists") check_fail;
  check_fail ← check (negb (exists_ w (comp args)))
    ("File " +:+ comp args +:+ " does not exist") check_fail;
  check_fail ← check (negb (exists_ w (base args)))
    ("File " +:+ base args +:+ " does not exist") check_fail;
  check_fail ← check (negb (endswith (comp args) ".gz"))
    ("Comparison vcf " +:+ comp args +:+ " does not end with .gz. Must be bgzip'd")
    check_fail;
  check_fail ← check (negb (exists_ w (comp args +:+ ".tbi")))
    ("Comparison vcf index " +:+ comp args +:+ ".tbi does not exist. Must be indexed")
    check_fail;
  check_fail ← check (negb (endswith (base args) ".gz"))
    ("Base vcf " +:+ base args +:+ " does not end with .gz. Must be bgzip'd")
    check_fail;
  check_fail ← check (negb (exists_ w (base args +:+ ".tbi")))
    ("Base vcf index " +:+ base args +:+ ".tbi does not exist. Must be indexed")
    check_fail;
  check_fail ← check
    (match includebed args with
     | Some f => truthy (Some f) && negb (exists_ w f)
     | None => false
     end)
    ("Include bed " +:+ default "None" (includebed args) +:+ " does not exist")
    check_fail;
  check_fail ← check
    (match reference args with
     | Some f => truthy (Some f) && negb (exists_ w f)
     | None => false
     end)
    ("Reference " +:+ default "None" (reference args) +:+ " does not exist")
    check_fail;
  mret check_fail.

Definition check_sample (w : World) (vcf_fn : string) (sample_id : option string)
    : Logged (bool * string) :=
  let samples := header_samples w vcf_fn in
  let check_fail := false in
  check_fail ← check
    (match sample_id with
     | Some s => negb (bool_decide (s ∈ samples))
     | None => false
     end)
    ("Sample " +:+ default "None" sample_id +:+ " not found in vcf (" +:+ vcf_fn +:+ ")")
    check_fail;
  check_fail ← check (length samples =? 0)%nat
    ("No SAMPLE columns found in vcf (" +:+ vcf_fn +:+ ")") check_fail;
  match sample_id with
  | Some s => mret (check_fail, s)
  | None =>
      match samples !! 0%nat with
      | Some s => mret (check_fail, s)
      | None => raise IndexError
      end
  end.

Definition set_bSample (s : string) (args : Args) : Args :=
  {| base := base args; comp := comp args; output := output args;
     reference := reference args; refdist := refdist args;
     chunksize := chunksize args; bSample := Some s; cSample := cSample args;
     sizemin := sizemin args; sizefilt := sizefilt args;
     includebed := includebed args; extend := extend args |}.

Definition set_cSample (s : string) (args : Args) : Args :=
  {| base := base args; comp := comp args; output := output args;
     reference := reference args; refdist := refdist args;
     chunksize := chunksize args; bSample := bSample args; cSample := Some s;
     sizemin := sizemin args; sizefilt := sizefilt args;
     includebed := includebed args; extend := extend args |}.

(** [check_inputs] assigns the sample names into [args]: the result pairs
    the flag with [args] as the call leaves it. *)
Definition check_inputs (w : World) (args : Args) : Logged (bool * Args) :=
  '(b_check, b_id) ← check_sample w (base args) (bSample args);
  let args := set_bSample b_id args in
  '(c_check, c_id) ← check_sample w (comp args) (cSample args);
  let args := set_cSample c_id args in
  mret (b_check || c_check, args).

(** [bench_main] up to the point where processing starts: [Ret args] is
    the call reaching [truvari.Matcher(args)] and [Bench.run] with these
    arguments. *)
Definition bench_main (w : World) (defaults : MatchParams) (cmdargs : Args)
    : Logged Args :=
  let args := parse_args w defaults cmdargs in
  params_fail ← check_params w args;
  '(fail, args) ←
    (if params_fail : bool then mret (true, args) else check_inputs w args);
  if fail : bool then
    _ ← stderr_write "Couldn't run Truvari. Please fix parameters";
    sys_exit 100
  else mret args.

End Cli.

(** ** Predicates used in the statements *)

(** The two balance equations of the stats box. *)
Definition counts_balanced (box : StatsBox) : Prop :=
  box_get box "TP-base" + box_get box "FN" = box_get box "base cnt" /\
  box_get box "TP-comp" + box_get box "FP" = box_get box "comp cnt".

(** How much a counter grew between two states of the writer. *)
Definition grew (key : string) (before after : BenchOutput) : Z :=
  box_get (stats_box after) key - box_get (stats_box before) key.

(** [1] when the condition holds, [0] otherwise. *)
Definition one_if (b : bool) : Z := if b then 1 else 0.

Definition present {A} (x : option A) : bool :=
  match x with
  | Some _ => true
  | None => false
  end.

(** The comp side is counted: it is present, and the match is a true
    positive or the variant reaches [sizemin]. *)
Definition comp_counted (match_ : MatchResult) (sizemin : Z) : bool :=
  match comp match_ with
  | Some c => state match_ || (sizemin <=? entry_size c)
  | None => false
  end.

(** ** Sample data

    Small inputs on which the statements below are exercised. *)

Definition sample_variant (pos : Z) (r a : string) (t : SvType) (sz : Z) : Variant :=
  {| chrom := "chr1"; start := pos; stop := pos + 1; ref := r; alt := a;
     svtype := t; svsize := sz;
     text := "chr1:" +:+ str_int pos +:+ ":" +:+ r +:+ ":" +:+ a;
     info := ∅ |}.

(** chr1 100 G GAAAA, an insertion of four bases *)
Definition ins_100 : Variant := sample_variant 100 "G" "GAAAA" INS 4.
(** chr1 101 G GAAAA *)
Definition ins_101 : Variant := sample_variant 101 "G" "GAAAA" INS 4.
(** chr1 100 G GA, an insertion of one base *)
Definition ins_small : Variant := sample_variant 100 "G" "GA" INS 1.

(** An unmatched comp record. *)
Definition unmatched_comp (c : Variant) : MatchResult :=
  set_matid "0._.0" (set_comp (Some c) MatchResult_new).

(** A pair scored as an exact match or as a failed one. *)
Definition scored_pair (b c : Variant) (ok : bool) (b_ac c_ac : Z) (id : string)
    : MatchResult :=
  {| base := Some b; comp := Some c;
     base_gt := None; base_gt_count := b_ac;
     comp_gt := None; comp_gt_count := c_ac;
     state := ok;
     seqsim := Some 1%Q; sizesim := Some 1%Q; ovlpct := Some 1%Q;
     sizediff := Some 0%Q; st_dist := Some (start b - start c);
     ed_dist := Some (stop b - stop c); gt_match := Some (Z.abs (b_ac - c_ac));
     multi := false;
     score := if ok then Some 300%Q else None;
     matid := Some id |}.

(** A scorer for the samples: every pair passes. *)
Definition sample_build_match (b c : Variant) (id : string) : MatchResult :=
  scored_pair b c true 1 1 id.

(** A passing match whose three similarities are all zero. *)
Definition zero_score_match : MatchResult :=
  {| base := Some ins_100; comp := Some ins_101;
     base_gt := None; base_gt_count := 1;
     comp_gt := None; comp_gt_count := 1; state := true;
     seqsim := Some 0%Q; sizesim := Some 0%Q; ovlpct := Some 0%Q;
     sizediff := Some 0%Q; st_dist := Some 0; ed_dist := Some 0;
     gt_match := Some 0; multi := false; score := Some (0 # 3)%Q;
     matid := Some "0.0.0" |}.

(** A world in which both inputs are in place ([base.vcf.gz] and
    [comp.vcf.gz], compressed and indexed, one sample each) and the output
    directory does not exist yet. *)
Definition sample_world : Cli.World :=
  {| Cli.abspath := fun p => "/data/" +:+ p;
     Cli.isdir := fun _ => false;
     Cli.exists_ := fun p =>
       bool_decide (p ∈ ["/data/base.vcf.gz"; "/data/base.vcf.gz.tbi";
                         "/data/comp.vcf.gz"; "/data/comp.vcf.gz.tbi"]);
     Cli.header_samples := fun _ => ["HG002"] |}.

Definition sample_defaults : Cli.MatchParams :=
  {| Cli.d_refdist := 500; Cli.d_chunksize := 1000; Cli.d_sizemin := 50;
     Cli.d_sizefilt := 30; Cli.d_sizemax := 50000 |}.

(** [-b base.vcf.gz -c comp.vcf.gz -o out -s sizemin] *)
Definition sample_args (s : Z) : Cli.Args :=
  {| Cli.base := "base.vcf.gz"; Cli.comp := "comp.vcf.gz"; Cli.output := "out";
     Cli.reference := None; Cli.refdist := 500; Cli.chunksize := 1000;
     Cli.bSample := None; Cli.cSample := None; Cli.sizemin := s;
     Cli.sizefilt := None; Cli.includebed := None; Cli.extend := 0 |}.

(** The same world, except that the base catalog is a sites-only VCF: its
    header has no sample column. *)
Definition sites_only_world : Cli.World :=
  {| Cli.abspath := Cli.abspath sample_world;
     Cli.isdir := Cli.isdir sample_world;
     Cli.exists_ := Cli.exists_ sample_world;
     Cli.header_samples := fun p =>
       if String.eqb p "/data/base.vcf.gz" then [] else ["HG002"] |}.

(** The checks of [check_params] as a table: the condition under which each
    one fails, and the line it logs. *)
Definition param_checks (w : Cli.World) (args : Cli.Args) : list (bool * string) :=
  [ (Cli.chunksize args <? Cli.refdist args,
     "--chunksize must be >= --refdist");
    (negb (Cli.extend args =? 0) && bool_decide (Cli.includebed args = None),
     "--extend can only be used when --includebed is set");
    (Cli.isdir w (Cli.output args),
     "Output directory '" +:+ Cli.output args +:+ "' already exists");
    (negb (Cli.exists_ w (Cli.comp args)),
     "File " +:+ Cli.comp args +:+ " does not exist");
    (negb (Cli.exists_ w (Cli.base args)),
     "File " +:+ Cli.base args +:+ " does not exist");
    (negb (Cli.endswith (Cli.comp args) ".gz"),
     "Comparison vcf " +:+ Cli.comp args +:+ " does not end with .gz. Must be bgzip'd");
    (negb (Cli.exists_ w (Cli.comp args +:+ ".tbi")),
     "Comparison vcf index " +:+ Cli.comp args +:+ ".tbi does not exist. Must be indexed");
    (negb (Cli.endswith (Cli.base args) ".gz"),
     "Base vcf " +:+ Cli.base args +:+ " does not end with .gz. Must be bgzip'd");
    (negb (Cli.exists_ w (Cli.base args +:+ ".tbi")),
     "Base vcf index " +:+ Cli.base args +:+ ".tbi does not exist. Must be indexed");
    (match Cli.includebed args with
     | Some f => Cli.truthy (Some f) && negb (Cli.exists_ w f)
     | None => false
     end,
     "Include bed " +:+ default "None" (Cli.includebed args) +:+ " does not exist");
    (match Cli.reference args with
     | Some f => Cli.truthy (Some f) && negb (Cli.exists_ w f)
     | None => false
     end,
     "Reference " +:+ default "None" (Cli.reference args) +:+ " does not exist") ].

(** Scenario 6 of the specification: region chr1 100-200 with one known
    motif, and a deletion from 120 to 160. *)
Definition motif_at_100_200 : TRF.Motif :=
  {| TRF.m_start := 100; TRF.m_end := 200; TRF.period := 2; TRF.copies := 50;
     TRF.consize := 2; TRF.pctmat := 100; TRF.pctindel := 0; TRF.score := 400;
     TRF.entropy := 1; TRF.repeat := "AT" |}.

Definition anno_of (annos : list TRF.Motif) : TRF.TRFAnno :=
  let region := {| TRF.reg_chrom := "chr1"; TRF.reg_start := 100;
                   TRF.reg_end := 200; TRF.annos := annos |} in
  {| TRF.region := region; TRF.reference := "";
     TRF.run_trf := fun _ => [];
     TRF.known_motifs := TRF.make_known_motifs region |}.

Definition deletion (from to : Z) : Variant :=
  {| chrom := "chr1"; start := from; stop := to; ref := ""; alt := "";
     svtype := DEL; svsize := to - from;
     text := "chr1:" +:+ str_int from +:+ "-" +:+ str_int to; info := ∅ |}.

(** Two motifs that tie on overlap with a deletion from 120 to 180 (20 of 60
    bases each) and on score; AT spans 40 bases, GC spans 20. *)
Definition motif_at_100_140 : TRF.Motif :=
  {| TRF.m_start := 100; TRF.m_end := 140; TRF.period := 2; TRF.copies := 20;
     TRF.consize := 2; TRF.pctmat := 100; TRF.pctindel := 0; TRF.score := 50;
     TRF.entropy := 1; TRF.repeat := "AT" |}.

Definition motif_gc_130_150 : TRF.Motif :=
  {| TRF.m_start := 130; TRF.m_end := 150; TRF.period := 2; TRF.copies := 10;
     TRF.consize := 2; TRF.pctmat := 100; TRF.pctindel := 0; TRF.score := 50;
     TRF.entropy := 1; TRF.repeat := "GC" |}.

(** The ranking of scored motifs as the specification words it: overlap
    first, then score, then span [end - start], each descending. *)
Definition span (a : TRF.Scored) : Z :=
  TRF.m_end (TRF.anno a) - TRF.m_start (TRF.anno a).

Definition ranks_above (a b : TRF.Scored) : Prop :=
  (TRF.ovl_pct b < TRF.ovl_pct a)%Q \/
  ((TRF.ovl_pct a == TRF.ovl_pct b)%Q /\
   (TRF.score (TRF.anno b) < TRF.score (TRF.anno a) \/
    (TRF.score (TRF.anno a) = TRF.score (TRF.anno b) /\ span b < span a))).

(** Running a table of checks one after the other, as the [if] statements
    of [check_params] do. *)
Fixpoint run_checks (checks : list (bool * string)) (check_fail : bool)
    : Cli.Logged bool :=
  match checks with
  | [] => mret check_fail
  | (cond, msg) :: rest =>
      check_fail ← Cli.check cond msg check_fail; run_checks rest check_fail
  end.

(** ** Predicates on the walk of the greedy pickers *)

(** What a comparison function must satisfy to induce a total preorder. *)
Record GoodCmp {A} (cmp : A -> A -> comparison) : Prop := mkGoodCmp {
  cmp_sym : forall a b, cmp b a = CompOpp (cmp a b);
  cmp_eq_l : forall a b c, cmp a b = Eq -> cmp a c = cmp b c;
  cmp_lt_trans : forall a b c, cmp a b = Lt -> cmp b c = Lt -> cmp a c = Lt
}.

(** No element ranks below a later one. *)
Definition descending (l : list MatchResult) : Prop :=
  StronglySorted (fun x y => mr_lt x y = false) l.

Definition ascending (l : list MatchResult) : Prop :=
  StronglySorted (fun x y => mr_lt y x = false) l.

(** The array pairs base [i] with comp [j] at entry [(i, j)]. *)
Definition matrix_over (bs cs : list Variant) (m : Matrix) : Prop :=
  Forall2 (fun b row =>
             Forall2 (fun c r => base r = Some b /\ comp r = Some c) cs row)
          bs m.

(** The keys the pickers file variants under. *)
Definition keys (vs : list Variant) : gset string := list_to_set (text <$> vs).

(** An array entry pairs a base of [bs] with a comp of [cs]. *)
Definition entry_of (bs cs : list Variant) (r : MatchResult) : Prop :=
  exists b c, b ∈ bs /\ c ∈ cs /\ base r = Some b /\ comp r = Some c.

(** What [pick_single_matches] maintains between iterations: the used keys
    are keys of the array, and each remaining count is the number of rows
    (columns) minus the number of used keys. *)
Record single_inv (bs cs : list Variant) (s : Single.locals) : Prop := mkSingleInv {
  inv_base_sub : Single.used_base s ⊆ keys bs;
  inv_comp_sub : Single.used_comp s ⊆ keys cs;
  inv_base_cnt :
    Single.base_cnt s = Z.of_nat (length bs) - Z.of_nat (size (Single.used_base s));
  inv_comp_cnt :
    Single.comp_cnt s = Z.of_nat (length cs) - Z.of_nat (size (Single.used_comp s))
}.

(** The consolation copies: one side dropped, state false, multi true. *)
Definition base_only (match_ : MatchResult) : MatchResult :=
  set_multi true (set_state false (set_comp None match_)).
Definition comp_only (match_ : MatchResult) : MatchResult :=
  set_multi true (set_state false (set_base None match_)).

(** One base call and two comp calls, all passing (scenario 3 of the
    specification); [b_ac] and [c_ac] are the allele counts. *)
Definition one_by_two (b_ac c_ac : Z) : Matrix :=
  [[scored_pair ins_100 ins_100 true b_ac c_ac "0.0.0";
    scored_pair ins_100 ins_101 true b_ac c_ac "0.0.1"]].

(** ** Predicates on the walk of [pick_gtcomp_matches] *)

(** An array entry as the scorer builds it: both sides set, allele counts of
    a pair of alleles. *)
Definition paired_entry (r : MatchResult) : Prop :=
  (exists b c, base r = Some b /\ comp r = Some c) /\
  0 <= base_gt_count r <= 2 /\ 0 <= comp_gt_count r <= 2.

Definition has_side (r : MatchResult) : Prop :=
  base r <> None \/ comp r <> None.

(** The variant filed under [key] shows on the given side of a record of
    [out]. *)
Definition contributed (side : MatchResult -> option Variant)
    (out : list MatchResult) (key : string) : Prop :=
  exists r v, r ∈ out /\ side r = Some v /\ text v = key.

(** No record of [out] shows a variant filed under [key] on that side. *)
Definition absent (side : MatchResult -> option Variant)
    (out : list MatchResult) (key : string) : Prop :=
  Forall (fun r => forall v, side r = Some v -> text v <> key) out.

(** A counter is never negative, and it is non-zero exactly for the keys
    that show on its side of an emitted record. *)
Definition side_inv (side : MatchResult -> option Variant)
    (cnt : gmap string Z) (out : list MatchResult) : Prop :=
  (forall k, 0 <= GtComp.count cnt k) /\
  (forall k, GtComp.count cnt k <> 0 <-> contributed side out k).

Definition gt_inv (s : GtComp.locals) : Prop :=
  side_inv base (GtComp.used_base s) (GtComp.ret s) /\
  side_inv comp (GtComp.used_comp s) (GtComp.ret s).

(** The copy the paired branch emits: a side whose counter is already
    non-zero is dropped. *)
Definition paired_copy (s : GtComp.locals) (match_ : MatchResult) : MatchResult :=
  let b_key := str_entry (base match_) in
  let c_key := str_entry (comp match_) in
  let to_process :=
    if negb (GtComp.count (GtComp.used_base s) b_key =? 0)
    then set_base None match_ else match_ in
  if negb (GtComp.count (GtComp.used_comp s) c_key =? 0)
  then set_comp None to_process else to_process.

(** ** [StatsBox.calc_performance] (bench.py)

    [truvari.performance_metrics] is declared outside the module: it is an
    argument.  The warnings the method logs do not change the box. *)

(** [box[key] = value] for a rate *)
Definition rate_set (key : string) (value : Q) (box : StatsBox) : StatsBox :=
  {| counters := counters box;
     rates := <[key := value]> (rates box);
     gt_matrix := gt_matrix box |}.

Definition rate_get (box : StatsBox) (key : string) : Q :=
  default 0%Q (rates box !! key).

Definition calc_performance (performance_metrics : Z -> Z -> Z -> Z -> Q * Q * Q)
    (box : StatsBox) : StatsBox :=
  let '(precision, recall, f1) :=
    performance_metrics (box_get box "TP-base") (box_get box "TP-comp")
      (box_get box "FN") (box_get box "FP") in
  let box := rate_set "precision" precision box in
  let box := rate_set "recall" recall box in
  let box := rate_set "f1" f1 box in
  if negb (box_get box "TP-comp_TP-gt" + box_get box "TP-comp_FP-gt" =? 0) then
    rate_set "gt_concordance"
      (inject_Z (box_get box "TP-comp_TP-gt")
       / inject_Z (box_get box "TP-comp_TP-gt" + box_get box "TP-comp_FP-gt"))%Q
      box
  else box.

(** ** Predicates on the writer *)

(** Each output file holds as many records as its counter says. *)
Definition files_match_counters (o : BenchOutput) : Prop :=
  Z.of_nat (length (tpb_out o)) = box_get (stats_box o) "TP-base" /\
  Z.of_nat (length (fn_out o)) = box_get (stats_box o) "FN" /\
  Z.of_nat (length (tpc_out o)) = box_get (stats_box o) "TP-comp" /\
  Z.of_nat (length (fp_out o)) = box_get (stats_box o) "FP".

(** The genotype counters split the true positives of each side. *)
Definition gt_counters_split (box : StatsBox) : Prop :=
  0 <= box_get box "TP-base_TP-gt" /\ 0 <= box_get box "TP-base_FP-gt" /\
  0 <= box_get box "TP-comp_TP-gt" /\ 0 <= box_get box "TP-comp_FP-gt" /\
  box_get box "TP-base_TP-gt" + box_get box "TP-base_FP-gt" = box_get box "TP-base" /\
  box_get box "TP-comp_TP-gt" + box_get box "TP-comp_FP-gt" = box_get box "TP-comp".


(** ** [pick_multi_matches], [Bench.pick_matches], [Bench.compare_chunk]
    (bench.py) *)

(** Modelled from the spec: [match_matrix.max(axis=...)] is numpy's.  On an
    array of objects it reduces along the axis with [maximum], which keeps
    its first argument when [a >= b] and takes the second otherwise; with
    the order of section 4.2, [a >= b] is [not (a < b)]. *)
Definition np_maximum (a b : MatchResult) : MatchResult :=
  if mr_lt a b then b else a.

Definition np_max (l : list MatchResult) : option MatchResult :=
  match l with
  | [] => None
  | x :: rest => Some (fold_left np_maximum rest x)
  end.

(** Column [j] of the array. *)
Definition column (j : nat) (match_matrix : Matrix) : list MatchResult :=
  omap (fun row => row !! j) match_matrix.

(** [match_matrix.max(axis=1)]: the maximum of every row. *)
Definition max_axis1 (match_matrix : Matrix) : list MatchResult :=
  omap np_max match_matrix.

(** [match_matrix.max(axis=0)]: the maximum of every column. *)
Definition max_axis0 (match_matrix : Matrix) : list MatchResult :=
  omap (fun j => np_max (column j match_matrix))
       (seq 0 (Z.to_nat (snd (shape match_matrix)))).

Definition pick_multi_matches (match_matrix : Matrix) : list MatchResult :=
  (set_comp None <$> max_axis1 match_matrix) ++
  (set_base None <$> max_axis0 match_matrix).

(** [multimatch] and [gtcomp] are [matcher.params.multimatch] and
    [matcher.params.gtcomp]. *)
Definition pick_matches (match_matrix : Matrix) (multimatch gtcomp : bool)
    : list MatchResult :=
  if multimatch then pick_multi_matches match_matrix
  else if gtcomp then GtComp.pick_gtcomp_matches match_matrix
  else Single.pick_single_matches match_matrix.

(** The chunk is its two lists of variants and its id. *)
Definition compare_chunk (base_variants comp_variants : list Variant)
    (build_match : Variant -> Variant -> string -> MatchResult)
    (multimatch gtcomp : bool) (chunk_id : Z) : list MatchResult :=
  match build_matrix base_variants comp_variants build_match chunk_id with
  | AsList l => l
  | AsArray match_matrix => pick_matches match_matrix multimatch gtcomp
  end.

(** The scorer pairs the two variants it is given. *)
Definition pairs_its_arguments
    (build_match : Variant -> Variant -> string -> MatchResult) : Prop :=
  forall b c id,
    base (build_match b c id) = Some b /\ comp (build_match b c id) = Some c.

(** [r] ranks at least as high as every element of [l]. *)
Definition tops (r : MatchResult) (l : list MatchResult) : Prop :=
  r ∈ l /\ forall x, x ∈ l -> mr_lt r x = false.

(** ** Predicates on the coverage of [pick_single_matches] *)

(** Every pair whose two sides are both still unused is still to come in
    the walk. *)
Definition pending (bs cs : list Variant) (s : Single.locals)
    (rest : list MatchResult) : Prop :=
  forall b c, b ∈ bs -> c ∈ cs ->
    text b ∉ Single.used_base s -> text c ∉ Single.used_comp s ->
    exists r, r ∈ rest /\ base r = Some b /\ comp r = Some c.

(** The used keys of a side are the texts of the variants that side shows
    in the emitted records; no text shows twice, and the variants are
    variants of the chunk. *)
Definition emitted_inv (side : MatchResult -> option Variant)
    (vs : list Variant) (used : gset string) (out : list MatchResult) : Prop :=
  used = list_to_set (text <$> omap side out) /\
  NoDup (text <$> omap side out) /\
  Forall (fun v => v ∈ vs) (omap side out).

(** ** [check_params] of the repeat annotator (annotations/trf.py) *)

Module TrfCli.

Record World : Type := mkWorld {
  exists_ : string -> bool;            (* os.path.exists *)
  which : string -> bool               (* shutil.which(name) found something *)
}.

(** The attributes of the namespace the check reads. *)
Record Args : Type := mkArgs {
  input : string;
  repeats : string;
  executable : string
}.

(** The six checks in source order: the condition under which each fails
    and the line it logs. *)
Definition checks (w : World) (args : Args) : list (bool * string) :=
  [ (negb (exists_ w (input args)), input args +:+ " doesn't exit");
    (negb (Cli.endswith (input args) ".vcf.gz"
           || Cli.endswith (input args) ".bcf.gz"),
     input args +:+ " isn't compressed vcf");
    (negb (exists_ w (input args +:+ ".tbi"))
     && negb (exists_ w (input args +:+ ".csi")),
     input args +:+ "[.tbi|.csi] doesn't exit");
    (negb (Cli.endswith (repeats args) ".bed.gz"),
     repeats args +:+ " isn't compressed bed");
    (negb (exists_ w (repeats args +:+ ".tbi")),
     repeats args +:+ ".tbi doesn't exit");
    (negb (which w (executable args)),
     executable args +:+ " not found in path") ].

Definition check_params (w : World) (args : Args) : Cli.Logged unit :=
  let check_fail := false in
  check_fail ← Cli.check (negb (exists_ w (input args)))
    (input args +:+ " doesn't exit") check_fail;
  check_fail ← Cli.check
    (negb (Cli.endswith (input args) ".vcf.gz"
           || Cli.endswith (input args) ".bcf.gz"))
    (input args +:+ " isn't compressed vcf") check_fail;
  check_fail ← Cli.check
    (negb (exists_ w (input args +:+ ".tbi"))
     && negb (exists_ w (input args +:+ ".csi")))
    (input args +:+ "[.tbi|.csi] doesn't exit") check_fail;
  check_fail ← Cli.check (negb (Cli.endswith (repeats args) ".bed.gz"))
    (repeats args +:+ " isn't compressed bed") check_fail;
  check_fail ← Cli.check (negb (exists_ w (repeats args +:+ ".tbi")))
    (repeats args +:+ ".tbi doesn't exit") check_fail;
  check_fail ← Cli.check (negb (which w (executable args)))
    (executable args +:+ " not found in path") check_fail;
  if check_fail : bool then
    _ ← Cli.logging_error "Please fix parameters"; Cli.sys_exit 1
  else mret tt.

End TrfCli.

(** ** Predicates on the repeat annotator *)

(** The INFO keys [TRFAnno.annotate] may assign. *)
Definition trf_info_keys : list string :=
  ["TRF"; "TRFovl"; "TRFdiff"; "TRFperiod"; "TRFcopies"; "TRFscore";
   "TRFentropy"; "TRFrepeat"].

(** Two entries that differ at most in INFO. *)
Definition same_record (a b : Variant) : Prop :=
  chrom a = chrom b /\ start a = start b /\ stop a = stop b /\ ref a = ref b /\
  alt a = alt b /\ svtype a = svtype b /\ svsize a = svsize b /\ text a = text b.

(** Two scored motifs tie on the comparator's first two keys. *)
Definition ties (a b : TRF.Scored) : Prop :=
  (TRF.ovl_pct a == TRF.ovl_pct b)%Q /\
  TRF.score (TRF.anno a) = TRF.score (TRF.anno b).

(** Some motif overlaps the interval and has a zero period. *)
Definition zero_period_hit (var_start var_end : Z) (motifs : list TRF.Motif) : Prop :=
  Exists (fun a =>
            ~ (TRF.overlap_percent var_start var_end (TRF.m_start a) (TRF.m_end a)
               == 0)%Q /\ TRF.period a = 0) motifs.

(** ** The two greedy pickers side by side *)

(** A counter map and a used set agree: no count is negative, and the keys
    of the set are the keys with a non-zero count. *)
Definition side_sim (cnt : gmap string Z) (used : gset string) : Prop :=
  forall k, 0 <= GtComp.count cnt k /\ (k ∈ used <-> GtComp.count cnt k <> 0).

(** The locals of [pick_gtcomp_matches] and of [pick_single_matches]
    agree. *)
Definition het_sim (g : GtComp.locals) (s : Single.locals) : Prop :=
  GtComp.ret g = Single.ret s /\
  GtComp.base_cnt g = Single.base_cnt s /\
  GtComp.comp_cnt g = Single.comp_cnt s /\
  side_sim (GtComp.used_base g) (Single.used_base s) /\
  side_sim (GtComp.used_comp g) (Single.used_comp s).

(** An array entry whose two variants are both heterozygous. *)
Definition het_entry (r : MatchResult) : Prop :=
  (exists b c, base r = Some b /\ comp r = Some c) /\
  base_gt_count r = 1 /\ comp_gt_count r = 1.

(** ** Ranking by the comparator's first two keys *)

(** [a] ranks no higher than [b]: a smaller overlap, or the same overlap
    and a score that is not greater. *)
Definition rank_le (a b : TRF.Scored) : Prop :=
  (TRF.ovl_pct a < TRF.ovl_pct b)%Q \/
  ((TRF.ovl_pct a == TRF.ovl_pct b)%Q /\
   TRF.score (TRF.anno a) <= TRF.score (TRF.anno b)).

(** What the comparator can have made of a dictionary [a]: left alone, or
    its ['end'] overwritten with its ['start']. *)
Definition end_clobbered (a b : TRF.Scored) : Prop :=
  b = a \/ b = TRF.set_end (TRF.m_start (TRF.anno a)) a.

(** The ranking on positions of a list of candidates. *)
Definition idx_le (scores : list TRF.Scored) (i j : nat) : Prop :=
  match scores !! i, scores !! j with
  | Some a, Some b => rank_le a b
  | _, _ => False
  end.

(** The overlap of a motif with the variant, as both annotators compute
    it. *)
Definition overlap_of (entry : Variant) (a : TRF.Motif) : Q :=
  TRF.overlap_percent (start entry) (stop entry) (TRF.m_start a) (TRF.m_end a).

(** The dictionary [del_annotator] builds for a motif. *)
Definition del_scored (entry : Variant) (svlen : Z) (a : TRF.Motif) : TRF.Scored :=
  {| TRF.anno := a; TRF.ovl_pct := overlap_of entry a;
     TRF.diff := (- (overlap_of entry a * inject_Z svlen)
                  / inject_Z (TRF.period a))%Q |}.

(** * Properties *)

(** ** The stats box and the writer *)

Lemma box_get_incr_eq key box :
  box_get (box_incr key box) key = box_get box key + 1.
Proof. unfold box_get at 1, box_incr. simpl. by rewrite lookup_insert_eq. Qed.

Lemma box_get_incr_ne key key' box :
  key <> key' -> box_get (box_incr key box) key' = box_get box key'.
Proof.
  intros Hne. unfold box_get, box_incr. simpl. by rewrite lookup_insert_ne.
Qed.

Lemma box_get_gt_matrix_incr b c key box :
  box_get (gt_matrix_incr b c box) key = box_get box key.
Proof. reflexivity. Qed.

Lemma StatsBox_new_balanced : counts_balanced StatsBox_new.
Proof. split; reflexivity. Qed.

Ltac box_simpl :=
  repeat first
    [ rewrite box_get_incr_eq
    | rewrite box_get_incr_ne by discriminate
    | rewrite box_get_gt_matrix_incr ].

Lemma entry_size_annotate_entry entry match_ :
  entry_size (annotate_entry entry match_) = entry_size entry.
Proof. reflexivity. Qed.

Ltac writer_cases match_ sizemin :=
  unfold write_match, write_match_base, write_match_comp, comp_counted;
  destruct (base match_) as [b|]; destruct (comp match_) as [c|];
  rewrite ?entry_size_annotate_entry;
  destruct (state match_); destruct (gt_match_is_zero match_);
  try destruct (sizemin <=? entry_size c) eqn:?;
  cbn [stats_box with_box tpb_write tpc_write fn_write fp_write
       fp_out present one_if orb].

(** What one call of [write_match] adds to the six counters. *)
Lemma write_match_grew self match_ sizemin :
  let after := write_match self match_ sizemin in
  grew "base cnt" self after = one_if (present (base match_)) /\
  grew "TP-base" self after = one_if (present (base match_) && state match_) /\
  grew "FN" self after = one_if (present (base match_) && negb (state match_)) /\
  grew "comp cnt" self after = one_if (comp_counted match_ sizemin) /\
  grew "TP-comp" self after = one_if (present (comp match_) && state match_) /\
  grew "FP" self after =
    one_if (comp_counted match_ sizemin && negb (state match_)).
Proof.
  unfold grew.
  writer_cases match_ sizemin; box_simpl; cbn; repeat apply conj; lia.
Qed.

Lemma write_match_balanced self match_ sizemin :
  counts_balanced (stats_box self) ->
  counts_balanced (stats_box (write_match self match_ sizemin)).
Proof.
  intros [Hb Hc].
  destruct (write_match_grew self match_ sizemin)
    as (G1 & G2 & G3 & G4 & G5 & G6).
  unfold grew, counts_balanced, comp_counted in *.
  destruct (base match_), (comp match_) as [c|], (state match_);
    try destruct (sizemin <=? entry_size c); cbn in *; split; lia.
Qed.

Lemma run_loop_balanced extend include sizemin matches output :
  counts_balanced (stats_box output) ->
  counts_balanced (stats_box (run_loop extend include sizemin matches output)).
Proof.
  revert output. unfold run_loop.
  induction matches as [|m ms IH]; intros output Hbal; [exact Hbal|].
  cbn [fold_left]. apply IH. unfold run_step.
  apply write_match_balanced, Hbal.
Qed.

(** C1. In every run of bench, after every call of [write_match] (that is,
    after any number [k] of the matches have been written) the stats box
    satisfies TP-base + FN = base cnt and TP-comp + FP = comp cnt.  One call
    adds one to base cnt exactly when the base side is present and then one
    to exactly one of TP-base and FN; it adds one to comp cnt exactly in the
    two branches that add one to TP-comp or to FP. *)
Theorem write_match_keeps_counts_balanced :
  (forall extend include sizemin matches (k : nat),
     counts_balanced
       (stats_box (run_loop extend include sizemin (take k matches)
                     BenchOutput_new))) /\
  (forall self match_ sizemin,
     let after := write_match self match_ sizemin in
     grew "base cnt" self after = one_if (present (base match_)) /\
     grew "TP-base" self after + grew "FN" self after = grew "base cnt" self after /\
     0 <= grew "TP-base" self after /\ 0 <= grew "FN" self after /\
     grew "TP-comp" self after + grew "FP" self after = grew "comp cnt" self after /\
     0 <= grew "TP-comp" self after /\ 0 <= grew "FP" self after /\
     0 <= grew "comp cnt" self after <= 1).
Proof.
  split.
  - intros. apply run_loop_balanced, StatsBox_new_balanced.
  - intros self match_ sizemin after.
    destruct (write_match_grew self match_ sizemin)
      as (G1 & G2 & G3 & G4 & G5 & G6).
    fold after in G1, G2, G3, G4, G5, G6.
    rewrite G1, G2, G3, G4, G5, G6. unfold comp_counted.
    destruct (base match_), (comp match_) as [c|], (state match_);
      try destruct (sizemin <=? entry_size c); cbn; lia.
Qed.

(** C6. When the comp side is present, the state is false and the comp
    variant is smaller than [sizemin], [write_match] leaves FP and comp cnt
    as they were and writes nothing to the fp file. *)
Theorem write_match_skips_small_fp self match_ sizemin c :
  comp match_ = Some c ->
  state match_ = false ->
  entry_size c < sizemin ->
  let after := write_match self match_ sizemin in
  box_get (stats_box after) "FP" = box_get (stats_box self) "FP" /\
  box_get (stats_box after) "comp cnt" = box_get (stats_box self) "comp cnt" /\
  fp_out after = fp_out self.
Proof.
  intros Hc Hs Hsz after. subst after.
  assert (Hlt : (sizemin <=? entry_size c) = false) by (apply Z.leb_gt; lia).
  unfold write_match, write_match_base, write_match_comp.
  rewrite Hc, Hs, entry_size_annotate_entry, Hlt.
  destruct (base match_); cbn; box_simpl; auto.
Qed.

Lemma write_match_skips_small_fp_witness :
  let match_ := unmatched_comp ins_small in
  let after := write_match BenchOutput_new match_ 50 in
  box_get (stats_box after) "FP" = box_get (stats_box BenchOutput_new) "FP" /\
  box_get (stats_box after) "comp cnt" =
    box_get (stats_box BenchOutput_new) "comp cnt" /\
  fp_out after = fp_out BenchOutput_new.
Proof.
  apply (write_match_skips_small_fp BenchOutput_new
           (unmatched_comp ins_small) 50 ins_small);
    [reflexivity | reflexivity | cbn; lia].
Defined.

(** ** [annotate_entry] *)

Lemma info_set_eq key value entry :
  info (info_set key value entry) !! key = Some value.
Proof. apply lookup_insert_eq. Qed.

Lemma info_set_ne key key' value entry :
  key <> key' -> info (info_set key value entry) !! key' = info entry !! key'.
Proof. intros Hne. cbn [info info_set]. by apply lookup_insert_ne. Qed.

Lemma annotate_entry_TruScore entry match_ :
  info (annotate_entry entry match_) !! "TruScore" =
  Some (if score_truthy (score match_)
        then opt_val (fun x => PyInt (py_int x)) (score match_)
        else PyNone).
Proof.
  unfold annotate_entry. cbv zeta.
  rewrite !info_set_ne by discriminate.
  apply info_set_eq.
Qed.

(** C8. [annotate_entry] sets the TruScore INFO field to [None] whenever
    [match.score] is [None] or equals zero: a match whose composite score is
    exactly zero gets no TruScore, not the integer zero. *)
Theorem annotate_entry_TruScore_falsy entry match_ :
  (score match_ = None \/ exists q, score match_ = Some q /\ (q == 0)%Q) ->
  info (annotate_entry entry match_) !! "TruScore" = Some PyNone.
Proof.
  intros H. rewrite annotate_entry_TruScore.
  destruct H as [-> | (q & -> & Hq)]; [reflexivity|].
  cbn [score_truthy]. apply Qeq_bool_iff in Hq. by rewrite Hq.
Qed.

(** A passing match whose composite score is exactly zero. *)
Lemma annotate_entry_TruScore_falsy_witness :
  info (annotate_entry ins_100 zero_score_match) !! "TruScore" = Some PyNone.
Proof.
  apply (annotate_entry_TruScore_falsy ins_100 zero_score_match).
  right. exists (0 # 3)%Q. split; reflexivity.
Defined.

(** ** [parse_args] *)

(** C10. When [-S] is omitted, [parse_args] sets [sizefilt] to [sizemin] if
    [sizemin] is below the default [sizefilt], and to the default
    otherwise; a given [-S] is kept. *)
Theorem parse_args_sizefilt w defaults args :
  (Cli.sizefilt args = None ->
   Cli.sizemin args < Cli.d_sizefilt defaults ->
   Cli.sizefilt (Cli.parse_args w defaults args) = Some (Cli.sizemin args)) /\
  (Cli.sizefilt args = None ->
   Cli.d_sizefilt defaults <= Cli.sizemin args ->
   Cli.sizefilt (Cli.parse_args w defaults args) = Some (Cli.d_sizefilt defaults)) /\
  (forall v, Cli.sizefilt args = Some v ->
   Cli.sizefilt (Cli.parse_args w defaults args) = Some v).
Proof.
  unfold Cli.parse_args; cbn [Cli.sizefilt].
  repeat apply conj.
  - intros -> Hlt. apply Z.ltb_lt in Hlt. by rewrite Hlt.
  - intros -> Hge. apply Z.ltb_ge in Hge. by rewrite Hge.
  - intros v ->. reflexivity.
Qed.

(** [-s 1] alone lowers [sizefilt] to 1. *)
Lemma parse_args_sizefilt_witness :
  Cli.sizefilt (Cli.parse_args sample_world sample_defaults (sample_args 1)) = Some 1.
Proof.
  apply (proj1 (parse_args_sizefilt sample_world sample_defaults (sample_args 1)));
    [reflexivity | cbn; lia].
Defined.

(** ** [TRFAnno.annotate] *)

(** C9. [annotate] sets the TRF flag before it tests the minimum length: the
    flag is true on every entry the call leaves behind, and an entry whose
    size is below [min_length] comes back with TRF set and every other INFO
    key (TRFovl, TRFdiff, TRFperiod, TRFcopies, TRFscore, TRFentropy and
    TRFrepeat among them) as it was. *)
Theorem annotate_sets_TRF_before_length_check self entry min_length :
  info (TRF.annotate self entry min_length).1 !! "TRF" = Some (PyBool true) /\
  (entry_size entry < min_length ->
   TRF.annotate self entry min_length = (info_set "TRF" (PyBool true) entry, Ret tt) /\
   forall key, key <> "TRF" ->
     info (TRF.annotate self entry min_length).1 !! key = info entry !! key).
Proof.
  split.
  - unfold TRF.annotate. cbv zeta.
    destruct (entry_size entry <? min_length); [apply info_set_eq|].
    destruct (match entry_variant_type entry with
              | INS => _ | DEL => _ | _ => _ end) as [[r|]|e|c];
      cbn [fst]; rewrite ?info_set_ne by discriminate; apply info_set_eq.
  - intros Hlt. apply Z.ltb_lt in Hlt.
    unfold TRF.annotate. cbv zeta. rewrite Hlt. split; [reflexivity|].
    intros key Hne. cbn [fst]. by apply info_set_ne.
Qed.

(** ** [Bench.build_matrix] *)

Example matid_formats :
  matid_fp 7 2 = "7._.2" /\ matid_fn 7 0 = "7.0._" /\ matid_pair 7 1 12 = "7.1.12".
Proof. repeat apply conj; reflexivity. Qed.

(** C4. With [B] base and [C] comp variants, [build_matrix] returns: for
    [B = 0] a flat list of [C] results, each with only the comp side set,
    matid "{id}._.{ci}" and a false state; for [C = 0] a flat list of [B]
    results, each with only the base side set and matid "{id}.{bi}._";
    otherwise a [B] by [C] array whose entry [(bi, ci)] is the result built
    for that pair with matid "{id}.{bi}.{ci}". *)
Theorem build_matrix_cases base_variants comp_variants build_match chunk_id :
  let B := length base_variants in
  let C := length comp_variants in
  let built := build_matrix base_variants comp_variants build_match chunk_id in
  (B = 0%nat ->
   exists fps, built = AsList fps /\ length fps = C /\
     forall ci c, comp_variants !! ci = Some c ->
       exists r, fps !! ci = Some r /\ base r = None /\ comp r = Some c /\
                 matid r = Some (str_int chunk_id +:+ "._." +:+ str_idx ci) /\
                 state r = false) /\
  (C = 0%nat ->
   exists fns, built = AsList fns /\ length fns = B /\
     forall bi b, base_variants !! bi = Some b ->
       exists r, fns !! bi = Some r /\ base r = Some b /\ comp r = None /\
                 matid r = Some (str_int chunk_id +:+ "." +:+ str_idx bi +:+ "._") /\
                 state r = false) /\
  (B <> 0%nat -> C <> 0%nat ->
   exists m, built = AsArray m /\ length m = B /\
     (forall row, row ∈ m -> length row = C) /\
     forall bi ci b c,
       base_variants !! bi = Some b -> comp_variants !! ci = Some c ->
       exists row, m !! bi = Some row /\
         row !! ci =
           Some (build_match b c
                   (str_int chunk_id +:+ "." +:+ str_idx bi +:+ "." +:+ str_idx ci))).
Proof.
  intros B C built. subst B C built. unfold build_matrix.
  unfold matid_fp, matid_fn, matid_pair.
  repeat apply conj.
  - intros HB. rewrite HB. cbn [Nat.eqb].
    eexists. split; [reflexivity|]. split; [apply length_imap|].
    intros ci c Hc. eexists. rewrite list_lookup_imap, Hc.
    split; [reflexivity|]. repeat apply conj; reflexivity.
  - intros HC. destruct (length base_variants =? 0)%nat eqn:HB.
    + apply Nat.eqb_eq in HB.
      eexists. split; [reflexivity|]. split; [rewrite length_imap; lia|].
      intros bi b Hb. apply lookup_lt_Some in Hb. lia.
    + rewrite HC. cbn [Nat.eqb].
      eexists. split; [reflexivity|]. split; [apply length_imap|].
      intros bi b Hb. eexists. rewrite list_lookup_imap, Hb.
      split; [reflexivity|]. repeat apply conj; reflexivity.
  - intros HB HC.
    apply Nat.eqb_neq in HB. apply Nat.eqb_neq in HC. rewrite HB, HC.
    eexists. split; [reflexivity|]. split; [apply length_imap|]. split.
    + intros row Hrow. apply elem_of_lookup_imap in Hrow as (bi & b & -> & _).
      apply length_imap.
    + intros bi ci b c Hb Hc.
      exists (imap (fun cid c' =>
                      build_match b c'
                        (str_int chunk_id +:+ "." +:+ str_idx bi +:+ "." +:+ str_idx cid))
                comp_variants).
      split; [by rewrite list_lookup_imap, Hb|].
      by rewrite list_lookup_imap, Hc.
Qed.

(** One base and two comps give a 1 by 2 array; two comps alone, and one
    base alone, give flat lists.  The matids are the strings of the three
    formats. *)
Lemma build_matrix_cases_witness :
  (exists m row,
     build_matrix [ins_100] [ins_100; ins_101] sample_build_match 0 = AsArray m /\
     length m = 1%nat /\ m !! 0%nat = Some row /\ length row = 2%nat /\
     row !! 1%nat = Some (sample_build_match ins_100 ins_101 "0.0.1")) /\
  (exists fps r,
     build_matrix [] [ins_100; ins_101] sample_build_match 7 = AsList fps /\
     length fps = 2%nat /\ fps !! 1%nat = Some r /\
     base r = None /\ comp r = Some ins_101 /\
     matid r = Some "7._.1" /\ state r = false) /\
  (exists fns r,
     build_matrix [ins_100] [] sample_build_match 12 = AsList fns /\
     length fns = 1%nat /\ fns !! 0%nat = Some r /\
     base r = Some ins_100 /\ comp r = None /\
     matid r = Some "12.0._" /\ state r = false).
Proof.
  split; [|split].
  - destruct (build_matrix_cases [ins_100] [ins_100; ins_101] sample_build_match 0)
      as (_ & _ & Harr).
    destruct Harr as (m & Hm & Hlen & Hrows & Hent); [discriminate|discriminate|].
    destruct (Hent 0%nat 1%nat ins_100 ins_101 eq_refl eq_refl) as (row & Hrow & Hr).
    exists m, row. split; [exact Hm|]. split; [exact Hlen|]. split; [exact Hrow|].
    split; [|exact Hr].
    apply Hrows. eapply list_elem_of_lookup_2. exact Hrow.
  - destruct (build_matrix_cases [] [ins_100; ins_101] sample_build_match 7)
      as (Hfp & _).
    destruct Hfp as (fps & Hm & Hlen & Hent); [reflexivity|].
    destruct (Hent 1%nat ins_101 eq_refl) as (r & Hr & Hfields).
    exists fps, r. split; [exact Hm|]. split; [exact Hlen|]. split; [exact Hr|].
    exact Hfields.
  - destruct (build_matrix_cases [ins_100] [] sample_build_match 12)
      as (_ & Hfn & _).
    destruct Hfn as (fns & Hm & Hlen & Hent); [reflexivity|].
    destruct (Hent 0%nat ins_100 eq_refl) as (r & Hr & Hfields).
    exists fns, r. split; [exact Hm|]. split; [exact Hlen|]. split; [exact Hr|].
    exact Hfields.
Defined.

(** ** The checks of [bench_main] *)

Lemma run_checks_spec checks check_fail log :
  run_checks checks check_fail log =
  (Ret (check_fail || existsb fst checks),
   log ++ (snd <$> filter (fun x => Is_true (fst x)) checks)).
Proof.
  revert check_fail log.
  induction checks as [|[cond msg] rest IH]; intros check_fail log.
  - cbn. by rewrite orb_false_r, app_nil_r.
  - cbn [run_checks existsb fst]. rewrite filter_cons. cbn [fst].
    unfold Cli.check, mbind, Cli.Logged_bind, Cli.logging_error, mret,
      Cli.Logged_ret.
    destruct cond; cbn [Is_true].
    + rewrite decide_True by exact I. rewrite IH. cbn [fmap list_fmap snd].
      rewrite <- app_assoc, orb_true_r. reflexivity.
    + rewrite decide_False by exact id. rewrite IH. reflexivity.
Qed.

(** [check_params] runs all eleven checks: it logs the line of every check
    that fails, in order, and returns whether any did. *)
Lemma check_params_reports_all w args log :
  Cli.check_params w args log =
  (Ret (existsb fst (param_checks w args)),
   log ++ (snd <$> filter (fun x => Is_true (fst x)) (param_checks w args))).
Proof.
  transitivity (run_checks (param_checks w args) false log); [reflexivity|].
  apply run_checks_spec.
Qed.

(** A failed parameter check makes [bench_main] exit with code 100. *)
Lemma bench_main_exits_on_bad_params w defaults cmdargs log :
  existsb fst (param_checks w (Cli.parse_args w defaults cmdargs)) = true ->
  (Cli.bench_main w defaults cmdargs log).1 = SysExit 100.
Proof.
  intros Hfail. unfold Cli.bench_main. cbv zeta.
  unfold mbind at 1. unfold Cli.Logged_bind at 1.
  rewrite check_params_reports_all, Hfail. reflexivity.
Qed.

(** C7, where the source departs from it.  The base catalog has no sample
    column and no [--bSample] is given: every parameter check passes,
    [check_sample] logs that no SAMPLE column was found, and then indexes
    the empty sample list.  [bench_main] ends in an IndexError, not in
    [sys.exit(100)]. *)
Theorem bench_main_sites_only_base_raises :
  Cli.bench_main sites_only_world sample_defaults (sample_args 50) [] =
  (Raise IndexError, ["No SAMPLE columns found in vcf (/data/base.vcf.gz)"]).
Proof. vm_compute. reflexivity. Qed.

(** On the sample world, where both headers name a sample, the same
    arguments pass every check. *)
Example bench_main_sample_world_proceeds :
  exists args, Cli.bench_main sample_world sample_defaults (sample_args 50) []
               = (Ret args, []).
Proof. eexists. vm_compute. reflexivity. Qed.

(** ** The deletion annotator *)

(** Every candidate the scoring loop keeps overlaps the variant, carries the
    overlap it was scored with, and has [diff = -(ovl_pct * svlen) / period]. *)
Lemma del_scores_fields var_start var_end svlen motifs scores :
  TRF.del_scores var_start var_end svlen motifs = Ret scores ->
  Forall (fun s =>
            TRF.anno s ∈ motifs /\
            TRF.ovl_pct s =
              TRF.overlap_percent var_start var_end
                (TRF.m_start (TRF.anno s)) (TRF.m_end (TRF.anno s)) /\
            ~ (TRF.ovl_pct s == 0)%Q /\
            TRF.diff s =
              (- (TRF.ovl_pct s * inject_Z svlen)
               / inject_Z (TRF.period (TRF.anno s)))%Q) scores.
Proof.
  revert scores.
  induction motifs as [|a rest IH]; intros scores Hs; cbn [TRF.del_scores] in Hs.
  - injection Hs as <-. constructor.
  - destruct (Qeq_bool _ 0) eqn:Hovl.
    + eapply Forall_impl; [apply IH, Hs|].
      intros s (Hin & H). split; [by right | exact H].
    + destruct (TRF.period a =? 0); [discriminate|].
      destruct (TRF.del_scores var_start var_end svlen rest) as [tl| |];
        try discriminate.
      cbn in Hs. injection Hs as <-. constructor.
      * cbn. repeat apply conj; try reflexivity; [by left|].
        intros Hz. apply Qeq_bool_iff in Hz. congruence.
      * eapply Forall_impl; [by apply IH|].
        intros s (Hin & H). split; [by right | exact H].
Qed.

(** With no overlapping motif the annotator returns [None]. *)
Lemma del_annotator_no_candidate self entry svlen :
  TRF.del_scores (start entry) (stop entry) svlen (TRF.annos (TRF.region self))
    = Ret [] ->
  TRF.del_annotator self entry svlen = Ret None.
Proof. intros H. unfold TRF.del_annotator. rewrite H. reflexivity. Qed.

(** Scenario 6 of the specification, at the annotator: overlap 0.4 and
    [diff = -8] for the single known motif. *)
Example del_annotator_scenario_6 :
  exists r,
    TRF.del_annotator (anno_of [motif_at_100_200]) (deletion 120 160) 40
      = Ret (Some r) /\
    (TRF.ovl_pct r == 4 # 10)%Q /\ (TRF.diff r == - 8 # 1)%Q /\
    TRF.repeat (TRF.anno r) = "AT".
Proof.
  eexists. split; [vm_compute; reflexivity|].
  repeat apply conj; reflexivity.
Qed.

(** C3, where the source departs from it.  Two motifs tie on overlap and on
    score; AT has the larger span ([40] against [20]) and ranks first by
    the stated order.  The comparator's last branch compares the span of
    its first argument with the start coordinate of the second ([130]) and
    stores that start into the second's ['end']: the annotator returns GC,
    with ['end'] overwritten. *)
Theorem del_annotator_tie_returns_smaller_span :
  exists at_sc gc_sc r,
    TRF.del_scores 120 180 60 [motif_at_100_140; motif_gc_130_150]
      = Ret [at_sc; gc_sc] /\
    TRF.repeat (TRF.anno at_sc) = "AT" /\
    TRF.repeat (TRF.anno gc_sc) = "GC" /\
    ranks_above at_sc gc_sc /\
    TRF.del_annotator (anno_of [motif_at_100_140; motif_gc_130_150])
      (deletion 120 180) 60 = Ret (Some r) /\
    TRF.repeat (TRF.anno r) = "GC" /\
    TRF.m_start (TRF.anno r) = 130 /\
    TRF.m_end (TRF.anno r) = 130.
Proof.
  do 3 eexists.
  split; [vm_compute; reflexivity|].
  split; [reflexivity|]. split; [reflexivity|].
  split.
  - right. split; [reflexivity|]. right. split; [reflexivity|].
    vm_compute. reflexivity.
  - split; [vm_compute; reflexivity|]. repeat apply conj; reflexivity.
Qed.

(** ** The order on MatchResults and the sort *)

Section GoodCmp.
Context {A : Type} (cmp : A -> A -> comparison) (G : GoodCmp cmp).

Lemma cmp_eq_r a b c : cmp b c = Eq -> cmp a b = cmp a c.
Proof.
  intros H. rewrite (cmp_sym cmp G b a), (cmp_sym cmp G c a).
  f_equal. by apply (cmp_eq_l cmp G).
Qed.

Lemma cmp_le_trans a b c : cmp a b <> Gt -> cmp b c <> Gt -> cmp a c <> Gt.
Proof.
  intros Hab Hbc.
  destruct (cmp a b) eqn:E1; [| |done].
  - by rewrite (cmp_eq_l cmp G a b c E1).
  - destruct (cmp b c) eqn:E2; [| |done].
    + by rewrite <- (cmp_eq_r a b c E2), E1.
    + by rewrite (cmp_lt_trans cmp G a b c E1 E2).
Qed.

Lemma GoodCmp_flip : GoodCmp (fun a b => cmp b a).
Proof.
  split.
  - intros a b. apply (cmp_sym cmp G).
  - intros a b c H. symmetry. by apply cmp_eq_r.
  - intros a b c H1 H2. by apply (cmp_lt_trans cmp G c b a).
Qed.

Lemma GoodCmp_more : GoodCmp (cmp_more cmp).
Proof.
  split.
  - intros [a|] [b|]; cbn; try reflexivity. apply (cmp_sym cmp G).
  - intros [a|] [b|] [c|]; cbn; try done. apply (cmp_eq_l cmp G).
  - intros [a|] [b|] [c|]; cbn; try done. apply (cmp_lt_trans cmp G).
Qed.

Lemma GoodCmp_on {B} (f : B -> A) : GoodCmp (fun a b => cmp (f a) (f b)).
Proof.
  split.
  - intros a b. apply (cmp_sym cmp G).
  - intros a b c. apply (cmp_eq_l cmp G).
  - intros a b c. apply (cmp_lt_trans cmp G).
Qed.

End GoodCmp.

Lemma GoodCmp_less {A} (cmp : A -> A -> comparison) :
  GoodCmp cmp -> GoodCmp (cmp_less cmp).
Proof.
  intros G. pose proof (GoodCmp_more _ (GoodCmp_flip cmp G)) as [S E T].
  split.
  - intros [a|] [b|]; try reflexivity. apply (S (Some a) (Some b)).
  - intros [a|] [b|] [c|]; cbn; try done. apply (E (Some a) (Some b) (Some c)).
  - intros [a|] [b|] [c|]; cbn; try done. apply (T (Some a) (Some b) (Some c)).
Qed.

Lemma GoodCmp_lex {A} (c1 c2 : A -> A -> comparison) :
  GoodCmp c1 -> GoodCmp c2 -> GoodCmp (fun a b => lex (c1 a b) (c2 a b)).
Proof.
  intros G1 G2. split.
  - intros a b. rewrite (cmp_sym c1 G1 a b), (cmp_sym c2 G2 a b).
    by destruct (c1 a b).
  - intros a b c H.
    destruct (c1 a b) eqn:E1; cbn in H; try discriminate.
    by rewrite (cmp_eq_l c1 G1 a b c E1), (cmp_eq_l c2 G2 a b c H).
  - intros a b c H1 H2.
    destruct (c1 a b) eqn:E1; cbn in H1; try discriminate;
      destruct (c1 b c) eqn:E2; cbn in H2; try discriminate.
    + rewrite (cmp_eq_l c1 G1 a b c E1), E2. cbn.
      by apply (cmp_lt_trans c2 G2 a b c).
    + by rewrite (cmp_eq_l c1 G1 a b c E1), E2.
    + by rewrite <- (cmp_eq_r c1 G1 a b c E2), E1.
    + by rewrite (cmp_lt_trans c1 G1 a b c E1 E2).
Qed.

Lemma GoodCmp_bool : GoodCmp cmp_bool.
Proof.
  split.
  - by intros [] [].
  - by intros [] [] [].
  - by intros [] [] [].
Qed.

Lemma GoodCmp_Z : GoodCmp Z.compare.
Proof.
  split.
  - intros a b. apply Z.compare_antisym.
  - intros a b c H. apply Z.compare_eq in H. by subst.
  - intros a b c. rewrite !Z.compare_lt_iff. lia.
Qed.

Lemma GoodCmp_Q : GoodCmp Qcompare.
Proof.
  split.
  - intros a b. symmetry. apply Qcompare_antisym.
  - intros a b c H. apply Qeq_alt in H. by rewrite H.
  - intros a b c. rewrite <- !Qlt_alt. apply Qlt_trans.
Qed.

Lemma GoodCmp_rank : GoodCmp rank_compare.
Proof.
  unfold rank_compare.
  apply (GoodCmp_lex (fun a b => cmp_bool (state a) (state b))).
  { apply (GoodCmp_on _ GoodCmp_bool). }
  apply (GoodCmp_lex (fun a b => cmp_more Qcompare (score a) (score b))).
  { apply (GoodCmp_on _ (GoodCmp_more _ GoodCmp_Q)). }
  apply (GoodCmp_lex
           (fun a b => cmp_less Z.compare (Z.abs <$> st_dist a) (Z.abs <$> st_dist b))).
  { apply (GoodCmp_on _ (GoodCmp_less _ GoodCmp_Z) (fun m => Z.abs <$> st_dist m)). }
  apply (GoodCmp_on _ (GoodCmp_less _ GoodCmp_Q) (fun m => Qabs <$> sizediff m)).
Qed.

Lemma mr_lt_false a b : mr_lt a b = false <-> rank_compare b a <> Gt.
Proof.
  unfold mr_lt. rewrite (cmp_sym _ GoodCmp_rank a b).
  destruct (rank_compare a b); cbn; split; congruence.
Qed.

Lemma mr_lt_asym a b : mr_lt a b = true -> mr_lt b a = false.
Proof.
  unfold mr_lt. rewrite (cmp_sym _ GoodCmp_rank a b).
  by destruct (rank_compare a b).
Qed.

(** [a >= b] and [b >= c] give [a >= c]. *)
Lemma mr_lt_false_trans a b c :
  mr_lt a b = false -> mr_lt b c = false -> mr_lt a c = false.
Proof.
  rewrite !mr_lt_false. intros Hab Hbc.
  by apply (cmp_le_trans _ GoodCmp_rank c b a).
Qed.

Lemma sort_insert_Permutation x l : sort_insert x l ≡ₚ x :: l.
Proof.
  induction l as [|y l IH]; cbn; [done|].
  destruct (mr_lt x y); [done|]. rewrite IH. apply Permutation_swap.
Qed.

Lemma sort_insert_ascending x l : ascending l -> ascending (sort_insert x l).
Proof.
  unfold ascending. induction l as [|y l IH]; intros Hs; cbn.
  - repeat constructor.
  - apply StronglySorted_cons in Hs as [Hy Hs].
    destruct (mr_lt x y) eqn:E.
    + apply StronglySorted_cons. split; [|by apply StronglySorted_cons].
      apply mr_lt_asym in E. constructor; [exact E|].
      eapply Forall_impl; [exact Hy|]. cbn. intros z Hz.
      by apply (mr_lt_false_trans z y x).
    + apply StronglySorted_cons. split; [|by apply IH].
      rewrite (sort_insert_Permutation x l). by constructor.
Qed.

Lemma np_sort_acc l acc :
  ascending acc ->
  let sorted := fold_left (fun acc x => sort_insert x acc) l acc in
  ascending sorted /\ sorted ≡ₚ acc ++ l.
Proof.
  revert acc. induction l as [|x l IH]; intros acc Hacc; cbn.
  - by rewrite app_nil_r.
  - destruct (IH (sort_insert x acc)) as [Hs Hp];
      [by apply sort_insert_ascending|].
    split; [exact Hs|]. cbn in Hp. rewrite Hp, sort_insert_Permutation.
    cbn. apply Permutation_middle.
Qed.

Lemma ascending_rev l : ascending l -> descending (rev l).
Proof.
  unfold ascending, descending. induction l as [|x l IH]; intros Hs; cbn.
  - constructor.
  - apply StronglySorted_cons in Hs as [Hx Hs].
    apply StronglySorted_app_2; [|by apply IH|repeat constructor].
    intros y z Hy Hz. apply list_elem_of_singleton in Hz as ->.
    apply list_elem_of_In in Hy. apply in_rev in Hy.
    apply list_elem_of_In in Hy. by eapply Forall_forall in Hx.
Qed.

(** The walk visits every entry of the array once, best first. *)
Lemma walk_order_sorted m :
  walk_order m ≡ₚ ravel m /\ descending (walk_order m).
Proof.
  unfold walk_order, np_sort.
  destruct (np_sort_acc (ravel m) []) as [Hs Hp]; [constructor|].
  cbn in Hs, Hp. split; [|by apply ascending_rev].
  etransitivity; [|exact Hp]. symmetry. apply Permutation_rev.
Qed.

(** ** [pick_single_matches] *)

Lemma matrix_over_entries bs cs m r :
  matrix_over bs cs m -> r ∈ ravel m -> entry_of bs cs r.
Proof.
  unfold matrix_over, ravel. intros Hm Hr.
  apply list_elem_of_In, in_concat in Hr as (row & Hrow & Hr).
  apply list_elem_of_In in Hrow, Hr.
  apply list_elem_of_lookup in Hrow as [i Hi].
  destruct (Forall2_lookup_r _ _ _ _ _ Hm Hi) as (b & Hb & Hrow).
  apply list_elem_of_lookup in Hr as [j Hj].
  destruct (Forall2_lookup_r _ _ _ _ _ Hrow Hj) as (c & Hc & Hbase & Hcomp).
  exists b, c. repeat apply conj; try done; apply list_elem_of_lookup; eauto.
Qed.

Lemma matrix_over_shape bs cs m :
  bs <> [] -> matrix_over bs cs m ->
  shape m = (Z.of_nat (length bs), Z.of_nat (length cs)).
Proof.
  unfold matrix_over, shape. intros Hne Hm.
  rewrite <- (Forall2_length _ _ _ Hm).
  destruct Hm as [|b row bs' m' Hrow _]; [done|].
  by rewrite <- (Forall2_length _ _ _ Hrow).
Qed.

Lemma size_keys_le vs : (size (keys vs) <= length vs)%nat.
Proof.
  unfold keys. induction vs as [|v vs IH]; cbn.
  - by rewrite size_empty.
  - rewrite size_union_alt, size_singleton.
    assert (Hle : (size ((list_to_set (text <$> vs) : gset string) ∖ {[text v]})
                   <= size (list_to_set (text <$> vs) : gset string))%nat)
      by (apply subseteq_size; set_solver).
    lia.
Qed.

Lemma text_in_keys v vs : v ∈ vs -> text v ∈ keys vs.
Proof.
  intros Hv. unfold keys. apply elem_of_list_to_set.
  by apply list_elem_of_fmap_2.
Qed.

(** Once as many keys are used as there are variants, every variant of the
    side is used. *)
Lemma used_all_when_zero (vs : list Variant) (used : gset string) (cnt : Z) v :
  used ⊆ keys vs ->
  cnt = Z.of_nat (length vs) - Z.of_nat (size used) ->
  cnt = 0 -> v ∈ vs -> text v ∈ used.
Proof.
  intros Hsub Hcnt Hz Hv.
  assert (used = keys vs) as ->; [|by apply text_in_keys].
  apply set_subseteq_size_eq; [done|].
  pose proof (size_keys_le vs). lia.
Qed.

Lemma size_add_fresh (k : string) (used : gset string) :
  k ∉ used -> Z.of_nat (size ({[k]} ∪ used)) = Z.of_nat (size used) + 1.
Proof.
  intros Hk. rewrite size_union by set_solver. rewrite size_singleton. lia.
Qed.

Lemma single_init_inv bs cs m :
  bs <> [] -> matrix_over bs cs m -> single_inv bs cs (Single.init m).
Proof.
  intros Hne Hm. unfold Single.init. rewrite (matrix_over_shape bs cs m Hne Hm).
  split; cbn; rewrite ?size_empty; try set_solver; lia.
Qed.

Lemma single_body_inv bs cs s r :
  single_inv bs cs s -> entry_of bs cs r -> single_inv bs cs (Single.body s r).
Proof.
  intros [Hb Hc Hbn Hcn] (b & c & Hbin & Hcin & Hbase & Hcomp).
  apply text_in_keys in Hbin, Hcin.
  unfold Single.body. rewrite Hbase, Hcomp. cbn [str_entry].
  destruct (decide (text b ∈ Single.used_base s)) as [Hub|Hub];
    destruct (decide (text c ∈ Single.used_comp s)) as [Huc|Huc];
    rewrite ?(bool_decide_eq_true_2 _ Hub), ?(bool_decide_eq_false_2 _ Hub),
      ?(bool_decide_eq_true_2 _ Huc), ?(bool_decide_eq_false_2 _ Huc);
    destruct (Single.base_cnt s =? 0); destruct (Single.comp_cnt s =? 0);
    cbn [andb negb]; try (by split);
    unfold Single.only_comp, Single.only_base, Single.write_both;
    split; cbn [Single.used_base Single.used_comp Single.base_cnt
                Single.comp_cnt];
    change (comp (set_multi true (set_state false (set_base None r)))) with (comp r);
    change (base (set_multi true (set_state false (set_comp None r)))) with (base r);
    rewrite ?Hbase, ?Hcomp; cbn [str_entry];
    rewrite ?size_add_fresh by done; try lia; try done; set_solver.
Qed.

Lemma single_loop_finished s l : Single.finished s = true -> Single.loop s l = s.
Proof. intros H. destruct l; cbn; [done|]. by rewrite H. Qed.

Lemma single_loop_app s l1 l2 :
  Single.loop s (l1 ++ l2) = Single.loop (Single.loop s l1) l2.
Proof.
  revert s. induction l1 as [|x l1 IH]; intros s; cbn; [done|].
  destruct (Single.finished s) eqn:E; [|apply IH].
  symmetry. by apply single_loop_finished.
Qed.

Lemma single_loop_inv bs cs s l :
  single_inv bs cs s -> Forall (entry_of bs cs) l ->
  single_inv bs cs (Single.loop s l).
Proof.
  intros Hs Hl. revert s Hs.
  induction Hl as [|r l Hr _ IH]; intros s Hs; cbn; [done|].
  destruct (Single.finished s); [done|].
  by apply IH, single_body_inv.
Qed.

Lemma consolation_fields match_ :
  (base (base_only match_) = base match_ /\ comp (base_only match_) = None /\
   state (base_only match_) = false /\ multi (base_only match_) = true /\
   score (base_only match_) = score match_ /\ matid (base_only match_) = matid match_) /\
  (comp (comp_only match_) = comp match_ /\ base (comp_only match_) = None /\
   state (comp_only match_) = false /\ multi (comp_only match_) = true /\
   score (comp_only match_) = score match_ /\ matid (comp_only match_) = matid match_).
Proof. repeat apply conj; reflexivity. Qed.

(** C2. For a non-empty base-by-comp array, [pick_single_matches] walks the
    flattened array best first in the order on MatchResults, filing used
    sides under the text of the variant.  At every result of the walk, with
    [s] the locals before it and [s'] after it: if both sides are unused the
    result is emitted unchanged and both are marked used; if the remaining
    comp count (resp. base count) is zero and the base (resp. comp) is
    unused, a copy with the other side [None], state false and multi true,
    and every other attribute as in the result, is emitted and that side is
    marked used; and once both remaining counts are zero the loop stops
    there. *)
Theorem pick_single_matches_walk bs cs m :
  bs <> [] -> cs <> [] -> matrix_over bs cs m ->
  let walked := walk_order m in
  walked ≡ₚ ravel m /\ descending walked /\
  Single.pick_single_matches m = Single.ret (Single.loop (Single.init m) walked) /\
  forall pre match_ post, walked = pre ++ match_ :: post ->
    let s := Single.loop (Single.init m) pre in
    let s' := Single.loop s [match_] in
    let b_key := str_entry (base match_) in
    let c_key := str_entry (comp match_) in
    (b_key ∉ Single.used_base s -> c_key ∉ Single.used_comp s ->
       Single.ret s' = Single.ret s ++ [match_] /\
       Single.used_base s' = {[b_key]} ∪ Single.used_base s /\
       Single.used_comp s' = {[c_key]} ∪ Single.used_comp s /\
       Single.base_cnt s' = Single.base_cnt s - 1 /\
       Single.comp_cnt s' = Single.comp_cnt s - 1) /\
    (Single.comp_cnt s = 0 -> b_key ∉ Single.used_base s ->
       Single.ret s' = Single.ret s ++
         [{| base := base match_; comp := None;
             state := false; multi := true;
             base_gt := base_gt match_; base_gt_count := base_gt_count match_;
             comp_gt := comp_gt match_; comp_gt_count := comp_gt_count match_;
             seqsim := seqsim match_; sizesim := sizesim match_;
             ovlpct := ovlpct match_; sizediff := sizediff match_;
             st_dist := st_dist match_; ed_dist := ed_dist match_;
             gt_match := gt_match match_; score := score match_;
             matid := matid match_ |}] /\
       Single.used_base s' = {[b_key]} ∪ Single.used_base s /\
       Single.used_comp s' = Single.used_comp s /\
       Single.base_cnt s' = Single.base_cnt s - 1 /\
       Single.comp_cnt s' = Single.comp_cnt s) /\
    (Single.base_cnt s = 0 -> c_key ∉ Single.used_comp s ->
       Single.ret s' = Single.ret s ++
         [{| base := None; comp := comp match_;
             state := false; multi := true;
             base_gt := base_gt match_; base_gt_count := base_gt_count match_;
             comp_gt := comp_gt match_; comp_gt_count := comp_gt_count match_;
             seqsim := seqsim match_; sizesim := sizesim match_;
             ovlpct := ovlpct match_; sizediff := sizediff match_;
             st_dist := st_dist match_; ed_dist := ed_dist match_;
             gt_match := gt_match match_; score := score match_;
             matid := matid match_ |}] /\
       Single.used_comp s' = {[c_key]} ∪ Single.used_comp s /\
       Single.used_base s' = Single.used_base s /\
       Single.comp_cnt s' = Single.comp_cnt s - 1 /\
       Single.base_cnt s' = Single.base_cnt s) /\
    (Single.base_cnt s = 0 -> Single.comp_cnt s = 0 ->
       Single.loop s (match_ :: post) = s /\
       Single.pick_single_matches m = Single.ret s).
Proof.
  intros Hbs Hcs Hm walked.
  destruct (walk_order_sorted m) as [Hperm Hdesc]. fold walked in Hperm, Hdesc.
  split; [exact Hperm|]. split; [exact Hdesc|]. split; [reflexivity|].
  intros pre match_ post Hsplit s s' b_key c_key.
  assert (Hall : Forall (entry_of bs cs) walked).
  { apply Forall_forall. intros r Hr. apply (matrix_over_entries bs cs m r Hm).
    by rewrite <- Hperm. }
  rewrite Hsplit in Hall. apply Forall_app in Hall as [Hpre Hrest].
  apply Forall_cons in Hrest as [(b & c & Hb & Hc & Hbase & Hcomp) _].
  assert (Hinv : single_inv bs cs s).
  { apply single_loop_inv; [by apply single_init_inv | exact Hpre]. }
  destruct Hinv as [Hsb Hsc Hnb Hnc].
  assert (Hbfull : Single.base_cnt s = 0 -> b_key ∈ Single.used_base s).
  { intros Hz. subst b_key. rewrite Hbase.
    by apply (used_all_when_zero bs _ _ b Hsb Hnb Hz). }
  assert (Hcfull : Single.comp_cnt s = 0 -> c_key ∈ Single.used_comp s).
  { intros Hz. subst c_key. rewrite Hcomp.
    by apply (used_all_when_zero cs _ _ c Hsc Hnc Hz). }
  subst s'. cbn [Single.loop]. unfold Single.finished, Single.body.
  fold b_key c_key.
  repeat apply conj.
  - intros Hub Huc.
    assert (Single.base_cnt s <> 0) as Hb0 by (intros Hz; by apply Hub, Hbfull).
    assert (Single.comp_cnt s <> 0) as Hc0 by (intros Hz; by apply Huc, Hcfull).
    apply Z.eqb_neq in Hb0, Hc0. rewrite Hb0, Hc0.
    rewrite (bool_decide_eq_false_2 _ Hub), (bool_decide_eq_false_2 _ Huc).
    cbn. done.
  - intros Hz Hub.
    assert (Single.base_cnt s <> 0) as Hb0 by (intros Hz'; by apply Hub, Hbfull).
    apply Z.eqb_neq in Hb0. rewrite Hb0, Hz.
    rewrite (bool_decide_eq_false_2 _ Hub). cbn. done.
  - intros Hz Huc.
    assert (Single.comp_cnt s <> 0) as Hc0 by (intros Hz'; by apply Huc, Hcfull).
    apply Z.eqb_neq in Hc0. rewrite Hc0, Hz.
    rewrite (bool_decide_eq_false_2 _ Huc). cbn. done.
  - intros Hzb Hzc. split; [by rewrite Hzb, Hzc|].
    unfold Single.pick_single_matches. fold walked.
    rewrite Hsplit, single_loop_app. fold s.
    rewrite single_loop_finished; [done|].
    unfold Single.finished. by rewrite Hzb, Hzc.
Qed.

(** Scenario 3 of the specification without [--multimatch]: the base pairs
    with the closer comp, the other comp is emitted alone. *)
Example pick_single_matches_one_by_two :
  Single.pick_single_matches (one_by_two 1 1) =
  [scored_pair ins_100 ins_100 true 1 1 "0.0.0";
   comp_only (scored_pair ins_100 ins_101 true 1 1 "0.0.1")].
Proof. vm_compute. reflexivity. Qed.

Lemma pick_single_matches_walk_witness :
  let r0 := scored_pair ins_100 ins_100 true 1 1 "0.0.0" in
  let r1 := scored_pair ins_100 ins_101 true 1 1 "0.0.1" in
  let s := Single.loop (Single.init (one_by_two 1 1)) [r0] in
  walk_order (one_by_two 1 1) = [r0; r1] /\
  Single.base_cnt s = 0 /\ Single.comp_cnt s = 1 /\
  Single.ret (Single.loop s [r1]) =
    Single.ret s ++
      [{| base := None; comp := Some ins_101;
          state := false; multi := true;
          base_gt := None; base_gt_count := 1;
          comp_gt := None; comp_gt_count := 1;
          seqsim := Some 1%Q; sizesim := Some 1%Q;
          ovlpct := Some 1%Q; sizediff := Some 0%Q;
          st_dist := Some (-1); ed_dist := Some (-1);
          gt_match := Some 0; score := Some 300%Q;
          matid := Some "0.0.1" |}].
Proof.
  intros r0 r1 s.
  assert (H1 : [ins_100] <> []) by discriminate.
  assert (H2 : [ins_100; ins_101] <> []) by discriminate.
  assert (H3 : matrix_over [ins_100] [ins_100; ins_101] (one_by_two 1 1))
    by (repeat constructor).
  assert (Hw : walk_order (one_by_two 1 1) = [r0] ++ r1 :: [])
    by (vm_compute; reflexivity).
  destruct (pick_single_matches_walk [ins_100] [ins_100; ins_101]
              (one_by_two 1 1) H1 H2 H3) as (_ & _ & _ & Hstep).
  pose proof (Hstep [r0] r1 [] Hw) as Hs. cbv zeta in Hs.
  destruct Hs as (_ & _ & Hcomp & _).
  assert (Hb : Single.base_cnt s = 0) by (vm_compute; reflexivity).
  assert (Hc : str_entry (comp r1) ∉ Single.used_comp s).
  { apply (bool_decide_eq_false_1 (str_entry (comp r1) ∈ Single.used_comp s)).
    vm_compute. reflexivity. }
  destruct (Hcomp Hb Hc) as (Hret & _).
  split; [exact Hw|]. split; [exact Hb|]. split; [vm_compute; reflexivity|].
  exact Hret.
Defined.

(** ** [pick_gtcomp_matches] *)

Lemma count_insert_eq (cnt : gmap string Z) k v :
  GtComp.count (<[k := v]> cnt) k = v.
Proof. unfold GtComp.count. by rewrite lookup_insert_eq. Qed.

Lemma count_insert_ne (cnt : gmap string Z) k k' v :
  k <> k' -> GtComp.count (<[k := v]> cnt) k' = GtComp.count cnt k'.
Proof. intros H. unfold GtComp.count. by rewrite lookup_insert_ne. Qed.

(** The branch an iteration takes. *)
Lemma gt_body_cases s r :
  let ub := GtComp.count (GtComp.used_base s) (str_entry (base r)) in
  let uc := GtComp.count (GtComp.used_comp s) (str_entry (comp r)) in
  (GtComp.base_cnt s = 0 /\ uc < comp_gt_count r /\
   GtComp.body s r = GtComp.only_comp s r) \/
  (GtComp.comp_cnt s = 0 /\ ub < base_gt_count r /\
   ~ (GtComp.base_cnt s = 0 /\ uc < comp_gt_count r) /\
   GtComp.body s r = GtComp.only_base s r) \/
  (GtComp.base_cnt s <> 0 /\ GtComp.comp_cnt s <> 0 /\
   ub < base_gt_count r /\ uc < comp_gt_count r /\
   GtComp.body s r = GtComp.write_both s r) \/
  ((base_gt_count r <= ub \/ comp_gt_count r <= uc) /\
   ~ (GtComp.base_cnt s = 0 /\ uc < comp_gt_count r) /\
   ~ (GtComp.comp_cnt s = 0 /\ ub < base_gt_count r) /\
   GtComp.body s r = s).
Proof.
  intros ub uc. unfold GtComp.body. fold ub uc.
  destruct (Z.eqb_spec (GtComp.base_cnt s) 0) as [Hb|Hb];
    destruct (Z.eqb_spec (GtComp.comp_cnt s) 0) as [Hc|Hc];
    destruct (Z.leb_spec (base_gt_count r) ub) as [Hub|Hub];
    destruct (Z.leb_spec (comp_gt_count r) uc) as [Huc|Huc];
    cbn [andb negb]; intuition lia.
Qed.

Lemma paired_copy_sides s r :
  base (paired_copy s r) =
    (if GtComp.count (GtComp.used_base s) (str_entry (base r)) =? 0
     then base r else None) /\
  comp (paired_copy s r) =
    (if GtComp.count (GtComp.used_comp s) (str_entry (comp r)) =? 0
     then comp r else None) /\
  state (paired_copy s r) = state r /\ multi (paired_copy s r) = multi r /\
  score (paired_copy s r) = score r /\ matid (paired_copy s r) = matid r.
Proof.
  unfold paired_copy. cbv zeta.
  destruct (GtComp.count (GtComp.used_base s) (str_entry (base r)) =? 0);
    destruct (GtComp.count (GtComp.used_comp s) (str_entry (comp r)) =? 0);
    repeat apply conj; reflexivity.
Qed.

(** What each branch appends to [ret]. *)
Lemma gt_only_comp_ret s r :
  GtComp.ret (GtComp.only_comp s r) =
  GtComp.ret s ++
    (if GtComp.count (GtComp.used_comp s) (str_entry (comp r)) =? 0
     then [comp_only r] else []).
Proof.
  unfold GtComp.only_comp. cbn [GtComp.ret].
  destruct (_ =? 0); [reflexivity|]. by rewrite app_nil_r.
Qed.

Lemma gt_only_base_ret s r :
  GtComp.ret (GtComp.only_base s r) =
  GtComp.ret s ++
    (if GtComp.count (GtComp.used_base s) (str_entry (base r)) =? 0
     then [base_only r] else []).
Proof.
  unfold GtComp.only_base. cbn [GtComp.ret].
  destruct (_ =? 0); [reflexivity|]. by rewrite app_nil_r.
Qed.

Lemma gt_write_both_ret s r :
  GtComp.ret (GtComp.write_both s r) =
  GtComp.ret s ++
    (match base (paired_copy s r), comp (paired_copy s r) with
     | None, None => []
     | _, _ => [paired_copy s r]
     end).
Proof.
  unfold GtComp.write_both. cbv zeta. cbn [GtComp.ret]. fold (paired_copy s r).
  destruct (base (paired_copy s r)), (comp (paired_copy s r));
    rewrite ?app_nil_r; reflexivity.
Qed.

(** Every iteration only appends to [ret]. *)
Lemma gt_body_ret s r :
  exists es, GtComp.ret (GtComp.body s r) = GtComp.ret s ++ es /\
    Forall (fun e => e = comp_only r \/ e = base_only r \/
                     (e = paired_copy s r /\ has_side e)) es.
Proof.
  destruct (gt_body_cases s r)
    as [(_ & _ & ->)|[(_ & _ & _ & ->)|[(_ & _ & _ & _ & ->)|(_ & _ & _ & ->)]]].
  - rewrite gt_only_comp_ret. eexists. split; [reflexivity|].
    destruct (_ =? 0); [|constructor].
    constructor; [|constructor]. by left.
  - rewrite gt_only_base_ret. eexists. split; [reflexivity|].
    destruct (_ =? 0); [|constructor].
    constructor; [|constructor]. by right; left.
  - rewrite gt_write_both_ret. eexists. split; [reflexivity|].
    unfold has_side.
    destruct (base (paired_copy s r)) eqn:Eb, (comp (paired_copy s r)) eqn:Ec;
      [| | |constructor];
      (constructor; [|constructor]); right; right; (split; [reflexivity|]);
      rewrite ?Eb, ?Ec; auto.
  - exists []. by rewrite app_nil_r.
Qed.

Lemma gt_loop_ret s l :
  exists es, GtComp.ret (GtComp.loop s l) = GtComp.ret s ++ es.
Proof.
  revert s. induction l as [|r l IH]; intros s; cbn.
  - exists []. by rewrite app_nil_r.
  - destruct (GtComp.finished s); [exists []; by rewrite app_nil_r|].
    destruct (IH (GtComp.body s r)) as [es ->].
    destruct (gt_body_ret s r) as (es' & -> & _).
    exists (es' ++ es). by rewrite app_assoc.
Qed.

Lemma gt_body_has_side s r :
  (exists b c, base r = Some b /\ comp r = Some c) ->
  Forall has_side (GtComp.ret s) -> Forall has_side (GtComp.ret (GtComp.body s r)).
Proof.
  intros (b & c & Hb & Hc) Hs.
  destruct (gt_body_ret s r) as (es & -> & Hes).
  apply Forall_app. split; [exact Hs|].
  eapply Forall_impl; [exact Hes|]. cbn.
  intros e [->|[->|[_ He]]]; [| |exact He].
  - right. change (comp (comp_only r)) with (comp r). by rewrite Hc.
  - left. change (base (base_only r)) with (base r). by rewrite Hb.
Qed.

Lemma gt_loop_has_side s l :
  Forall paired_entry l ->
  Forall has_side (GtComp.ret s) -> Forall has_side (GtComp.ret (GtComp.loop s l)).
Proof.
  intros Hl. revert s. induction Hl as [|r l [Hr _] _ IH]; intros s Hs; cbn.
  - exact Hs.
  - destruct (GtComp.finished s); [exact Hs|].
    by apply IH, gt_body_has_side.
Qed.

Lemma gt_loop_finished s l : GtComp.finished s = true -> GtComp.loop s l = s.
Proof. intros H. destruct l; cbn; [done|]. by rewrite H. Qed.

Lemma gt_loop_app s l1 l2 :
  GtComp.loop s (l1 ++ l2) = GtComp.loop (GtComp.loop s l1) l2.
Proof.
  revert s. induction l1 as [|x l1 IH]; intros s; cbn; [done|].
  destruct (GtComp.finished s) eqn:E; [|apply IH].
  symmetry. by apply gt_loop_finished.
Qed.

(** *** The sentinel *)

Lemma absent_side_None side es key :
  Forall (fun e => side e = None) es -> absent side es key.
Proof.
  intros H. eapply Forall_impl; [exact H|]. cbn. intros e He v Hv. congruence.
Qed.

Lemma Forall_emitted (P : MatchResult -> Prop) e :
  P e ->
  Forall P (match base e, comp e with
            | None, None => []
            | _, _ => [e]
            end).
Proof.
  intros H. destruct (base e), (comp e);
    try (constructor; [exact H|]); constructor.
Qed.

(** A comp key whose counter holds the sentinel keeps it through an
    iteration, and the iteration emits nothing that shows it. *)
Lemma gt_body_sentinel_comp k s r :
  GtComp.count (GtComp.used_comp s) k = 9 -> comp_gt_count r <= 9 ->
  GtComp.count (GtComp.used_comp (GtComp.body s r)) k = 9 /\
  exists es, GtComp.ret (GtComp.body s r) = GtComp.ret s ++ es /\ absent comp es k.
Proof.
  intros Hk Hr.
  assert (Hne : GtComp.count (GtComp.used_comp s) (str_entry (comp r))
                < comp_gt_count r -> str_entry (comp r) <> k).
  { intros Hlt E. rewrite E in Hlt. lia. }
  assert (Hshow : str_entry (comp r) <> k ->
                  forall v, comp r = Some v -> text v <> k).
  { intros Hkey v Hv. by rewrite Hv in Hkey. }
  destruct (gt_body_cases s r)
    as [(_ & Hu & ->)|[(_ & _ & _ & ->)|[(_ & _ & _ & Hu & ->)|(_ & _ & _ & ->)]]].
  - split.
    + unfold GtComp.only_comp. cbn [GtComp.used_comp].
      rewrite count_insert_ne by auto. exact Hk.
    + rewrite gt_only_comp_ret. eexists. split; [reflexivity|].
      destruct (_ =? 0); [|constructor].
      constructor; [|constructor]. apply Hshow. auto.
  - split; [exact Hk|].
    rewrite gt_only_base_ret. eexists. split; [reflexivity|].
    apply absent_side_None. destruct (_ =? 0); repeat constructor.
  - split.
    + unfold GtComp.write_both. cbv zeta. cbn [GtComp.used_comp].
      rewrite count_insert_ne by auto. exact Hk.
    + rewrite gt_write_both_ret. eexists. split; [reflexivity|].
      destruct (paired_copy_sides s r) as (_ & Hc & _).
      assert (Hp : forall v, comp (paired_copy s r) = Some v -> text v <> k).
      { intros v Hv. rewrite Hc in Hv.
        destruct (_ =? 0); [|discriminate]. apply (Hshow (Hne Hu) v Hv). }
      apply Forall_emitted, Hp.
  - split; [exact Hk|]. exists []. split; [by rewrite app_nil_r|constructor].
Qed.

Lemma gt_body_sentinel_base k s r :
  GtComp.count (GtComp.used_base s) k = 9 -> base_gt_count r <= 9 ->
  GtComp.count (GtComp.used_base (GtComp.body s r)) k = 9 /\
  exists es, GtComp.ret (GtComp.body s r) = GtComp.ret s ++ es /\ absent base es k.
Proof.
  intros Hk Hr.
  assert (Hne : GtComp.count (GtComp.used_base s) (str_entry (base r))
                < base_gt_count r -> str_entry (base r) <> k).
  { intros Hlt E. rewrite E in Hlt. lia. }
  assert (Hshow : str_entry (base r) <> k ->
                  forall v, base r = Some v -> text v <> k).
  { intros Hkey v Hv. by rewrite Hv in Hkey. }
  destruct (gt_body_cases s r)
    as [(_ & _ & ->)|[(_ & Hu & _ & ->)|[(_ & _ & Hu & _ & ->)|(_ & _ & _ & ->)]]].
  - split; [exact Hk|].
    rewrite gt_only_comp_ret. eexists. split; [reflexivity|].
    apply absent_side_None. destruct (_ =? 0); repeat constructor.
  - split.
    + unfold GtComp.only_base. cbn [GtComp.used_base].
      rewrite count_insert_ne by auto. exact Hk.
    + rewrite gt_only_base_ret. eexists. split; [reflexivity|].
      destruct (_ =? 0); [|constructor].
      constructor; [|constructor]. apply Hshow. auto.
  - split.
    + unfold GtComp.write_both. cbv zeta. cbn [GtComp.used_base].
      rewrite count_insert_ne by auto. exact Hk.
    + rewrite gt_write_both_ret. eexists. split; [reflexivity|].
      destruct (paired_copy_sides s r) as (Hb & _).
      assert (Hp : forall v, base (paired_copy s r) = Some v -> text v <> k).
      { intros v Hv. rewrite Hb in Hv.
        destruct (_ =? 0); [|discriminate]. apply (Hshow (Hne Hu) v Hv). }
      apply Forall_emitted, Hp.
  - split; [exact Hk|]. exists []. split; [by rewrite app_nil_r|constructor].
Qed.

Lemma gt_loop_sentinel_comp k s l :
  GtComp.count (GtComp.used_comp s) k = 9 ->
  Forall (fun r => comp_gt_count r <= 9) l ->
  exists es, GtComp.ret (GtComp.loop s l) = GtComp.ret s ++ es /\ absent comp es k.
Proof.
  intros Hk Hl. revert s Hk.
  induction Hl as [|r l Hr _ IH]; intros s Hk; cbn.
  - exists []. split; [by rewrite app_nil_r|constructor].
  - destruct (GtComp.finished s).
    { exists []. split; [by rewrite app_nil_r|constructor]. }
    destruct (gt_body_sentinel_comp k s r Hk Hr) as (Hk' & es1 & E1 & A1).
    destruct (IH _ Hk') as (es2 & E2 & A2).
    exists (es1 ++ es2). split; [by rewrite E2, E1, app_assoc|].
    by apply Forall_app.
Qed.

Lemma gt_loop_sentinel_base k s l :
  GtComp.count (GtComp.used_base s) k = 9 ->
  Forall (fun r => base_gt_count r <= 9) l ->
  exists es, GtComp.ret (GtComp.loop s l) = GtComp.ret s ++ es /\ absent base es k.
Proof.
  intros Hk Hl. revert s Hk.
  induction Hl as [|r l Hr _ IH]; intros s Hk; cbn.
  - exists []. split; [by rewrite app_nil_r|constructor].
  - destruct (GtComp.finished s).
    { exists []. split; [by rewrite app_nil_r|constructor]. }
    destruct (gt_body_sentinel_base k s r Hk Hr) as (Hk' & es1 & E1 & A1).
    destruct (IH _ Hk') as (es2 & E2 & A2).
    exists (es1 ++ es2). split; [by rewrite E2, E1, app_assoc|].
    by apply Forall_app.
Qed.

(** *** Counters and emitted sides *)

Lemma contributed_app side out es k :
  contributed side (out ++ es) k <-> contributed side out k \/ contributed side es k.
Proof.
  unfold contributed. split.
  - intros (r & v & Hr & Hs & Ht). apply elem_of_app in Hr as [Hr|Hr];
      [left|right]; eauto.
  - intros [(r & v & Hr & Hs & Ht)|(r & v & Hr & Hs & Ht)];
      exists r, v; (split; [apply elem_of_app; auto|auto]).
Qed.

Lemma side_inv_empty side : side_inv side ∅ [].
Proof.
  split.
  - intros k. unfold GtComp.count. by rewrite lookup_empty.
  - intros k. unfold GtComp.count. rewrite lookup_empty. cbn. split; [done|].
    intros (r & v & Hr & _). by apply elem_of_nil in Hr.
Qed.

(** Appending records that do not show the side leaves its invariant. *)
Lemma side_inv_keep side cnt out es :
  side_inv side cnt out ->
  Forall (fun e => side e = None) es ->
  side_inv side cnt (out ++ es).
Proof.
  intros [Hpos Hiff] Hes. split; [exact Hpos|].
  intros k. rewrite Hiff, contributed_app. split; [auto|].
  intros [H|(r & v & Hr & Hs & _)]; [exact H|].
  eapply Forall_forall in Hes; [|exact Hr]. cbn in Hes. congruence.
Qed.

(** Raising the counter of [key] to a positive value, while the appended
    records show only [key] on that side, and do show it if the counter was
    zero. *)
Lemma side_inv_bump side cnt out es key v :
  side_inv side cnt out ->
  0 < v ->
  Forall (fun e => forall x, side e = Some x -> text x = key) es ->
  (GtComp.count cnt key = 0 -> contributed side es key) ->
  side_inv side (<[key := v]> cnt) (out ++ es).
Proof.
  intros [Hpos Hiff] Hv Hes Hfirst. split.
  - intros k. destruct (decide (key = k)) as [->|Hne].
    + rewrite count_insert_eq. lia.
    + rewrite count_insert_ne by done. apply Hpos.
  - intros k. rewrite contributed_app.
    destruct (decide (key = k)) as [<-|Hne].
    + rewrite count_insert_eq. split; [|lia].
      intros _. destruct (decide (GtComp.count cnt key = 0)) as [Hz|Hnz].
      * right. by apply Hfirst.
      * left. by apply Hiff.
    + rewrite count_insert_ne by done. rewrite Hiff. split; [auto|].
      intros [H|(r & x & Hr & Hs & Ht)]; [exact H|].
      eapply Forall_forall in Hes; [|exact Hr]. cbn in Hes.
      specialize (Hes x Hs). congruence.
Qed.

Lemma gt_body_inv s r :
  gt_inv s -> paired_entry r -> gt_inv (GtComp.body s r).
Proof.
  intros [Hbase Hcomp] ((b & c & Hb & Hc) & Hbg & Hcg).
  pose proof (proj1 Hbase (str_entry (base r))) as Hub0.
  pose proof (proj1 Hcomp (str_entry (comp r))) as Huc0.
  destruct (gt_body_cases s r)
    as [(_ & Hu & ->)|[(_ & Hu & _ & ->)|[(_ & _ & Hu1 & Hu2 & ->)|(_ & _ & _ & ->)]]].
  - (* only the comp *)
    split; rewrite gt_only_comp_ret.
    + apply side_inv_keep; [exact Hbase|].
      destruct (_ =? 0); repeat constructor.
    + unfold GtComp.only_comp. cbn [GtComp.used_comp].
      apply side_inv_bump; [exact Hcomp|lia| |].
      * destruct (_ =? 0); [|constructor]. constructor; [|constructor].
        change (comp (comp_only r)) with (comp r). rewrite Hc. cbn.
        by intros x [= <-].
      * intros Hz. rewrite Hz. cbn. exists (comp_only r), c.
        repeat apply conj; [apply list_elem_of_singleton; reflexivity| |].
        -- change (comp (comp_only r)) with (comp r). exact Hc.
        -- by rewrite Hc.
  - (* only the base *)
    split; rewrite gt_only_base_ret.
    + unfold GtComp.only_base. cbn [GtComp.used_base].
      apply side_inv_bump; [exact Hbase|lia| |].
      * destruct (_ =? 0); [|constructor]. constructor; [|constructor].
        change (base (base_only r)) with (base r). rewrite Hb. cbn.
        by intros x [= <-].
      * intros Hz. rewrite Hz. cbn. exists (base_only r), b.
        repeat apply conj; [apply list_elem_of_singleton; reflexivity| |].
        -- change (base (base_only r)) with (base r). exact Hb.
        -- by rewrite Hb.
    + apply side_inv_keep; [exact Hcomp|].
      destruct (_ =? 0); repeat constructor.
  - (* both *)
    destruct (paired_copy_sides s r) as (Pb & Pc & _).
    split; rewrite gt_write_both_ret.
    + unfold GtComp.write_both. cbv zeta. cbn [GtComp.used_base].
      apply side_inv_bump; [exact Hbase|lia| |].
      * apply Forall_emitted. intros x Hx. rewrite Pb in Hx.
        destruct (GtComp.count (GtComp.used_base s) (str_entry (base r)) =? 0);
          [|discriminate].
        rewrite Hb in Hx |- *.
        by injection Hx as <-.
      * intros Hz. rewrite Hz in Pb. cbn in Pb. rewrite Pb.
        rewrite Hb. exists (paired_copy s r), b.
        repeat apply conj; [|by rewrite Pb|reflexivity].
        destruct (comp (paired_copy s r));
          apply list_elem_of_singleton; reflexivity.
    + unfold GtComp.write_both. cbv zeta. cbn [GtComp.used_comp].
      apply side_inv_bump; [exact Hcomp|lia| |].
      * apply Forall_emitted. intros x Hx. rewrite Pc in Hx.
        destruct (GtComp.count (GtComp.used_comp s) (str_entry (comp r)) =? 0);
          [|discriminate].
        rewrite Hc in Hx |- *.
        by injection Hx as <-.
      * intros Hz. rewrite Hz in Pc. cbn in Pc. rewrite Pc.
        rewrite Hc. exists (paired_copy s r), c.
        repeat apply conj; [|by rewrite Pc|reflexivity].
        destruct (base (paired_copy s r));
          apply list_elem_of_singleton; reflexivity.
  - by split.
Qed.

Lemma gt_init_inv m : gt_inv (GtComp.init m).
Proof.
  unfold GtComp.init. destruct (shape m). split; apply side_inv_empty.
Qed.

Lemma gt_loop_inv s l :
  gt_inv s -> Forall paired_entry l -> gt_inv (GtComp.loop s l).
Proof.
  intros Hs Hl. revert s Hs.
  induction Hl as [|r l Hr _ IH]; intros s Hs; cbn; [done|].
  destruct (GtComp.finished s); [done|].
  by apply IH, gt_body_inv.
Qed.

(** C5. In [pick_gtcomp_matches], with [s] the locals when the walk reaches
    a result and [s'] the locals after it:
    - a consolation (the opposite side's remaining count is zero and this
      side is not full) sets the side's counter to the sentinel 9, is
      emitted when it is the side's first contribution, and no record
      emitted later in the walk shows that side again;
    - in a paired emission a side is dropped from the emitted copy exactly
      when it already shows in an earlier emitted record, while its counter
      still advances by the allele count of the counterpart;
    - no record of the output has both sides dropped. *)
Theorem pick_gtcomp_matches_sides m :
  Forall paired_entry (ravel m) ->
  let walked := walk_order m in
  Forall has_side (GtComp.pick_gtcomp_matches m) /\
  forall pre match_ post, walked = pre ++ match_ :: post ->
    let s := GtComp.loop (GtComp.init m) pre in
    let s' := GtComp.body s match_ in
    let b_key := str_entry (base match_) in
    let c_key := str_entry (comp match_) in
    let ub := GtComp.count (GtComp.used_base s) b_key in
    let uc := GtComp.count (GtComp.used_comp s) c_key in
    GtComp.finished s = false ->
    GtComp.pick_gtcomp_matches m = GtComp.ret (GtComp.loop s' post) /\
    (GtComp.base_cnt s = 0 -> uc < comp_gt_count match_ ->
       GtComp.count (GtComp.used_comp s') c_key = 9 /\
       (uc = 0 -> GtComp.ret s' = GtComp.ret s ++ [comp_only match_]) /\
       (uc <> 0 -> GtComp.ret s' = GtComp.ret s) /\
       exists later,
         GtComp.ret (GtComp.loop s' post) = GtComp.ret s' ++ later /\
         absent comp later c_key) /\
    (GtComp.comp_cnt s = 0 -> ub < base_gt_count match_ ->
       GtComp.count (GtComp.used_base s') b_key = 9 /\
       (ub = 0 -> GtComp.ret s' = GtComp.ret s ++ [base_only match_]) /\
       (ub <> 0 -> GtComp.ret s' = GtComp.ret s) /\
       exists later,
         GtComp.ret (GtComp.loop s' post) = GtComp.ret s' ++ later /\
         absent base later b_key) /\
    (GtComp.base_cnt s <> 0 -> GtComp.comp_cnt s <> 0 ->
     ub < base_gt_count match_ -> uc < comp_gt_count match_ ->
       let e := paired_copy s match_ in
       (base e = None <-> contributed base (GtComp.ret s) b_key) /\
       (base e = None \/ base e = base match_) /\
       (comp e = None <-> contributed comp (GtComp.ret s) c_key) /\
       (comp e = None \/ comp e = comp match_) /\
       GtComp.count (GtComp.used_base s') b_key = ub + comp_gt_count match_ /\
       GtComp.count (GtComp.used_comp s') c_key = uc + base_gt_count match_ /\
       (has_side e -> GtComp.ret s' = GtComp.ret s ++ [e]) /\
       (~ has_side e -> GtComp.ret s' = GtComp.ret s)).
Proof.
  intros Hm walked.
  assert (Hall : Forall paired_entry walked).
  { destruct (walk_order_sorted m) as [Hperm _]. fold walked in Hperm.
    apply Forall_forall. intros r Hr. eapply Forall_forall in Hm; [exact Hm|].
    by rewrite <- Hperm. }
  split.
  { unfold GtComp.pick_gtcomp_matches. fold walked.
    apply gt_loop_has_side; [exact Hall|].
    unfold GtComp.init. destruct (shape m). constructor. }
  intros pre match_ post Hsplit s s' b_key c_key ub uc Hrun.
  rewrite Hsplit in Hall. apply Forall_app in Hall as [Hpre Hrest].
  apply Forall_cons in Hrest as [Hentry Hpost].
  assert (Hinv : gt_inv s) by (apply gt_loop_inv; [apply gt_init_inv|exact Hpre]).
  destruct Hentry as ((b & c & Hb & Hc) & Hbg & Hcg).
  assert (Hpost9 : Forall (fun r => base_gt_count r <= 9 /\ comp_gt_count r <= 9) post).
  { eapply Forall_impl; [exact Hpost|]. cbn. intros r (_ & H1 & H2). lia. }
  unfold GtComp.finished in Hrun. apply andb_false_iff in Hrun.
  rewrite !Z.eqb_neq in Hrun.
  split.
  { unfold GtComp.pick_gtcomp_matches. fold walked.
    rewrite Hsplit, gt_loop_app. fold s. cbn [GtComp.loop].
    unfold GtComp.finished.
    destruct Hrun as [H|H]; apply Z.eqb_neq in H; rewrite H;
      by rewrite ?andb_false_r. }
  destruct (gt_body_cases s match_) as [Hcase|[Hcase|[Hcase|Hcase]]];
    fold b_key c_key ub uc s' in Hcase.
  - (* only the comp *)
    destruct Hcase as (Hz & Hu & Hs').
    repeat apply conj; try (intros; lia).
    intros _ _. rewrite Hs'.
    assert (H9 : GtComp.count (GtComp.used_comp (GtComp.only_comp s match_)) c_key = 9)
      by apply count_insert_eq.
    pose proof (gt_only_comp_ret s match_) as Hret. fold c_key uc in Hret.
    repeat apply conj.
    + exact H9.
    + intros Hz0. by rewrite Hret, Hz0.
    + intros Hnz. apply Z.eqb_neq in Hnz. rewrite Hret, Hnz. apply app_nil_r.
    + apply gt_loop_sentinel_comp; [exact H9|].
      eapply Forall_impl; [exact Hpost9|]. cbn. tauto.
  - (* only the base *)
    destruct Hcase as (Hz & Hu & Hnot & Hs').
    repeat apply conj; try (intros; lia).
    intros _ _. rewrite Hs'.
    assert (H9 : GtComp.count (GtComp.used_base (GtComp.only_base s match_)) b_key = 9)
      by apply count_insert_eq.
    pose proof (gt_only_base_ret s match_) as Hret. fold b_key ub in Hret.
    repeat apply conj.
    + exact H9.
    + intros Hz0. by rewrite Hret, Hz0.
    + intros Hnz. apply Z.eqb_neq in Hnz. rewrite Hret, Hnz. apply app_nil_r.
    + apply gt_loop_sentinel_base; [exact H9|].
      eapply Forall_impl; [exact Hpost9|]. cbn. tauto.
  - (* both *)
    destruct Hcase as (Hnb & Hnc & Hu1 & Hu2 & Hs').
    repeat apply conj; try (intros; lia).
    intros _ _ _ _ e.
    destruct (paired_copy_sides s match_) as (Pb & Pc & _).
    fold e b_key c_key ub uc in Pb, Pc.
    destruct Hinv as [[_ Ibase] [_ Icomp]].
    split; [|split; [|split; [|split; [|split; [|split; [|split]]]]]].
    + rewrite Pb, <- Ibase. fold ub.
      destruct (Z.eqb_spec ub 0); rewrite ?Hb; split; congruence.
    + rewrite Pb. destruct (ub =? 0); auto.
    + rewrite Pc, <- Icomp. fold uc.
      destruct (Z.eqb_spec uc 0); rewrite ?Hc; split; congruence.
    + rewrite Pc. destruct (uc =? 0); auto.
    + rewrite Hs'. apply count_insert_eq.
    + rewrite Hs'. apply count_insert_eq.
    + intros He. rewrite Hs', gt_write_both_ret. fold e.
      destruct He as [He|He]; destruct (base e), (comp e); congruence.
    + intros He. rewrite Hs', gt_write_both_ret. fold e.
      unfold has_side in He.
      destruct (base e), (comp e); try (by rewrite app_nil_r);
        exfalso; apply He; auto.
  - (* neither *)
    destruct Hcase as (Hfull & Hn1 & Hn2 & _).
    repeat apply conj; intros; exfalso; tauto || lia.
Qed.

(** Scenario 4 of the specification: a homozygous base and two heterozygous
    comps.  Both comps are emitted as passing; the second copy has its base
    dropped, since the base already shows in the first. *)
Example pick_gtcomp_matches_one_by_two :
  GtComp.pick_gtcomp_matches (one_by_two 2 1) =
  [scored_pair ins_100 ins_100 true 2 1 "0.0.0";
   set_base None (scored_pair ins_100 ins_101 true 2 1 "0.0.1")].
Proof. vm_compute. reflexivity. Qed.

Lemma one_by_two_paired : Forall paired_entry (ravel (one_by_two 2 1)).
Proof.
  assert (H : forall c id, paired_entry (scored_pair ins_100 c true 2 1 id)).
  { intros c id. split; [by exists ins_100, c|]. cbn. lia. }
  cbn. repeat constructor; apply H.
Defined.

Lemma pick_gtcomp_matches_sides_witness :
  Forall has_side (GtComp.pick_gtcomp_matches (one_by_two 2 1)).
Proof.
  apply (proj1 (pick_gtcomp_matches_sides (one_by_two 2 1) one_by_two_paired)).
Defined.

(** An insertion of one base, below the default [min_length] of 50. *)
Lemma annotate_sets_TRF_before_length_check_witness :
  TRF.annotate (anno_of [motif_at_100_200]) ins_small 50 =
  (info_set "TRF" (PyBool true) ins_small, Ret tt).
Proof.
  apply (proj2 (annotate_sets_TRF_before_length_check
                  (anno_of [motif_at_100_200]) ins_small 50)).
  cbn. lia.
Defined.

(** * Further properties *)

(** ** The writer and the stats box over a run *)

Lemma write_match_files self match_ sizemin :
  let after := write_match self match_ sizemin in
  Z.of_nat (length (tpb_out after)) - Z.of_nat (length (tpb_out self))
    = grew "TP-base" self after /\
  Z.of_nat (length (fn_out after)) - Z.of_nat (length (fn_out self))
    = grew "FN" self after /\
  Z.of_nat (length (tpc_out after)) - Z.of_nat (length (tpc_out self))
    = grew "TP-comp" self after /\
  Z.of_nat (length (fp_out after)) - Z.of_nat (length (fp_out self))
    = grew "FP" self after.
Proof.
  unfold grew.
  writer_cases match_ sizemin;
    cbn [tpb_out tpc_out fn_out fp_out with_box tpb_write tpc_write fn_write
         fp_write stats_box];
    box_simpl; rewrite ?length_app; cbn [length]; repeat apply conj; lia.
Qed.

Lemma write_match_gt_grew self match_ sizemin :
  let after := write_match self match_ sizemin in
  0 <= grew "TP-base_TP-gt" self after /\ 0 <= grew "TP-base_FP-gt" self after /\
  0 <= grew "TP-comp_TP-gt" self after /\ 0 <= grew "TP-comp_FP-gt" self after /\
  grew "TP-base_TP-gt" self after + grew "TP-base_FP-gt" self after
    = grew "TP-base" self after /\
  grew "TP-comp_TP-gt" self after + grew "TP-comp_FP-gt" self after
    = grew "TP-comp" self after.
Proof.
  unfold grew.
  writer_cases match_ sizemin; box_simpl; repeat apply conj; lia.
Qed.

Lemma run_loop_invariant (P : BenchOutput -> Prop) extend include sizemin :
  (forall self match_, P self -> P (write_match self match_ sizemin)) ->
  forall matches output,
    P output -> P (run_loop extend include sizemin matches output).
Proof.
  intros Hstep matches. unfold run_loop.
  induction matches as [|m ms IH]; intros output HP; [exact HP|].
  cbn [fold_left]. apply IH. unfold run_step. apply Hstep, HP.
Qed.

(** X1. After any run of the writing loop, each of the four output files
    holds exactly as many records as the stats box counts for it: tp-base
    and TP-base, fn and FN, tp-comp and TP-comp, fp and FP. *)
Theorem run_files_match_counters extend include sizemin matches :
  files_match_counters (run_loop extend include sizemin matches BenchOutput_new).
Proof.
  apply run_loop_invariant; [|repeat apply conj; reflexivity].
  intros self match_ (H1 & H2 & H3 & H4).
  destruct (write_match_files self match_ sizemin) as (F1 & F2 & F3 & F4).
  unfold grew, files_match_counters in *. repeat apply conj; lia.
Qed.

(** X2. After any run, the genotype counters are non-negative and split the
    true positives: TP-base_TP-gt + TP-base_FP-gt = TP-base and
    TP-comp_TP-gt + TP-comp_FP-gt = TP-comp. *)
Theorem run_gt_counters_split extend include sizemin matches :
  gt_counters_split
    (stats_box (run_loop extend include sizemin matches BenchOutput_new)).
Proof.
  apply (run_loop_invariant (fun o => gt_counters_split (stats_box o)));
    [|repeat apply conj; reflexivity].
  intros self match_ (H1 & H2 & H3 & H4 & H5 & H6).
  destruct (write_match_gt_grew self match_ sizemin)
    as (G1 & G2 & G3 & G4 & G5 & G6).
  unfold grew, gt_counters_split in *. repeat apply conj; lia.
Qed.

(** X3. With [--extend] in force, an unmatched comp variant outside the
    original include regions is dropped before writing: the call does
    exactly what [write_match] does for the base side alone, so the comp
    counters and the tp-comp and fp files stay as they were. *)
Theorem run_step_drops_outside_comp extend include sizemin output match_ c :
  extend <> 0 -> comp match_ = Some c -> state match_ = false ->
  include c = false ->
  let after := run_step extend include sizemin output match_ in
  after = write_match_base output match_ /\
  tpc_out after = tpc_out output /\ fp_out after = fp_out output /\
  box_get (stats_box after) "comp cnt" = box_get (stats_box output) "comp cnt" /\
  box_get (stats_box after) "TP-comp" = box_get (stats_box output) "TP-comp" /\
  box_get (stats_box after) "FP" = box_get (stats_box output) "FP".
Proof.
  intros Hext Hc Hs Hinc after.
  assert (E : after = write_match_base output match_).
  { subst after. unfold run_step. rewrite Hc, Hs, Hinc.
    apply Z.eqb_neq in Hext. rewrite Hext. cbn [negb andb].
    unfold write_match, write_match_comp, write_match_base.
    cbn [comp set_comp base state]. rewrite Hs.
    destruct (base match_); reflexivity. }
  split; [exact E|]. rewrite E. unfold write_match_base. rewrite Hs.
  destruct (base match_); cbn; box_simpl; auto.
Qed.

Lemma run_step_drops_outside_comp_witness :
  run_step 100 (fun _ => false) 50 BenchOutput_new (unmatched_comp ins_100)
  = write_match_base BenchOutput_new (unmatched_comp ins_100).
Proof.
  apply (run_step_drops_outside_comp 100 (fun _ => false) 50 BenchOutput_new
           (unmatched_comp ins_100) ins_100); [lia|reflexivity..].
Defined.

(** ** [annotate_entry] as a whole *)





(** ** [calc_performance] *)

Lemma write_match_rates self match_ sizemin :
  rates (stats_box (write_match self match_ sizemin)) = rates (stats_box self).
Proof. writer_cases match_ sizemin; reflexivity. Qed.

Lemma rate_get_set_eq key v box : rate_get (rate_set key v box) key = v.
Proof. unfold rate_get, rate_set. cbn. by rewrite lookup_insert_eq. Qed.

Lemma rate_get_set_ne key key' v box :
  key <> key' -> rate_get (rate_set key v box) key' = rate_get box key'.
Proof. intros H. unfold rate_get, rate_set. cbn. by rewrite lookup_insert_ne. Qed.

Lemma box_get_rate_set key v box key' :
  box_get (rate_set key v box) key' = box_get box key'.
Proof. reflexivity. Qed.

Lemma ratio_in_unit (a b : Z) :
  0 <= a -> 0 <= b -> a + b <> 0 ->
  (0 <= inject_Z a / inject_Z (a + b) <= 1)%Q.
Proof.
  intros Ha Hb Hs.
  assert (Hpos : (0 < inject_Z (a + b))%Q).
  { change 0%Q with (inject_Z 0). rewrite <- Zlt_Qlt. lia. }
  split.
  - apply Qle_shift_div_l; [exact Hpos|]. rewrite Qmult_0_l.
    change 0%Q with (inject_Z 0). rewrite <- Zle_Qle. lia.
  - apply Qle_shift_div_r; [exact Hpos|]. rewrite Qmult_1_l.
    rewrite <- Zle_Qle. lia.
Qed.

(** X5. Whatever [performance_metrics] returns, the genotype concordance
    [calc_performance] leaves in the box after a run lies in [0, 1]: it is
    TP-comp_TP-gt / (TP-comp_TP-gt + TP-comp_FP-gt) when that sum is not
    zero, and stays at its initial 0 otherwise. *)
Theorem calc_performance_gt_concordance pm extend include sizemin matches :
  let box := stats_box (run_loop extend include sizemin matches BenchOutput_new) in
  let tp := box_get box "TP-comp_TP-gt" in
  let fp := box_get box "TP-comp_FP-gt" in
  let conc := rate_get (calc_performance pm box) "gt_concordance" in
  (0 <= conc <= 1)%Q /\
  (tp + fp <> 0 -> conc = (inject_Z tp / inject_Z (tp + fp))%Q) /\
  (tp + fp = 0 -> conc = 0%Q).
Proof.
  intros box tp fp conc.
  assert (Hpos : 0 <= tp /\ 0 <= fp).
  { subst tp fp box.
    apply (run_loop_invariant
             (fun o => 0 <= box_get (stats_box o) "TP-comp_TP-gt" /\
                       0 <= box_get (stats_box o) "TP-comp_FP-gt"));
      [|split; reflexivity].
    intros self m [H1 H2].
    destruct (write_match_gt_grew self m sizemin) as (_ & _ & G3 & G4 & _).
    unfold grew in *. split; lia. }
  destruct Hpos as [Htp Hfp].
  assert (Hrates : rates box = rates StatsBox_new).
  { subst box.
    apply (run_loop_invariant
             (fun o => rates (stats_box o) = rates StatsBox_new));
      [|reflexivity].
    intros self m H. by rewrite write_match_rates. }
  assert (Hconc :
    conc = if negb (tp + fp =? 0) then (inject_Z tp / inject_Z (tp + fp))%Q
           else 0%Q).
  { subst conc. unfold calc_performance.
    destruct (pm _ _ _ _) as [[precision recall] f1]. cbv zeta.
    rewrite !box_get_rate_set. fold tp fp.
    destruct (negb (tp + fp =? 0)); [apply rate_get_set_eq|].
    rewrite !rate_get_set_ne by discriminate.
    unfold rate_get. by rewrite Hrates. }
  destruct (Z.eqb_spec (tp + fp) 0) as [Hz|Hnz]; cbn [negb] in Hconc;
    rewrite Hconc.
  - repeat apply conj; [done|done|congruence|reflexivity].
  - split; [by apply ratio_in_unit|]. split; [reflexivity|congruence].
Qed.

Lemma calc_performance_gt_concordance_witness :
  rate_get
    (calc_performance (fun _ _ _ _ => (1, 1, 1)%Q)
       (stats_box (run_loop 0 (fun _ => true) 50
                     [scored_pair ins_100 ins_100 true 1 1 "0.0.0"]
                     BenchOutput_new)))
    "gt_concordance"
  = (inject_Z 1 / inject_Z (1 + 0))%Q.
Proof.
  apply (proj1 (proj2 (calc_performance_gt_concordance
                         (fun _ _ _ _ => (1, 1, 1)%Q) 0 (fun _ => true) 50
                         [scored_pair ins_100 ins_100 true 1 1 "0.0.0"]))).
  vm_compute. discriminate.
Defined.

(** ** The command line checks of bench as a whole *)

Lemma check_bind {B} cond msg check_fail (k : bool -> Cli.Logged B) log :
  (Cli.check cond msg check_fail ≫= k) log =
  k (cond || check_fail) (log ++ if cond then [msg] else []).
Proof.
  unfold Cli.check, mbind, Cli.Logged_bind, Cli.logging_error, mret, Cli.Logged_ret.
  destruct cond; cbn; [reflexivity|]. by rewrite app_nil_r.
Qed.

(** The lines [check_params] logs: one per failing check, in source order. *)
Lemma failed_messages_nil checks :
  snd <$> filter (fun x : bool * string => Is_true (fst x)) checks = []
  <-> existsb fst checks = false.
Proof.
  induction checks as [|[c msg] rest IH]; [done|].
  rewrite filter_cons. cbn [fst existsb].
  destruct c; cbn [Is_true orb].
  - rewrite decide_True by exact I. split; discriminate.
  - rewrite decide_False by exact id. exact IH.
Qed.

(** X6. [check_params] never raises and never exits: it returns a flag and
    appends to the log the line of every failing check, in source order and
    nothing else.  The flag is false exactly when nothing was logged. *)
Theorem check_params_total_report w args log :
  exists flag msgs,
    Cli.check_params w args log = (Ret flag, log ++ msgs) /\
    msgs = snd <$> filter (fun x => Is_true (fst x)) (param_checks w args) /\
    flag = existsb fst (param_checks w args) /\
    (flag = false <-> msgs = []).
Proof.
  eexists _, _. split; [apply check_params_reports_all|].
  split; [reflexivity|]. split; [reflexivity|].
  symmetry. apply failed_messages_nil.
Qed.

(** X7. When a parameter check fails, [bench_main] exits with code 100
    having logged the parameter errors followed by the closing line, and
    nothing else: the inputs are not opened ([check_inputs] is not run). *)
Theorem bench_main_bad_params_output w defaults cmdargs log :
  let args := Cli.parse_args w defaults cmdargs in
  existsb fst (param_checks w args) = true ->
  Cli.bench_main w defaults cmdargs log =
  (SysExit 100,
   (log ++ (snd <$> filter (fun x => Is_true (fst x)) (param_checks w args)))
   ++ ["Couldn't run Truvari. Please fix parameters"]).
Proof.
  intros args Hfail. unfold Cli.bench_main. cbv zeta. fold args.
  unfold mbind at 1. unfold Cli.Logged_bind at 1.
  rewrite check_params_reports_all, Hfail. reflexivity.
Qed.

(** [-r 2000 -C 1000]: the chunk size is below the reference distance. *)
Lemma bench_main_bad_params_output_witness :
  Cli.bench_main sample_world sample_defaults
    {| Cli.base := "base.vcf.gz"; Cli.comp := "comp.vcf.gz"; Cli.output := "out";
       Cli.reference := None; Cli.refdist := 2000; Cli.chunksize := 1000;
       Cli.bSample := None; Cli.cSample := None; Cli.sizemin := 50;
       Cli.sizefilt := None; Cli.includebed := None; Cli.extend := 0 |} []
  = (SysExit 100,
     ["--chunksize must be >= --refdist";
      "Couldn't run Truvari. Please fix parameters"]).
Proof.
  apply (bench_main_bad_params_output sample_world sample_defaults
           {| Cli.base := "base.vcf.gz"; Cli.comp := "comp.vcf.gz";
              Cli.output := "out"; Cli.reference := None; Cli.refdist := 2000;
              Cli.chunksize := 1000; Cli.bSample := None; Cli.cSample := None;
              Cli.sizemin := 50; Cli.sizefilt := None; Cli.includebed := None;
              Cli.extend := 0 |} []).
  vm_compute. reflexivity.
Defined.

(** X8. [check_sample] raises IndexError exactly when no sample is asked
    for and the header has none (after logging that).  Otherwise it returns
    the sample asked for, or the header's first one, and its flag is false
    exactly when that sample is in the header; a passing check logs
    nothing. *)
Theorem check_sample_outcomes w vcf_fn sample_id log :
  let samples := Cli.header_samples w vcf_fn in
  (sample_id = None -> samples = [] ->
   Cli.check_sample w vcf_fn sample_id log =
   (Raise IndexError,
    log ++ ["No SAMPLE columns found in vcf (" +:+ vcf_fn +:+ ")"])) /\
  (sample_id <> None \/ samples <> [] ->
   exists flag id log',
     Cli.check_sample w vcf_fn sample_id log = (Ret (flag, id), log') /\
     (sample_id = None -> samples !! 0%nat = Some id) /\
     (forall s, sample_id = Some s -> id = s) /\
     (flag = false <-> id ∈ samples) /\
     (flag = false -> log' = log)).
Proof.
  intros samples. unfold Cli.check_sample. cbv zeta. fold samples.
  rewrite !check_bind. split.
  - intros -> Hs. rewrite Hs, app_nil_r. reflexivity.
  - intros Hok. destruct sample_id as [s|].
    + destruct (decide (s ∈ samples)) as [Hin|Hin].
      * rewrite (bool_decide_eq_true_2 _ Hin). cbn [negb orb].
        destruct samples as [|x rest] eqn:Es; [by apply elem_of_nil in Hin|].
        cbn [length Nat.eqb]. eexists _, _, _. split; [reflexivity|].
        repeat apply conj; try done.
        -- by intros s' [= ->].
        -- intros _. by rewrite !app_nil_r.
      * rewrite (bool_decide_eq_false_2 _ Hin). cbn [negb orb].
        eexists _, _, _. split; [reflexivity|].
        repeat apply conj; try done.
        -- by intros s' [= ->].
        -- rewrite orb_true_r. done.
        -- rewrite orb_true_r. done.
    + destruct samples as [|x rest] eqn:Es; [by destruct Hok|].
      cbn. eexists _, _, _. split; [reflexivity|].
      repeat apply conj; try done.
      * intros _. apply list_elem_of_here.
      * intros _. by rewrite !app_nil_r.
Qed.

Lemma check_sample_outcomes_witness :
  Cli.check_sample sites_only_world "/data/base.vcf.gz" None [] =
  (Raise IndexError, ["No SAMPLE columns found in vcf (/data/base.vcf.gz)"]).
Proof.
  apply (proj1 (check_sample_outcomes sites_only_world "/data/base.vcf.gz"
                  None [])); reflexivity.
Defined.

Lemma check_sample_passes w vcf_fn sample_id log flag id log' :
  Cli.check_sample w vcf_fn sample_id log = (Ret (flag, id), log') ->
  flag = false ->
  id ∈ Cli.header_samples w vcf_fn /\ log' = log.
Proof.
  unfold Cli.check_sample. cbv zeta. rewrite !check_bind.
  destruct sample_id as [s|].
  - destruct (decide (s ∈ Cli.header_samples w vcf_fn)) as [Hin|Hin].
    + rewrite (bool_decide_eq_true_2 _ Hin). cbn [negb orb].
      destruct (Cli.header_samples w vcf_fn) as [|x rest];
        [by apply elem_of_nil in Hin|].
      cbn [length Nat.eqb]. intros [= <- <- <-] _.
      split; [exact Hin|by rewrite !app_nil_r].
    + rewrite (bool_decide_eq_false_2 _ Hin). cbn [negb orb].
      intros [= <- <- <-]. by rewrite orb_true_r.
  - destruct (Cli.header_samples w vcf_fn) as [|x rest]; [discriminate|].
    cbn. intros [= <- <- <-] _. split; [apply list_elem_of_here|].
    by rewrite !app_nil_r.
Qed.

(** X9. If [bench_main] gets as far as starting the comparison, then
    nothing was logged, every parameter check passed, and the two sample
    names it hands on are names found in the headers of the base and of the
    comp catalog. *)
Theorem bench_main_proceeds_only_when_valid w defaults cmdargs log args' log' :
  Cli.bench_main w defaults cmdargs log = (Ret args', log') ->
  let args := Cli.parse_args w defaults cmdargs in
  log' = log /\
  existsb fst (param_checks w args) = false /\
  exists b c,
    args' = Cli.set_cSample c (Cli.set_bSample b args) /\
    b ∈ Cli.header_samples w (Cli.base args) /\
    c ∈ Cli.header_samples w (Cli.comp args).
Proof.
  intros H args. unfold Cli.bench_main in H. cbv zeta in H. fold args in H.
  unfold mbind at 1 in H. unfold Cli.Logged_bind at 1 in H.
  rewrite check_params_reports_all in H.
  destruct (existsb fst (param_checks w args)) eqn:Hp; [discriminate H|].
  apply failed_messages_nil in Hp as Hmsgs. rewrite Hmsgs, app_nil_r in H.
  unfold mbind at 1 in H. unfold Cli.Logged_bind at 1 in H.
  unfold Cli.check_inputs in H.
  unfold mbind at 1 in H. unfold Cli.Logged_bind at 1 in H.
  destruct (Cli.check_sample w (Cli.base args) (Cli.bSample args) log)
    as [[[bf b]| |] l1] eqn:E1; try discriminate H.
  unfold mbind at 1 in H. unfold Cli.Logged_bind at 1 in H.
  change (Cli.comp (Cli.set_bSample b args)) with (Cli.comp args) in H.
  change (Cli.cSample (Cli.set_bSample b args)) with (Cli.cSample args) in H.
  destruct (Cli.check_sample w (Cli.comp args) (Cli.cSample args) l1)
    as [[[cf c]| |] l2] eqn:E2; try discriminate H.
  cbn in H. destruct bf; [discriminate H|]. destruct cf; [discriminate H|].
  cbn in H. injection H as <- <-.
  destruct (check_sample_passes _ _ _ _ _ _ _ E1 eq_refl) as [Hb ->].
  destruct (check_sample_passes _ _ _ _ _ _ _ E2 eq_refl) as [Hc ->].
  split; [reflexivity|]. split; [reflexivity|].
  exists b, c. auto.
Qed.

Lemma bench_main_proceeds_only_when_valid_witness :
  existsb fst
    (param_checks sample_world
       (Cli.parse_args sample_world sample_defaults (sample_args 50))) = false.
Proof.
  eapply (bench_main_proceeds_only_when_valid sample_world sample_defaults
            (sample_args 50) []).
  vm_compute. reflexivity.
Defined.

(** X10. When [-S] is omitted, the size filter [parse_args] settles on is
    the smaller of [sizemin] and the default, so it never exceeds the
    [sizemin] in force; every other size-related argument is untouched. *)
Theorem parse_args_sizefilt_is_min w defaults args :
  Cli.sizefilt args = None ->
  let args' := Cli.parse_args w defaults args in
  Cli.sizefilt args' = Some (Z.min (Cli.sizemin args) (Cli.d_sizefilt defaults)) /\
  Cli.sizemin args' = Cli.sizemin args /\
  (forall v, Cli.sizefilt args' = Some v -> v <= Cli.sizemin args').
Proof.
  intros Hnone args'. subst args'. unfold Cli.parse_args.
  cbn [Cli.sizefilt Cli.sizemin]. rewrite Hnone.
  destruct (Z.ltb_spec (Cli.sizemin args) (Cli.d_sizefilt defaults)).
  - rewrite Z.min_l by lia. repeat apply conj; try reflexivity.
    intros v [= <-]. lia.
  - rewrite Z.min_r by lia. repeat apply conj; try reflexivity.
    intros v [= <-]. lia.
Qed.

Lemma parse_args_sizefilt_is_min_witness :
  Cli.sizefilt (Cli.parse_args sample_world sample_defaults (sample_args 10))
  = Some (Z.min 10 30).
Proof.
  apply (parse_args_sizefilt_is_min sample_world sample_defaults (sample_args 10)).
  reflexivity.
Defined.

(** ** [pick_multi_matches] *)

Lemma mr_lt_irrefl a : mr_lt a a = false.
Proof.
  destruct (mr_lt a a) eqn:E; [|reflexivity].
  pose proof (mr_lt_asym a a E). congruence.
Qed.

Lemma np_max_tops l r : np_max l = Some r -> tops r l.
Proof.
  destruct l as [|x rest]; [discriminate|]. cbn. intros [= <-].
  assert (H : forall seen acc,
             tops acc seen -> tops (fold_left np_maximum rest acc) (seen ++ rest)).
  { induction rest as [|y rest IH]; intros seen acc Hacc; cbn.
    - by rewrite app_nil_r.
    - replace (seen ++ y :: rest) with ((seen ++ [y]) ++ rest)
        by (by rewrite <- app_assoc).
      apply IH. destruct Hacc as [Hin Htop]. unfold np_maximum.
      destruct (mr_lt acc y) eqn:E.
      + split; [apply elem_of_app; right; apply list_elem_of_here|].
        intros z Hz. apply elem_of_app in Hz as [Hz|Hz].
        * apply (mr_lt_false_trans y acc z); [by apply mr_lt_asym|by apply Htop].
        * apply list_elem_of_singleton in Hz as ->. apply mr_lt_irrefl.
      + split; [apply elem_of_app; by left|].
        intros z Hz. apply elem_of_app in Hz as [Hz|Hz]; [by apply Htop|].
        by apply list_elem_of_singleton in Hz as ->. }
  apply (H [x] x). split; [apply list_elem_of_here|].
  intros z Hz. apply list_elem_of_singleton in Hz as ->. apply mr_lt_irrefl.
Qed.

Lemma np_max_is_Some l : l <> [] -> is_Some (np_max l).
Proof. destruct l; [done|]. intros _. by eexists. Qed.

Lemma omap_lookup_total {A B} (f : A -> option B) (l : list A) :
  Forall (fun x => is_Some (f x)) l ->
  length (omap f l) = length l /\
  forall i x, l !! i = Some x -> exists y, omap f l !! i = Some y /\ f x = Some y.
Proof.
  induction 1 as [|x l [y Hy] _ [IHlen IH]]; cbn.
  - split; [done|]. intros i x Hi. by rewrite lookup_nil in Hi.
  - rewrite Hy. cbn. split; [by rewrite IHlen|].
    intros [|i] x' Hi; cbn in *.
    + injection Hi as <-. eauto.
    + by apply IH.
Qed.

Lemma matrix_over_rows bs cs m :
  matrix_over bs cs m ->
  length m = length bs /\ Forall (fun row => length row = length cs) m.
Proof.
  intros Hm. split; [symmetry; by eapply Forall2_length|].
  induction Hm as [|b row bs' m' Hrow _ IH]; constructor; [|exact IH].
  symmetry. by eapply Forall2_length.
Qed.

Lemma matrix_over_column bs cs m j c :
  matrix_over bs cs m -> cs !! j = Some c ->
  Forall2 (fun b r => base r = Some b /\ comp r = Some c) bs (column j m).
Proof.
  intros Hm Hj. unfold column.
  induction Hm as [|b row bs' m' Hrow _ IH]; cbn; [constructor|].
  destruct (Forall2_lookup_l _ _ _ _ _ Hrow Hj) as (r & Hr & Hb & Hc).
  rewrite Hr. cbn. by constructor.
Qed.

(** X11. For a non-empty base-by-comp array, [pick_multi_matches] returns
    one record per base followed by one per comp: record [i] is a
    top-ranked entry of row [i] with its comp dropped, record [B + j] a
    top-ranked entry of column [j] with its base dropped. *)
Theorem pick_multi_matches_tops bs cs m :
  bs <> [] -> cs <> [] -> matrix_over bs cs m ->
  let out := pick_multi_matches m in
  length out = (length bs + length cs)%nat /\
  (forall i b, bs !! i = Some b ->
     exists row r, m !! i = Some row /\ tops r row /\
       out !! i = Some (set_comp None r) /\ base r = Some b) /\
  (forall j c, cs !! j = Some c ->
     exists r, tops r (column j m) /\
       out !! (length bs + j)%nat = Some (set_base None r) /\ comp r = Some c).
Proof.
  intros Hbs Hcs Hm out.
  destruct (matrix_over_rows bs cs m Hm) as [Hlen Hrows].
  assert (Hrow_some : Forall (fun row => is_Some (np_max row)) m).
  { eapply Forall_impl; [exact Hrows|]. cbn. intros row Hrow.
    apply np_max_is_Some. intros ->. destruct cs; [done|discriminate]. }
  destruct (omap_lookup_total np_max m Hrow_some) as [Hl1 Hrowmax].
  assert (Hshape : Z.to_nat (snd (shape m)) = length cs).
  { rewrite (matrix_over_shape bs cs m Hbs Hm). cbn. lia. }
  assert (Hcol_some :
    Forall (fun j => is_Some (np_max (column j m))) (seq 0 (length cs))).
  { apply Forall_forall. intros j Hj. apply elem_of_seq in Hj.
    destruct (lookup_lt_is_Some_2 cs j) as [c Hc]; [lia|].
    pose proof (matrix_over_column bs cs m j c Hm Hc) as Hcol.
    apply np_max_is_Some. intros E. rewrite E in Hcol.
    apply Forall2_length in Hcol. destruct bs; [done|discriminate]. }
  destruct (omap_lookup_total (fun j => np_max (column j m)) _ Hcol_some)
    as [Hl0 Hcolmax].
  rewrite length_seq in Hl0.
  assert (Hlen1 : length (set_comp None <$> max_axis1 m) = length bs).
  { rewrite length_fmap. unfold max_axis1. lia. }
  subst out. unfold pick_multi_matches. split; [|split].
  - rewrite length_app, Hlen1, length_fmap. unfold max_axis0.
    rewrite Hshape. lia.
  - intros i b Hb.
    destruct (Forall2_lookup_l _ _ _ _ _ Hm Hb) as (row & Hrow & Hpairs).
    destruct (Hrowmax i row Hrow) as (r & Hr & Hmax).
    exists row, r. split; [exact Hrow|].
    pose proof (np_max_tops row r Hmax) as Htop. split; [exact Htop|].
    split.
    + rewrite lookup_app_l by (rewrite Hlen1; by eapply lookup_lt_Some).
      rewrite list_lookup_fmap. unfold max_axis1. by rewrite Hr.
    + destruct Htop as [Hin _]. apply list_elem_of_lookup in Hin as [j Hj].
      by destruct (Forall2_lookup_r _ _ _ _ _ Hpairs Hj) as (c & _ & ? & _).
  - intros j c Hc.
    assert (Hseq : seq 0 (length cs) !! j = Some j).
    { apply lookup_seq. split; [done|]. by eapply lookup_lt_Some. }
    destruct (Hcolmax j j Hseq) as (r & Hr & Hmax).
    exists r. pose proof (np_max_tops _ r Hmax) as Htop.
    split; [exact Htop|]. split.
    + rewrite lookup_app_r by (rewrite Hlen1; lia).
      rewrite Hlen1. replace (length bs + j - length bs)%nat with j by lia.
      rewrite list_lookup_fmap. unfold max_axis0. rewrite Hshape. by rewrite Hr.
    + destruct Htop as [Hin _]. apply list_elem_of_lookup in Hin as [i Hi].
      pose proof (matrix_over_column bs cs m j c Hm Hc) as Hcol.
      by destruct (Forall2_lookup_r _ _ _ _ _ Hcol Hi) as (b & _ & _ & ?).
Qed.

Lemma pick_multi_matches_tops_witness :
  length (pick_multi_matches (one_by_two 1 1)) = (1 + 2)%nat.
Proof.
  assert (H1 : [ins_100] <> []) by discriminate.
  assert (H2 : [ins_100; ins_101] <> []) by discriminate.
  assert (H3 : matrix_over [ins_100] [ins_100; ins_101] (one_by_two 1 1))
    by (repeat constructor).
  exact (proj1 (pick_multi_matches_tops [ins_100] [ins_100; ins_101]
                  (one_by_two 1 1) H1 H2 H3)).
Defined.

(** ** Coverage of [pick_single_matches] *)

Lemma single_body_cases s r :
  let b_used := str_entry (base r) ∈ Single.used_base s in
  let c_used := str_entry (comp r) ∈ Single.used_comp s in
  (Single.base_cnt s = 0 /\ ~ c_used /\
   Single.body s r = Single.only_comp s r) \/
  (Single.comp_cnt s = 0 /\ ~ b_used /\
   ~ (Single.base_cnt s = 0 /\ ~ c_used) /\
   Single.body s r = Single.only_base s r) \/
  (Single.base_cnt s <> 0 /\ Single.comp_cnt s <> 0 /\ ~ b_used /\ ~ c_used /\
   Single.body s r = Single.write_both s r) \/
  ((b_used \/ c_used) /\
   ~ (Single.base_cnt s = 0 /\ ~ c_used) /\
   ~ (Single.comp_cnt s = 0 /\ ~ b_used) /\
   Single.body s r = s).
Proof.
  intros b_used c_used. unfold Single.body. fold b_used c_used.
  destruct (Z.eqb_spec (Single.base_cnt s) 0) as [Hb|Hb];
    destruct (Z.eqb_spec (Single.comp_cnt s) 0) as [Hc|Hc];
    destruct (decide b_used) as [Hub|Hub];
    destruct (decide c_used) as [Huc|Huc];
    rewrite ?(bool_decide_eq_true_2 _ Hub), ?(bool_decide_eq_false_2 _ Hub),
      ?(bool_decide_eq_true_2 _ Huc), ?(bool_decide_eq_false_2 _ Huc);
    cbn [andb negb]; tauto.
Qed.

(** The used sets only grow. *)
Lemma single_body_mono s r :
  Single.used_base s ⊆ Single.used_base (Single.body s r) /\
  Single.used_comp s ⊆ Single.used_comp (Single.body s r).
Proof.
  destruct (single_body_cases s r)
    as [(_ & _ & ->)|[(_ & _ & _ & ->)|[(_ & _ & _ & _ & ->)|(_ & _ & _ & ->)]]];
    cbn; split; set_solver.
Qed.

Lemma single_loop_mono s l :
  Single.used_base s ⊆ Single.used_base (Single.loop s l) /\
  Single.used_comp s ⊆ Single.used_comp (Single.loop s l).
Proof.
  revert s. induction l as [|r l IH]; intros s; cbn; [done|].
  destruct (Single.finished s); [done|].
  destruct (single_body_mono s r) as [H1 H2].
  destruct (IH (Single.body s r)) as [H3 H4].
  split; set_solver.
Qed.

(** With distinct keys, a non-zero remaining count leaves an unused
    variant. *)
Lemma unused_when_nonzero (vs : list Variant) (used : gset string) (cnt : Z) :
  NoDup (text <$> vs) ->
  used ⊆ keys vs ->
  cnt = Z.of_nat (length vs) - Z.of_nat (size used) ->
  cnt <> 0 -> exists v, v ∈ vs /\ text v ∉ used.
Proof.
  intros Hnd Hsub Hcnt Hnz.
  destruct (decide (Forall (fun v => text v ∈ used) vs)) as [Hall|Hnot].
  - exfalso. apply Hnz.
    assert (used = keys vs) as ->.
    { apply set_eq. intros k. split; [apply Hsub|].
      unfold keys. rewrite elem_of_list_to_set. intros Hk.
      apply list_elem_of_fmap in Hk as (v & -> & Hv).
      by eapply Forall_forall in Hall. }
    unfold keys in Hcnt. rewrite size_list_to_set in Hcnt by exact Hnd.
    rewrite length_fmap in Hcnt. lia.
  - apply not_Forall_Exists in Hnot; [|intros v; apply _].
    apply Exists_exists in Hnot as (v & Hv & Hun). by exists v.
Qed.

Lemma matrix_over_pairs bs cs m b c :
  matrix_over bs cs m -> b ∈ bs -> c ∈ cs ->
  exists r, r ∈ ravel m /\ base r = Some b /\ comp r = Some c.
Proof.
  intros Hm Hb Hc.
  apply list_elem_of_lookup in Hb as [i Hi].
  apply list_elem_of_lookup in Hc as [j Hj].
  destruct (Forall2_lookup_l _ _ _ _ _ Hm Hi) as (row & Hrow & Hpairs).
  destruct (Forall2_lookup_l _ _ _ _ _ Hpairs Hj) as (r & Hr & Hbase & Hcomp).
  exists r. split; [|done].
  unfold ravel. apply list_elem_of_In, in_concat. exists row.
  split; apply list_elem_of_In; apply list_elem_of_lookup; eauto.
Qed.

Lemma pending_step bs cs s r0 rest :
  single_inv bs cs s -> pending bs cs s (r0 :: rest) ->
  pending bs cs (Single.body s r0) rest.
Proof.
  intros [Hsb Hsc Hnb Hnc] Hpend b c Hb Hc Hub Huc.
  destruct (single_body_mono s r0) as [Mb Mc].
  destruct (Hpend b c Hb Hc) as (r & Hr & Hbase & Hcomp);
    [set_solver|set_solver|].
  apply elem_of_cons in Hr as [->|Hr]; [|by exists r].
  exfalso.
  assert (Hb0 : Single.base_cnt s <> 0).
  { intros Hz. apply Hub, Mb. by apply (used_all_when_zero bs _ _ b Hsb Hnb Hz). }
  assert (Hc0 : Single.comp_cnt s <> 0).
  { intros Hz. apply Huc, Mc. by apply (used_all_when_zero cs _ _ c Hsc Hnc Hz). }
  destruct (single_body_cases s r0)
    as [(Hz & _)|[(Hz & _)|[(_ & _ & _ & _ & E)|(Hu & _)]]];
    [done|done| |].
  - apply Hub. rewrite E. cbn. rewrite Hbase. cbn. set_solver.
  - rewrite Hbase, Hcomp in Hu. cbn in Hu. destruct Hu as [Hu|Hu].
    + apply Hub, Mb, Hu.
    + apply Huc, Mc, Hu.
Qed.

(** A base that is still unused when the walk ends had no entry in the part
    of the walk that the loop went through. *)
Lemma single_no_base_left bs cs b :
  NoDup (text <$> cs) -> b ∈ bs ->
  forall rest s,
    single_inv bs cs s -> Forall (entry_of bs cs) rest -> pending bs cs s rest ->
    text b ∉ Single.used_base (Single.loop s rest) ->
    forall r, r ∈ rest -> base r <> Some b.
Proof.
  intros Hnd Hb. induction rest as [|r0 rest IH]; intros s Hinv Hall Hpend Hun.
  { intros r Hr. by apply elem_of_nil in Hr. }
  apply Forall_cons in Hall as [Hr0 Hall].
  cbn [Single.loop] in Hun.
  assert (Hun_s : text b ∉ Single.used_base s).
  { destruct (Single.finished s); [exact Hun|].
    intros Hin. apply Hun. apply (proj1 (single_loop_mono _ rest)).
    by apply (proj1 (single_body_mono s r0)). }
  pose proof Hinv as [Hsb Hsc Hnb Hnc].
  assert (Hb0 : Single.base_cnt s <> 0).
  { intros Hz. by apply Hun_s, (used_all_when_zero bs _ _ b Hsb Hnb Hz). }
  assert (Hfin : Single.finished s = false).
  { unfold Single.finished. apply Z.eqb_neq in Hb0. by rewrite Hb0. }
  rewrite Hfin in Hun.
  assert (Hrest : forall r, r ∈ rest -> base r <> Some b).
  { apply (IH (Single.body s r0)); [by apply single_body_inv|exact Hall| |exact Hun].
    by apply pending_step. }
  intros r Hr. apply elem_of_cons in Hr as [->|Hr]; [|by apply Hrest].
  intros Hbase.
  assert (Hun' : text b ∉ Single.used_base (Single.body s r0)).
  { intros Hin. apply Hun. by apply (proj1 (single_loop_mono _ rest)). }
  destruct (single_body_cases s r0)
    as [(Hz & _)|[(_ & _ & _ & E)|[(_ & _ & _ & _ & E)|(Hu & _ & Hn2 & E)]]].
  - done.
  - apply Hun'. rewrite E. cbn. rewrite Hbase. cbn. set_solver.
  - apply Hun'. rewrite E. cbn. rewrite Hbase. cbn. set_solver.
  - rewrite Hbase in Hu, Hn2. cbn in Hu, Hn2.
    destruct Hu as [Hu|Hu]; [done|].
    assert (Hc0 : Single.comp_cnt s <> 0) by tauto.
    destruct (unused_when_nonzero cs _ _ Hnd Hsc Hnc Hc0) as (c' & Hc' & Hunc).
    destruct (Hpend b c' Hb Hc' Hun_s Hunc) as (r & Hr & Hrb & Hrc).
    apply elem_of_cons in Hr as [->|Hr].
    + rewrite Hrc in Hu. cbn in Hu. done.
    + by apply (Hrest r Hr).
Qed.

Lemma single_no_comp_left bs cs c :
  NoDup (text <$> bs) -> c ∈ cs ->
  forall rest s,
    single_inv bs cs s -> Forall (entry_of bs cs) rest -> pending bs cs s rest ->
    text c ∉ Single.used_comp (Single.loop s rest) ->
    forall r, r ∈ rest -> comp r <> Some c.
Proof.
  intros Hnd Hc. induction rest as [|r0 rest IH]; intros s Hinv Hall Hpend Hun.
  { intros r Hr. by apply elem_of_nil in Hr. }
  apply Forall_cons in Hall as [Hr0 Hall].
  cbn [Single.loop] in Hun.
  assert (Hun_s : text c ∉ Single.used_comp s).
  { destruct (Single.finished s); [exact Hun|].
    intros Hin. apply Hun. apply (proj2 (single_loop_mono _ rest)).
    by apply (proj2 (single_body_mono s r0)). }
  pose proof Hinv as [Hsb Hsc Hnb Hnc].
  assert (Hc0 : Single.comp_cnt s <> 0).
  { intros Hz. by apply Hun_s, (used_all_when_zero cs _ _ c Hsc Hnc Hz). }
  assert (Hfin : Single.finished s = false).
  { unfold Single.finished. apply Z.eqb_neq in Hc0.
    by rewrite Hc0, andb_false_r. }
  rewrite Hfin in Hun.
  assert (Hrest : forall r, r ∈ rest -> comp r <> Some c).
  { apply (IH (Single.body s r0)); [by apply single_body_inv|exact Hall| |exact Hun].
    by apply pending_step. }
  intros r Hr. apply elem_of_cons in Hr as [->|Hr]; [|by apply Hrest].
  intros Hcomp.
  assert (Hun' : text c ∉ Single.used_comp (Single.body s r0)).
  { intros Hin. apply Hun. by apply (proj2 (single_loop_mono _ rest)). }
  destruct (single_body_cases s r0)
    as [(_ & _ & E)|[(Hz & _)|[(_ & _ & _ & _ & E)|(Hu & Hn1 & _ & E)]]].
  - apply Hun'. rewrite E. cbn. rewrite Hcomp. cbn. set_solver.
  - done.
  - apply Hun'. rewrite E. cbn. rewrite Hcomp. cbn. set_solver.
  - rewrite Hcomp in Hu, Hn1. cbn in Hu, Hn1.
    destruct Hu as [Hu|Hu]; [|done].
    assert (Hb0 : Single.base_cnt s <> 0) by tauto.
    destruct (unused_when_nonzero bs _ _ Hnd Hsb Hnb Hb0) as (b' & Hb' & Hunb).
    destruct (Hpend b' c Hb' Hc Hunb Hun_s) as (r & Hr & Hrb & Hrc).
    apply elem_of_cons in Hr as [->|Hr].
    + rewrite Hrb in Hu. cbn in Hu. done.
    + by apply (Hrest r Hr).
Qed.

Lemma omap_snoc {A B} (f : A -> option B) (l : list A) (x : A) :
  omap f (l ++ [x]) = omap f l ++ match f x with Some y => [y] | None => [] end.
Proof. rewrite omap_app. cbn. by destruct (f x). Qed.

Lemma emitted_inv_nil side vs : emitted_inv side vs ∅ [].
Proof. repeat split; cbn; constructor. Qed.

Lemma emitted_inv_skip side vs used out e :
  emitted_inv side vs used out -> side e = None ->
  emitted_inv side vs used (out ++ [e]).
Proof.
  intros H He. unfold emitted_inv. rewrite omap_snoc, He, app_nil_r. exact H.
Qed.

Lemma emitted_inv_add side vs used out e v :
  emitted_inv side vs used out -> side e = Some v -> v ∈ vs -> text v ∉ used ->
  emitted_inv side vs ({[text v]} ∪ used) (out ++ [e]).
Proof.
  intros (Hused & Hnd & Hall) He Hv Hfresh. unfold emitted_inv.
  rewrite omap_snoc, He, fmap_app. cbn [fmap list_fmap].
  split; [|split].
  - rewrite list_to_set_app_L, <- Hused. cbn. set_solver.
  - apply NoDup_app. split; [exact Hnd|]. split; [|apply NoDup_singleton].
    intros k Hk Hk'. apply list_elem_of_singleton in Hk' as ->.
    apply Hfresh. rewrite Hused. by apply elem_of_list_to_set.
  - apply Forall_app. split; [exact Hall|]. by constructor.
Qed.

Lemma single_body_emitted bs cs s r :
  entry_of bs cs r ->
  emitted_inv base bs (Single.used_base s) (Single.ret s) ->
  emitted_inv comp cs (Single.used_comp s) (Single.ret s) ->
  emitted_inv base bs (Single.used_base (Single.body s r))
    (Single.ret (Single.body s r)) /\
  emitted_inv comp cs (Single.used_comp (Single.body s r))
    (Single.ret (Single.body s r)).
Proof.
  intros (b & c & Hb & Hc & Hbase & Hcomp) Eb Ec.
  destruct (single_body_cases s r)
    as [(_ & Huc & ->)|[(_ & Hub & _ & ->)|[(_ & _ & Hub & Huc & ->)|(_ & _ & _ & ->)]]];
    rewrite ?Hbase, ?Hcomp in *; cbn [str_entry] in *.
  - unfold Single.only_comp. cbv zeta.
    cbn [Single.ret Single.used_base Single.used_comp].
    change (comp (set_multi true (set_state false (set_base None r)))) with (comp r).
    rewrite Hcomp. cbn [str_entry]. split.
    + by apply emitted_inv_skip.
    + by apply emitted_inv_add.
  - unfold Single.only_base. cbv zeta.
    cbn [Single.ret Single.used_base Single.used_comp].
    change (base (set_multi true (set_state false (set_comp None r)))) with (base r).
    rewrite Hbase. cbn [str_entry]. split.
    + by apply emitted_inv_add.
    + by apply emitted_inv_skip.
  - unfold Single.write_both. cbv zeta.
    cbn [Single.ret Single.used_base Single.used_comp].
    rewrite Hbase, Hcomp. cbn [str_entry]. split; by apply emitted_inv_add.
  - by split.
Qed.

Lemma single_loop_emitted bs cs s l :
  Forall (entry_of bs cs) l ->
  emitted_inv base bs (Single.used_base s) (Single.ret s) ->
  emitted_inv comp cs (Single.used_comp s) (Single.ret s) ->
  emitted_inv base bs (Single.used_base (Single.loop s l))
    (Single.ret (Single.loop s l)) /\
  emitted_inv comp cs (Single.used_comp (Single.loop s l))
    (Single.ret (Single.loop s l)).
Proof.
  intros Hl. revert s. induction Hl as [|r l Hr _ IH]; intros s Eb Ec; cbn.
  - by split.
  - destruct (Single.finished s); [by split|].
    destruct (single_body_emitted bs cs s r Hr Eb Ec) as [Eb' Ec'].
    by apply IH.
Qed.

Lemma fmap_NoDup_inj {A B} (f : A -> B) (l : list A) x y :
  NoDup (f <$> l) -> x ∈ l -> y ∈ l -> f x = f y -> x = y.
Proof.
  intros Hnd Hx Hy Hxy.
  apply list_elem_of_lookup in Hx as [i Hi].
  apply list_elem_of_lookup in Hy as [j Hj].
  assert (i = j) as ->.
  { eapply (NoDup_lookup (f <$> l)); [exact Hnd| |];
      rewrite list_lookup_fmap; [by rewrite Hi|by rewrite Hj, Hxy]. }
  congruence.
Qed.

(** When every key of the side is used, the side's variants show exactly
    once each. *)
Lemma emitted_exactly_once side vs out :
  NoDup (text <$> vs) ->
  emitted_inv side vs (keys vs) out ->
  omap side out ≡ₚ vs.
Proof.
  intros Hnd (Hused & Hnd' & Hall).
  apply NoDup_Permutation.
  - by apply (NoDup_fmap_1 text).
  - by apply (NoDup_fmap_1 text).
  - intros x. split.
    + intros Hx. by eapply Forall_forall in Hall.
    + intros Hx. pose proof (text_in_keys x vs Hx) as Hk.
      rewrite Hused in Hk. apply elem_of_list_to_set in Hk.
      apply list_elem_of_fmap in Hk as (e & Hte & He).
      assert (e ∈ vs) by (by eapply Forall_forall in Hall).
      by rewrite (fmap_NoDup_inj text vs x e Hnd Hx H Hte).
Qed.

(** With distinct keys the walk ends with every key of both sides used. *)
Lemma single_walk_uses_all bs cs m :
  bs <> [] -> cs <> [] -> matrix_over bs cs m ->
  NoDup (text <$> bs) -> NoDup (text <$> cs) ->
  let final := Single.loop (Single.init m) (walk_order m) in
  Single.used_base final = keys bs /\ Single.used_comp final = keys cs /\
  emitted_inv base bs (Single.used_base final) (Single.ret final) /\
  emitted_inv comp cs (Single.used_comp final) (Single.ret final).
Proof.
  intros Hbs Hcs Hm Hndb Hndc final0. subst final0.
  destruct (walk_order_sorted m) as [Hperm _].
  assert (Hall : Forall (entry_of bs cs) (walk_order m)).
  { apply Forall_forall. intros r Hr. apply (matrix_over_entries bs cs m r Hm).
    by rewrite <- Hperm. }
  pose proof (single_init_inv bs cs m Hbs Hm) as Hinit.
  assert (Hpend : pending bs cs (Single.init m) (walk_order m)).
  { intros b c Hb Hc _ _.
    destruct (matrix_over_pairs bs cs m b c Hm Hb Hc) as (r & Hr & H).
    exists r. split; [by rewrite Hperm|exact H]. }
  set (final := Single.loop (Single.init m) (walk_order m)).
  pose proof (single_loop_inv bs cs _ _ Hinit Hall) as [Hsb Hsc _ _].
  fold final in Hsb, Hsc.
  assert (Hfull_b : Single.used_base final = keys bs).
  { apply set_eq. intros k. split; [apply Hsb|].
    unfold keys. rewrite elem_of_list_to_set. intros Hk.
    apply list_elem_of_fmap in Hk as (b & -> & Hb).
    destruct (decide (text b ∈ Single.used_base final)) as [|Hun]; [done|].
    exfalso. destruct cs as [|c0 cs']; [done|].
    destruct (Hpend b c0 Hb) as (r & Hr & Hrb & _);
      [apply list_elem_of_here|cbn; set_solver..|].
    eapply (single_no_base_left bs (c0 :: cs') b Hndc Hb (walk_order m));
      eauto. }
  assert (Hfull_c : Single.used_comp final = keys cs).
  { apply set_eq. intros k. split; [apply Hsc|].
    unfold keys. rewrite elem_of_list_to_set. intros Hk.
    apply list_elem_of_fmap in Hk as (c & -> & Hc).
    destruct (decide (text c ∈ Single.used_comp final)) as [|Hun]; [done|].
    exfalso. destruct bs as [|b0 bs']; [done|].
    destruct (Hpend b0 c) as (r & Hr & _ & Hrc);
      [apply list_elem_of_here|done|cbn; set_solver..|].
    eapply (single_no_comp_left (b0 :: bs') cs c Hndb Hc (walk_order m));
      eauto. }
  destruct (single_loop_emitted bs cs (Single.init m) (walk_order m) Hall)
    as [Eb Ec].
  { unfold Single.init. destruct (shape m). apply emitted_inv_nil. }
  { unfold Single.init. destruct (shape m). apply emitted_inv_nil. }
  fold final in Eb, Ec. auto.
Qed.

Lemma pick_single_matches_covers_main bs cs m :
  bs <> [] -> cs <> [] -> matrix_over bs cs m ->
  NoDup (text <$> bs) -> NoDup (text <$> cs) ->
  omap base (Single.pick_single_matches m) ≡ₚ bs /\
  omap comp (Single.pick_single_matches m) ≡ₚ cs.
Proof.
  intros Hbs Hcs Hm Hndb Hndc.
  destruct (single_walk_uses_all bs cs m Hbs Hcs Hm Hndb Hndc)
    as (Fb & Fc & Eb & Ec).
  rewrite Fb in Eb. rewrite Fc in Ec. unfold Single.pick_single_matches.
  split; by apply emitted_exactly_once.
Qed.

(** X12. When the texts of the base variants are pairwise distinct, and so
    are those of the comp variants, [pick_single_matches] accounts for
    every variant exactly once: the base sides of its output are the base
    variants of the array, each showing once, and likewise for the comp
    sides; and the loop ends with both remaining counts at zero. *)
Theorem pick_single_matches_covers bs cs m :
  bs <> [] -> cs <> [] -> matrix_over bs cs m ->
  NoDup (text <$> bs) -> NoDup (text <$> cs) ->
  let out := Single.pick_single_matches m in
  let final := Single.loop (Single.init m) (walk_order m) in
  omap base out ≡ₚ bs /\ omap comp out ≡ₚ cs /\
  Single.base_cnt final = 0 /\ Single.comp_cnt final = 0.
Proof.
  intros Hbs Hcs Hm Hndb Hndc out final.
  destruct (pick_single_matches_covers_main bs cs m Hbs Hcs Hm Hndb Hndc)
    as [Pb Pc].
  split; [exact Pb|]. split; [exact Pc|].
  destruct (single_walk_uses_all bs cs m Hbs Hcs Hm Hndb Hndc)
    as (Fb & Fc & _). fold final in Fb, Fc.
  assert (Hall : Forall (entry_of bs cs) (walk_order m)).
  { destruct (walk_order_sorted m) as [Hperm _].
    apply Forall_forall. intros r Hr. apply (matrix_over_entries bs cs m r Hm).
    by rewrite <- Hperm. }
  destruct (single_loop_inv bs cs _ _ (single_init_inv bs cs m Hbs Hm) Hall)
    as [_ _ Hnb Hnc]. fold final in Hnb, Hnc.
  rewrite Fb in Hnb. rewrite Fc in Hnc. unfold keys in Hnb, Hnc.
  rewrite size_list_to_set, length_fmap in Hnb by exact Hndb.
  rewrite size_list_to_set, length_fmap in Hnc by exact Hndc.
  split; lia.
Qed.

Lemma pick_single_matches_covers_witness :
  omap base (Single.pick_single_matches (one_by_two 1 1)) ≡ₚ [ins_100] /\
  omap comp (Single.pick_single_matches (one_by_two 1 1)) ≡ₚ [ins_100; ins_101].
Proof.
  assert (H1 : [ins_100] <> []) by discriminate.
  assert (H2 : [ins_100; ins_101] <> []) by discriminate.
  assert (H3 : matrix_over [ins_100] [ins_100; ins_101] (one_by_two 1 1))
    by (repeat constructor).
  assert (H4 : NoDup (text <$> [ins_100])).
  { apply NoDup_singleton. }
  assert (H5 : NoDup (text <$> [ins_100; ins_101])).
  { apply NoDup_cons. split; [|apply NoDup_singleton].
    intros H. apply list_elem_of_singleton in H. vm_compute in H. discriminate H. }
  destruct (pick_single_matches_covers [ins_100] [ins_100; ins_101]
              (one_by_two 1 1) H1 H2 H3 H4 H5) as (Pb & Pc & _).
  exact (conj Pb Pc).
Defined.

(** ** [compare_chunk] *)

Lemma Forall2_imap {A B} (P : A -> B -> Prop) (f : nat -> A -> B) (l : list A) :
  (forall i x, l !! i = Some x -> P x (f i x)) -> Forall2 P l (imap f l).
Proof.
  revert f. induction l as [|x l IH]; intros f H; cbn; constructor.
  - by apply (H 0%nat).
  - apply IH. intros i y Hy. by apply (H (S i)).
Qed.

Lemma omap_imap_all {A B} (g : B -> option A) (f : nat -> A -> B) (l : list A) :
  (forall i x, g (f i x) = Some x) -> omap g (imap f l) = l.
Proof.
  revert f. induction l as [|x l IH]; intros f H; cbn; [done|].
  rewrite H. cbn. f_equal. apply IH. intros i y. apply H.
Qed.

Lemma omap_imap_none {A B C} (g : B -> option C) (f : nat -> A -> B) (l : list A) :
  (forall i x, g (f i x) = None) -> omap g (imap f l) = [].
Proof.
  revert f. induction l as [|x l IH]; intros f H; cbn; [done|].
  rewrite H. apply IH. intros i y. apply H.
Qed.

(** For a scorer that pairs its arguments, the array [build_matrix] returns
    pairs base [i] with comp [j] at entry [(i, j)]. *)
Lemma build_matrix_matrix_over bs cs build_match chunk_id :
  pairs_its_arguments build_match -> bs <> [] -> cs <> [] ->
  exists m, build_matrix bs cs build_match chunk_id = AsArray m /\
            matrix_over bs cs m.
Proof.
  intros Hbm Hbs Hcs. unfold build_matrix.
  destruct bs as [|b0 bs']; [done|]. destruct cs as [|c0 cs']; [done|].
  cbn [length Nat.eqb]. eexists. split; [reflexivity|].
  apply Forall2_imap. intros i b _. apply Forall2_imap. intros j c _.
  apply Hbm.
Qed.

(** X13. Under the default policy, for a scorer that pairs its arguments and
    a chunk whose base texts are pairwise distinct and whose comp texts are
    pairwise distinct, [compare_chunk] accounts for every variant of the
    chunk exactly once, also when one side of the chunk is empty. *)
Theorem compare_chunk_single_covers bs cs build_match chunk_id :
  pairs_its_arguments build_match ->
  NoDup (text <$> bs) -> NoDup (text <$> cs) ->
  let out := compare_chunk bs cs build_match false false chunk_id in
  omap base out ≡ₚ bs /\ omap comp out ≡ₚ cs.
Proof.
  intros Hbm Hndb Hndc out. subst out. unfold compare_chunk.
  destruct bs as [|b0 bs'].
  { unfold build_matrix. cbn [length Nat.eqb].
    rewrite omap_imap_none by reflexivity.
    rewrite omap_imap_all by reflexivity. done. }
  destruct cs as [|c0 cs'].
  { unfold build_matrix. cbn [length Nat.eqb].
    rewrite omap_imap_all by reflexivity.
    rewrite omap_imap_none by reflexivity. done. }
  destruct (build_matrix_matrix_over (b0 :: bs') (c0 :: cs') build_match chunk_id)
    as (m & -> & Hm); [done..|].
  unfold pick_matches. by apply pick_single_matches_covers_main.
Qed.

Lemma sample_build_match_pairs : pairs_its_arguments sample_build_match.
Proof. intros b c id. split; reflexivity. Defined.

Lemma compare_chunk_single_covers_witness :
  omap base (compare_chunk [ins_100] [ins_100; ins_101] sample_build_match
               false false 0) ≡ₚ [ins_100] /\
  omap comp (compare_chunk [ins_100] [ins_100; ins_101] sample_build_match
               false false 0) ≡ₚ [ins_100; ins_101].
Proof.
  assert (H4 : NoDup (text <$> [ins_100])).
  { apply NoDup_singleton. }
  assert (H5 : NoDup (text <$> [ins_100; ins_101])).
  { apply NoDup_cons. split; [|apply NoDup_singleton].
    intros H. apply list_elem_of_singleton in H. vm_compute in H. discriminate H. }
  exact (compare_chunk_single_covers [ins_100] [ins_100; ins_101]
           sample_build_match 0 sample_build_match_pairs H4 H5).
Defined.

Lemma single_body_has_side s r :
  (exists b c, base r = Some b /\ comp r = Some c) ->
  Forall has_side (Single.ret s) ->
  Forall has_side (Single.ret (Single.body s r)).
Proof.
  intros (b & c & Hb & Hc) Hs.
  destruct (single_body_cases s r)
    as [(_ & _ & ->)|[(_ & _ & _ & ->)|[(_ & _ & _ & _ & ->)|(_ & _ & _ & ->)]]];
    [| | |exact Hs]; cbn [Single.ret Single.only_comp Single.only_base
                          Single.write_both];
    (apply Forall_app; split; [exact Hs|]); apply Forall_singleton;
    unfold has_side.
  - right. change (comp (set_multi true (set_state false (set_base None r))))
      with (comp r). by rewrite Hc.
  - left. change (base (set_multi true (set_state false (set_comp None r))))
      with (base r). by rewrite Hb.
  - left. by rewrite Hb.
Qed.

Lemma single_loop_has_side s l :
  Forall (fun r => exists b c, base r = Some b /\ comp r = Some c) l ->
  Forall has_side (Single.ret s) ->
  Forall has_side (Single.ret (Single.loop s l)).
Proof.
  intros Hl. revert s. induction Hl as [|r l Hr _ IH]; intros s Hs; cbn.
  - exact Hs.
  - destruct (Single.finished s); [exact Hs|].
    by apply IH, single_body_has_side.
Qed.

Lemma gt_loop_has_side_sides s l :
  Forall (fun r => exists b c, base r = Some b /\ comp r = Some c) l ->
  Forall has_side (GtComp.ret s) ->
  Forall has_side (GtComp.ret (GtComp.loop s l)).
Proof.
  intros Hl. revert s. induction Hl as [|r l Hr _ IH]; intros s Hs; cbn.
  - exact Hs.
  - destruct (GtComp.finished s); [exact Hs|].
    by apply IH, gt_body_has_side.
Qed.

Lemma walk_order_sides bs cs m :
  matrix_over bs cs m ->
  Forall (fun r => exists b c, base r = Some b /\ comp r = Some c) (walk_order m).
Proof.
  intros Hm. destruct (walk_order_sorted m) as [Hperm _].
  apply Forall_forall. intros r Hr. rewrite Hperm in Hr.
  destruct (matrix_over_entries bs cs m r Hm Hr) as (b & c & _ & _ & Hb & Hc).
  eauto.
Qed.

Lemma pick_multi_matches_has_side bs cs m :
  matrix_over bs cs m -> Forall has_side (pick_multi_matches m).
Proof.
  intros Hm. unfold pick_multi_matches. apply Forall_app. split.
  - apply Forall_forall. intros e He.
    apply list_elem_of_fmap in He as (r & -> & Hr).
    unfold max_axis1 in Hr. apply list_elem_of_omap in Hr as (row & Hrow & Hmax).
    destruct (np_max_tops row r Hmax) as [Hin _].
    destruct (matrix_over_entries bs cs m r Hm) as (b & c & _ & _ & Hb & _).
    { unfold ravel. apply list_elem_of_In, in_concat. exists row.
      split; by apply list_elem_of_In. }
    left. change (base (set_comp None r)) with (base r). by rewrite Hb.
  - apply Forall_forall. intros e He.
    apply list_elem_of_fmap in He as (r & -> & Hr).
    unfold max_axis0 in Hr. apply list_elem_of_omap in Hr as (j & _ & Hmax).
    destruct (np_max_tops _ r Hmax) as [Hin _].
    unfold column in Hin. apply list_elem_of_omap in Hin as (row & Hrow & Hj).
    destruct (matrix_over_entries bs cs m r Hm) as (b & c & _ & _ & _ & Hc).
    { unfold ravel. apply list_elem_of_In, in_concat. exists row.
      split; apply list_elem_of_In; [exact Hrow|].
      apply list_elem_of_lookup. eauto. }
    right. change (comp (set_base None r)) with (comp r). by rewrite Hc.
Qed.

(** X14. Whatever the policy (multi-match, genotype-aware or single best),
    for a scorer that pairs its arguments every record [compare_chunk]
    returns has at least one side set. *)
Theorem compare_chunk_has_side bs cs build_match multimatch gtcomp chunk_id :
  pairs_its_arguments build_match ->
  Forall has_side (compare_chunk bs cs build_match multimatch gtcomp chunk_id).
Proof.
  intros Hbm. unfold compare_chunk.
  destruct bs as [|b0 bs'].
  { unfold build_matrix. cbn [length Nat.eqb].
    apply Forall_forall. intros e He.
    apply elem_of_lookup_imap in He as (i & c & -> & _). by right. }
  destruct cs as [|c0 cs'].
  { unfold build_matrix. cbn [length Nat.eqb].
    apply Forall_forall. intros e He.
    apply elem_of_lookup_imap in He as (i & b & -> & _). by left. }
  destruct (build_matrix_matrix_over (b0 :: bs') (c0 :: cs') build_match chunk_id)
    as (m & -> & Hm); [done..|].
  unfold pick_matches. destruct multimatch; [|destruct gtcomp].
  - by eapply pick_multi_matches_has_side.
  - unfold GtComp.pick_gtcomp_matches.
    apply gt_loop_has_side_sides; [by eapply walk_order_sides|].
    unfold GtComp.init. destruct (shape m). constructor.
  - unfold Single.pick_single_matches.
    apply single_loop_has_side; [by eapply walk_order_sides|].
    unfold Single.init. destruct (shape m). constructor.
Qed.

Lemma compare_chunk_has_side_witness :
  Forall has_side
    (compare_chunk [ins_100] [ins_100; ins_101] sample_build_match true false 0).
Proof.
  exact (compare_chunk_has_side [ins_100] [ins_100; ins_101] sample_build_match
           true false 0 sample_build_match_pairs).
Defined.

(** ** The repeat annotator: the comparator *)

(** X15. [compare_scores] writes to its second argument only when the two
    motifs tie on overlap and on score, and then it overwrites that
    argument's ['end'] with its ['start'].  Without such a tie the second
    argument is left alone, the result is 1 or -1, and swapping the
    arguments negates it. *)
Theorem compare_scores_writes_only_on_tie a b :
  (ties a b ->
   snd (TRF.compare_scores a b) = TRF.set_end (TRF.m_start (TRF.anno b)) b) /\
  (~ ties a b ->
   snd (TRF.compare_scores a b) = b /\
   (fst (TRF.compare_scores a b) = 1 \/ fst (TRF.compare_scores a b) = -1) /\
   fst (TRF.compare_scores b a) = - fst (TRF.compare_scores a b)).
Proof.
  unfold ties, TRF.compare_scores. split.
  - intros [Hq Hs].
    destruct (Qlt_le_dec (TRF.ovl_pct b) (TRF.ovl_pct a)) as [H|_].
    { rewrite Hq in H. by apply Qlt_irrefl in H. }
    destruct (Qlt_le_dec (TRF.ovl_pct a) (TRF.ovl_pct b)) as [H|_].
    { rewrite Hq in H. by apply Qlt_irrefl in H. }
    rewrite Hs, Z.ltb_irrefl. cbv zeta.
    repeat match goal with |- context [if ?c then _ else _] => destruct c end;
      reflexivity.
  - intros Hnt.
    destruct (Qlt_le_dec (TRF.ovl_pct b) (TRF.ovl_pct a)) as [H1|H1];
      destruct (Qlt_le_dec (TRF.ovl_pct a) (TRF.ovl_pct b)) as [H2|H2];
      cbn [fst snd].
    + exfalso. apply (Qlt_irrefl (TRF.ovl_pct a)). by eapply Qlt_trans.
    + auto.
    + repeat apply conj; auto.
    + assert (Hq : (TRF.ovl_pct a == TRF.ovl_pct b)%Q) by (by apply Qle_antisym).
      destruct (Z.ltb_spec (TRF.score (TRF.anno b)) (TRF.score (TRF.anno a)));
        destruct (Z.ltb_spec (TRF.score (TRF.anno a)) (TRF.score (TRF.anno b)));
        cbn [fst snd]; try lia; auto.
      exfalso. apply Hnt. split; [exact Hq|lia].
Qed.

Lemma compare_scores_writes_only_on_tie_witness :
  snd (TRF.compare_scores
         {| TRF.anno := motif_at_100_140; TRF.ovl_pct := 1 # 3; TRF.diff := 0 |}
         {| TRF.anno := motif_gc_130_150; TRF.ovl_pct := 1 # 3; TRF.diff := 0 |})
  = TRF.set_end 130
      {| TRF.anno := motif_gc_130_150; TRF.ovl_pct := 1 # 3; TRF.diff := 0 |}.
Proof.
  apply (proj1 (compare_scores_writes_only_on_tie
           {| TRF.anno := motif_at_100_140; TRF.ovl_pct := 1 # 3; TRF.diff := 0 |}
           {| TRF.anno := motif_gc_130_150; TRF.ovl_pct := 1 # 3; TRF.diff := 0 |})).
  split; reflexivity.
Defined.

(** ** The repeat annotator: raising and exiting *)

Lemma del_scores_outcome var_start var_end svlen motifs :
  (zero_period_hit var_start var_end motifs /\
   TRF.del_scores var_start var_end svlen motifs = Raise ZeroDivisionError) \/
  (~ zero_period_hit var_start var_end motifs /\
   exists scores, TRF.del_scores var_start var_end svlen motifs = Ret scores).
Proof.
  unfold zero_period_hit.
  induction motifs as [|a rest IH]; cbn [TRF.del_scores].
  - right. split; [by intros H%Exists_nil|by eexists].
  - destruct (Qeq_bool _ 0) eqn:Hovl.
    + apply Qeq_bool_iff in Hovl.
      destruct IH as [[Hx E]|[Hn [scores E]]].
      * left. split; [by right|exact E].
      * right. split; [|by eexists].
        intros H%Exists_cons. destruct H as [[H _]|H]; [by apply H|by apply Hn].
    + assert (Hne : ~ (TRF.overlap_percent var_start var_end (TRF.m_start a)
                         (TRF.m_end a) == 0)%Q).
      { intros H%Qeq_bool_iff. congruence. }
      destruct (Z.eqb_spec (TRF.period a) 0) as [Hp|Hp].
      * left. split; [by left|reflexivity].
      * destruct IH as [[Hx E]|[Hn [scores E]]].
        -- left. split; [by right|]. by rewrite E.
        -- right. split.
           ++ intros H%Exists_cons. destruct H as [[_ H]|H]; [done|by apply Hn].
           ++ rewrite E. by eexists.
Qed.

(** X16. [del_annotator] raises ZeroDivisionError exactly when some motif of
    the region overlaps the deletion and has a zero period; otherwise it
    returns.  It never exits the process. *)
Theorem del_annotator_raises_iff self entry svlen :
  let hit := zero_period_hit (start entry) (stop entry)
               (TRF.annos (TRF.region self)) in
  (hit <-> TRF.del_annotator self entry svlen = Raise ZeroDivisionError) /\
  (~ hit <-> exists r, TRF.del_annotator self entry svlen = Ret r).
Proof.
  intros hit. unfold TRF.del_annotator.
  destruct (del_scores_outcome (start entry) (stop entry) svlen
              (TRF.annos (TRF.region self))) as [[Hx E]|[Hn [scores E]]];
    fold hit in Hx || fold hit in Hn; rewrite E; cbn.
  - split; [tauto|]. split; [tauto|]. intros [r Hr]. discriminate.
  - split; [|split; [by eexists|tauto]].
    split; [tauto|discriminate].
Qed.

(** ** [TRFAnno.annotate] as a whole *)

Lemma info_set_same_record key value entry :
  same_record (info_set key value entry) entry.
Proof. repeat split. Qed.

Lemma same_record_trans a b c : same_record a b -> same_record b c -> same_record a c.
Proof. unfold same_record. intuition congruence. Qed.

Lemma ins_annotator_returns self entry :
  exists r, TRF.ins_annotator self entry = Ret r.
Proof. unfold TRF.ins_annotator, TRF.make_seq. cbn. by eexists. Qed.

(** X17. [annotate] touches nothing but the eight TRF keys of INFO: every
    other INFO key and every other attribute of the entry is as before.
    The call never exits the process, and it can only raise for a deletion
    of at least [min_length] that overlaps a motif with a zero period. *)
Theorem annotate_touches_only_trf_keys self entry min_length :
  let after := fst (TRF.annotate self entry min_length) in
  let ending := snd (TRF.annotate self entry min_length) in
  same_record after entry /\
  (forall key, key ∉ trf_info_keys -> info after !! key = info entry !! key) /\
  (ending = Ret tt \/
   (ending = Raise ZeroDivisionError /\ entry_variant_type entry = DEL /\
    min_length <= entry_size entry /\
    zero_period_hit (start entry) (stop entry) (TRF.annos (TRF.region self)))).
Proof.
  intros after ending. subst after ending. unfold TRF.annotate. cbv zeta.
  set (e' := info_set "TRF" (PyBool true) entry).
  assert (Hflag : forall key, key ∉ trf_info_keys -> info e' !! key = info entry !! key).
  { intros key Hk. apply info_set_ne. intros <-. apply Hk. set_solver. }
  assert (Hall : forall key r, key ∉ trf_info_keys ->
            info (info_set "TRFrepeat" (PyStr (TRF.repeat (TRF.anno r)))
                 (info_set "TRFentropy" (PyFloat (TRF.entropy (TRF.anno r)))
                 (info_set "TRFscore" (PyInt (TRF.score (TRF.anno r)))
                 (info_set "TRFcopies" (PyFloat (TRF.copies (TRF.anno r)))
                 (info_set "TRFperiod" (PyInt (TRF.period (TRF.anno r)))
                 (info_set "TRFdiff" (PyFloat (py_round (TRF.diff r) 1))
                 (info_set "TRFovl" (PyFloat (py_round (TRF.ovl_pct r) 3)) e')))))))
              !! key = info entry !! key).
  { intros key r Hk. rewrite <- (Hflag key Hk).
    assert (Hne : Forall (fun k => k <> key) trf_info_keys).
    { apply Forall_forall. intros k Hin ->. done. }
    unfold trf_info_keys in Hne.
    repeat (apply Forall_cons in Hne as [? Hne]).
    by rewrite !info_set_ne. }
  destruct (Z.ltb_spec (entry_size entry) min_length) as [Hlt|Hge].
  { cbn [fst snd]. split; [apply info_set_same_record|]. split; [exact Hflag|by left]. }
  destruct (entry_variant_type entry) eqn:Ety; cbv beta iota.
  - (* INS *)
    destruct (ins_annotator_returns self e') as [[r|] ->]; cbn [fst snd].
    + split; [repeat split|]. split; [|by left]. intros key Hk. by apply Hall.
    + split; [apply info_set_same_record|]. split; [exact Hflag|by left].
  - (* DEL *)
    unfold TRF.del_annotator.
    change (start e') with (start entry). change (stop e') with (stop entry).
    destruct (del_scores_outcome (start entry) (stop entry) (entry_size entry)
                (TRF.annos (TRF.region self))) as [[Hx E]|[Hn [scores E]]];
      rewrite E; cbn [mbind Py_bind py_bind].
    + cbn [fst snd]. split; [apply info_set_same_record|].
      split; [exact Hflag|right; auto].
    + destruct (TRF.best_score scores) as [r|]; cbn [fst snd].
      * split; [repeat split|]. split; [|by left]. intros key Hk. by apply Hall.
      * split; [apply info_set_same_record|]. split; [exact Hflag|by left].
  - cbn [fst snd]. split; [apply info_set_same_record|]. split; [exact Hflag|by left].
  - cbn [fst snd]. split; [apply info_set_same_record|]. split; [exact Hflag|by left].
  - cbn [fst snd]. split; [apply info_set_same_record|]. split; [exact Hflag|by left].
Qed.

(** X18. A variant that is neither an insertion nor a deletion only ever
    gets the TRF flag, whatever its size; so does an insertion for whose
    haplotype the tandem-repeat tool reports nothing (as when its invocation
    fails and [run_trf] returns an empty list). *)
Theorem annotate_flag_only self entry min_length :
  (entry_variant_type entry <> INS -> entry_variant_type entry <> DEL ->
   TRF.annotate self entry min_length = (info_set "TRF" (PyBool true) entry, Ret tt)) /\
  (entry_variant_type entry = INS ->
   (forall m_seq, TRF.make_seq self entry INS = Ret m_seq ->
                  TRF.run_trf self m_seq = []) ->
   TRF.annotate self entry min_length = (info_set "TRF" (PyBool true) entry, Ret tt)).
Proof.
  unfold TRF.annotate. cbv zeta. split.
  - intros H1 H2. destruct (entry_size entry <? min_length); [reflexivity|].
    destruct (entry_variant_type entry); done.
  - intros Hins Htool. destruct (entry_size entry <? min_length); [reflexivity|].
    rewrite Hins. unfold TRF.ins_annotator, TRF.make_seq.
    cbn [mbind Py_bind py_bind]. erewrite Htool; reflexivity.
Qed.

Lemma annotate_flag_only_witness :
  TRF.annotate (anno_of [motif_at_100_200]) ins_100 1 =
  (info_set "TRF" (PyBool true) ins_100, Ret tt).
Proof.
  apply (proj2 (annotate_flag_only (anno_of [motif_at_100_200]) ins_100 1));
    [reflexivity|intros m_seq _; reflexivity].
Defined.

(** ** [TRFAnno.__init__]: the known motifs *)

Lemma make_known_motifs_acc (l : list TRF.Motif) (acc : gmap string Q) k :
  fold_left (fun m a => <[TRF.repeat a := TRF.copies a]> m) l acc !! k =
  match last (filter (fun a => TRF.repeat a = k) l) with
  | Some a => Some (TRF.copies a)
  | None => acc !! k
  end.
Proof.
  revert acc. induction l as [|a l IH] using rev_ind; intros acc; [done|].
  rewrite fold_left_app, filter_app. cbn [fold_left].
  rewrite filter_cons, filter_nil.
  destruct (decide (TRF.repeat a = k)) as [<-|Hne].
  - by rewrite last_snoc, lookup_insert_eq.
  - rewrite app_nil_r, lookup_insert_ne by done. apply IH.
Qed.

(** X19. The table of known motifs maps a repeat to the copies of the last
    motif of the region that carries it, and has no entry for a repeat that
    no motif of the region carries. *)
Theorem make_known_motifs_last_wins region k :
  TRF.make_known_motifs region !! k =
  TRF.copies <$> last (filter (fun a => TRF.repeat a = k) (TRF.annos region)).
Proof.
  unfold TRF.make_known_motifs. rewrite make_known_motifs_acc.
  destruct (last _); [reflexivity|]. apply lookup_empty.
Qed.

(** ** [check_params] of the repeat annotator *)

(** X20. The repeat annotator's [check_params] runs all six checks.  When
    none fails it returns and logs nothing; otherwise it logs the line of
    every failing check in source order, then "Please fix parameters", and
    exits with code 1. *)
Theorem trf_check_params_outcome w args log :
  let failed := snd <$> filter (fun x => Is_true (fst x)) (TrfCli.checks w args) in
  (existsb fst (TrfCli.checks w args) = false ->
   TrfCli.check_params w args log = (Ret tt, log)) /\
  (existsb fst (TrfCli.checks w args) = true ->
   TrfCli.check_params w args log =
   (SysExit 1, (log ++ failed) ++ ["Please fix parameters"])).
Proof.
  intros failed.
  assert (E : TrfCli.check_params w args log =
              (run_checks (TrfCli.checks w args) false ≫=
                 (fun check_fail : bool =>
                    if check_fail
                    then _ ← Cli.logging_error "Please fix parameters"; Cli.sys_exit 1
                    else mret tt)) log).
  { unfold TrfCli.check_params, TrfCli.checks. cbv zeta.
    unfold run_checks, mbind, Cli.Logged_bind, Cli.check.
    repeat match goal with
           | |- context [if ?c then _ else _] =>
               lazymatch c with
               | negb _ => destruct c
               | _ && _ => destruct c
               end
           end; reflexivity. }
  rewrite E. clear E. subst failed.
  generalize (TrfCli.checks w args). intros cs.
  assert (F : (run_checks cs false ≫=
                 (fun check_fail : bool =>
                    if check_fail
                    then _ ← Cli.logging_error "Please fix parameters"; Cli.sys_exit 1
                    else mret tt)) log =
              if existsb fst cs
              then (SysExit 1,
                    (log ++ (snd <$> filter (fun x => Is_true (fst x)) cs))
                    ++ ["Please fix parameters"])
              else (Ret tt, log ++ (snd <$> filter (fun x => Is_true (fst x)) cs))).
  { unfold mbind at 1. unfold Cli.Logged_bind at 1.
    rewrite run_checks_spec. cbn [orb]. by destruct (existsb fst cs). }
  rewrite F.
  destruct (existsb fst cs) eqn:Hx; split; intros Hc; try discriminate Hc.
  - reflexivity.
  - apply failed_messages_nil in Hx. rewrite Hx. by rewrite app_nil_r.
Qed.

Lemma trf_check_params_outcome_witness :
  TrfCli.check_params
    {| TrfCli.exists_ := fun _ => true; TrfCli.which := fun _ => false |}
    {| TrfCli.input := "calls.vcf.gz"; TrfCli.repeats := "repeats.bed.gz";
       TrfCli.executable := "trf409.linux64" |} []
  = (SysExit 1, ["trf409.linux64 not found in path"; "Please fix parameters"]).
Proof.
  apply (proj2 (trf_check_params_outcome
           {| TrfCli.exists_ := fun _ => true; TrfCli.which := fun _ => false |}
           {| TrfCli.input := "calls.vcf.gz"; TrfCli.repeats := "repeats.bed.gz";
              TrfCli.executable := "trf409.linux64" |} [])).
  vm_compute. reflexivity.
Defined.

(** ** The genotype-aware picker on heterozygous calls *)

Lemma side_sim_mark cnt used key v :
  side_sim cnt used -> 0 < v -> side_sim (<[key := v]> cnt) ({[key]} ∪ used).
Proof.
  intros H Hv k. destruct (decide (key = k)) as [->|Hne].
  - rewrite count_insert_eq. split; [lia|]. split; [lia|set_solver].
  - rewrite count_insert_ne by done. destruct (H k) as [H0 Hiff].
    split; [exact H0|]. rewrite <- Hiff. set_solver.
Qed.

Lemma het_body_sim g s r :
  het_sim g s -> het_entry r -> het_sim (GtComp.body g r) (Single.body s r).
Proof.
  intros (Hret & Hbc & Hcc & Sb & Sc) ((b & c & Hb & Hc) & Gb & Gc).
  assert (Hbu : (str_entry (base r) ∈ Single.used_base s /\
                 1 <= GtComp.count (GtComp.used_base g) (str_entry (base r))) \/
                (str_entry (base r) ∉ Single.used_base s /\
                 GtComp.count (GtComp.used_base g) (str_entry (base r)) = 0)).
  { destruct (Sb (str_entry (base r))) as [H0 Hi].
    destruct (decide (str_entry (base r) ∈ Single.used_base s)) as [Hin|Hnin].
    - left. split; [exact Hin|]. apply Hi in Hin. lia.
    - right. split; [exact Hnin|].
      destruct (decide (GtComp.count (GtComp.used_base g) (str_entry (base r)) = 0));
        [done|]. exfalso. by apply Hnin, Hi. }
  assert (Hcu : (str_entry (comp r) ∈ Single.used_comp s /\
                 1 <= GtComp.count (GtComp.used_comp g) (str_entry (comp r))) \/
                (str_entry (comp r) ∉ Single.used_comp s /\
                 GtComp.count (GtComp.used_comp g) (str_entry (comp r)) = 0)).
  { destruct (Sc (str_entry (comp r))) as [H0 Hi].
    destruct (decide (str_entry (comp r) ∈ Single.used_comp s)) as [Hin|Hnin].
    - left. split; [exact Hin|]. apply Hi in Hin. lia.
    - right. split; [exact Hnin|].
      destruct (decide (GtComp.count (GtComp.used_comp g) (str_entry (comp r)) = 0));
        [done|]. exfalso. by apply Hnin, Hi. }
  destruct (gt_body_cases g r) as [Hg|[Hg|[Hg|Hg]]];
    destruct (single_body_cases s r) as [Hs|[Hs|[Hs|Hs]]];
    rewrite ?Gb, ?Gc, ?Hbc, ?Hcc in Hg;
    try (exfalso; destruct Hbu as [[? ?]|[? ?]]; destruct Hcu as [[? ?]|[? ?]];
         intuition lia).
  - (* only the comp *)
    destruct Hg as (_ & Hu & ->). destruct Hs as (_ & _ & ->).
    assert (Hz : GtComp.count (GtComp.used_comp g) (str_entry (comp r)) = 0)
      by (destruct Hcu as [[? ?]|[? ?]]; lia).
    unfold GtComp.only_comp, Single.only_comp. cbv zeta.
    rewrite Hz. cbn [Z.eqb].
    change (comp (set_multi true (set_state false (set_base None r)))) with (comp r).
    split; [cbn; congruence|]. split; [cbn; lia|]. split; [cbn; lia|].
    split; [exact Sb|apply side_sim_mark; [exact Sc|lia]].
  - (* only the base *)
    destruct Hg as (_ & Hu & _ & ->). destruct Hs as (_ & _ & _ & ->).
    assert (Hz : GtComp.count (GtComp.used_base g) (str_entry (base r)) = 0)
      by (destruct Hbu as [[? ?]|[? ?]]; lia).
    unfold GtComp.only_base, Single.only_base. cbv zeta.
    rewrite Hz. cbn [Z.eqb].
    change (base (set_multi true (set_state false (set_comp None r)))) with (base r).
    split; [cbn; congruence|]. split; [cbn; lia|]. split; [cbn; lia|].
    split; [apply side_sim_mark; [exact Sb|lia]|exact Sc].
  - (* both *)
    destruct Hg as (_ & _ & Hu1 & Hu2 & ->). destruct Hs as (_ & _ & _ & _ & ->).
    assert (Hz1 : GtComp.count (GtComp.used_base g) (str_entry (base r)) = 0)
      by (destruct Hbu as [[? ?]|[? ?]]; lia).
    assert (Hz2 : GtComp.count (GtComp.used_comp g) (str_entry (comp r)) = 0)
      by (destruct Hcu as [[? ?]|[? ?]]; lia).
    unfold GtComp.write_both, Single.write_both. cbv zeta.
    rewrite Hz1, Hz2, !count_insert_eq, Gb, Gc.
    change (0 =? 0) with true. change (1 <=? 0 + 1) with true. cbn [negb].
    rewrite Hb.
    split; [cbn; congruence|]. split; [cbn; lia|]. split; [cbn; lia|].
    split; apply side_sim_mark; (exact Sb || exact Sc || lia).
  - (* neither *)
    destruct Hg as (_ & _ & _ & ->). destruct Hs as (_ & _ & _ & ->).
    exact (conj Hret (conj Hbc (conj Hcc (conj Sb Sc)))).
Qed.

Lemma het_loop_sim g s l :
  het_sim g s -> Forall het_entry l ->
  het_sim (GtComp.loop g l) (Single.loop s l).
Proof.
  intros Hsim Hl. revert g s Hsim.
  induction Hl as [|r l Hr _ IH]; intros g s Hsim; cbn; [exact Hsim|].
  assert (GtComp.finished g = Single.finished s) as ->.
  { destruct Hsim as (_ & Hb & Hc & _).
    unfold GtComp.finished, Single.finished. by rewrite Hb, Hc. }
  destruct (Single.finished s); [exact Hsim|].
  by apply IH, het_body_sim.
Qed.

(** X21. On an array whose calls are all heterozygous (allele count 1 on
    both sides of every entry), the genotype-aware picker returns exactly
    what the single-best picker returns. *)
Theorem pick_gtcomp_matches_het_is_single m :
  Forall het_entry (ravel m) ->
  GtComp.pick_gtcomp_matches m = Single.pick_single_matches m.
Proof.
  intros Hm.
  assert (Hall : Forall het_entry (walk_order m)).
  { destruct (walk_order_sorted m) as [Hperm _].
    apply Forall_forall. intros r Hr. eapply Forall_forall in Hm; [exact Hm|].
    by rewrite <- Hperm. }
  unfold GtComp.pick_gtcomp_matches, Single.pick_single_matches.
  apply (het_loop_sim (GtComp.init m) (Single.init m) (walk_order m)); [|exact Hall].
  unfold GtComp.init, Single.init. destruct (shape m).
  repeat split; cbn; unfold GtComp.count; rewrite ?lookup_empty; cbn;
    try lia; try done; set_solver.
Qed.

Lemma pick_gtcomp_matches_het_is_single_witness :
  GtComp.pick_gtcomp_matches (one_by_two 1 1)
  = Single.pick_single_matches (one_by_two 1 1).
Proof.
  apply pick_gtcomp_matches_het_is_single.
  assert (H : forall c id, het_entry (scored_pair ins_100 c true 1 1 id)).
  { intros c id. split; [by exists ins_100, c|]. split; reflexivity. }
  unfold one_by_two, ravel. cbn [concat app].
  constructor; [apply H|]. constructor; [apply H|]. constructor.
Defined.

(** ** The sort of the candidates *)

Lemma rank_le_refl a : rank_le a a.
Proof. right. split; [reflexivity|lia]. Qed.

Lemma rank_le_trans a b c : rank_le a b -> rank_le b c -> rank_le a c.
Proof.
  intros [H1|[E1 S1]] [H2|[E2 S2]].
  - left. eapply Qlt_trans; eassumption.
  - left. rewrite <- E2. exact H1.
  - left. rewrite E1. exact H2.
  - right. split; [rewrite E1; exact E2|lia].
Qed.

Lemma end_clobbered_keys a b :
  end_clobbered a b ->
  TRF.ovl_pct b = TRF.ovl_pct a /\
  TRF.score (TRF.anno b) = TRF.score (TRF.anno a) /\
  TRF.diff b = TRF.diff a.
Proof. intros [->| ->]; repeat split. Qed.

Lemma end_clobbered_again a b :
  end_clobbered a b ->
  end_clobbered a (TRF.set_end (TRF.m_start (TRF.anno b)) b).
Proof. intros [->| ->]; right; reflexivity. Qed.

(** The comparator's answer agrees with the ranking, and it leaves its
    second argument alone or overwrites its ['end']. *)
Lemma compare_scores_rank a b :
  (fst (TRF.compare_scores a b) <? 0 = true -> rank_le a b) /\
  (fst (TRF.compare_scores a b) <? 0 = false -> rank_le b a) /\
  end_clobbered b (snd (TRF.compare_scores a b)).
Proof.
  unfold TRF.compare_scores.
  destruct (Qlt_le_dec (TRF.ovl_pct b) (TRF.ovl_pct a)) as [H1|H1].
  { cbn. split; [discriminate|]. split; [by left|by left]. }
  destruct (Qlt_le_dec (TRF.ovl_pct a) (TRF.ovl_pct b)) as [H2|H2].
  { cbn. split; [by left|]. split; [discriminate|by left]. }
  assert (E : (TRF.ovl_pct a == TRF.ovl_pct b)%Q) by (by apply Qle_antisym).
  destruct (Z.ltb_spec (TRF.score (TRF.anno b)) (TRF.score (TRF.anno a))) as [H3|H3].
  { cbn. split; [discriminate|]. split; [|by left].
    intros _. right. split; [symmetry; exact E|lia]. }
  destruct (Z.ltb_spec (TRF.score (TRF.anno a)) (TRF.score (TRF.anno b))) as [H4|H4].
  { cbn. split; [intros _; right; split; [exact E|lia]|].
    split; [discriminate|by left]. }
  assert (Hab : rank_le a b) by (right; split; [exact E|lia]).
  assert (Hba : rank_le b a) by (right; split; [symmetry; exact E|lia]).
  cbv zeta.
  change (TRF.m_start (TRF.anno (TRF.set_end (TRF.m_start (TRF.anno b)) b)))
    with (TRF.m_start (TRF.anno b)).
  destruct (TRF.m_start (TRF.anno b)
            <? TRF.m_end (TRF.anno a) - TRF.m_start (TRF.anno a));
    [|destruct (TRF.m_end (TRF.anno a) - TRF.m_start (TRF.anno a)
                <? TRF.m_start (TRF.anno b))];
    cbn [fst snd];
    (split; [intros _; exact Hab|split; [intros _; exact Hba|by right]]).
Qed.

Lemma StronglySorted_lookup_lt {A} (R : relation A) l i j x y :
  StronglySorted R l -> (i < j)%nat -> l !! i = Some x -> l !! j = Some y -> R x y.
Proof.
  intros Hs. revert i j. induction Hs as [|a l Hs IH Hall]; intros i j Hij Hi Hj.
  - by rewrite lookup_nil in Hi.
  - destruct j as [|j]; [lia|]. cbn in Hj. destruct i as [|i].
    + cbn in Hi. injection Hi as <-.
      eapply Forall_forall in Hall; [exact Hall|].
      eapply list_elem_of_lookup_2. exact Hj.
    + cbn in Hi. apply (IH i j); [lia|done|done].
Qed.

Section sort_facts.

Variable scores : list TRF.Scored.

Let valid (i : nat) : Prop := (i < length scores)%nat.
Let Inv (st : list TRF.Scored) : Prop := Forall2 end_clobbered scores st.

#[local] Instance idx_le_trans : Transitive (idx_le scores).
Proof.
  intros i j k. unfold idx_le.
  destruct (scores !! i), (scores !! j), (scores !! k); try tauto.
  apply rank_le_trans.
Qed.

Lemma key_lt_spec st x y b st' :
  Inv st -> valid x -> valid y ->
  TRF.key_lt st x y = (b, st') ->
  Inv st' /\
  (b = true -> idx_le scores x y) /\ (b = false -> idx_le scores y x).
Proof.
  intros Hinv Hx Hy.
  destruct (lookup_lt_is_Some_2 scores x Hx) as [a0 Ha0].
  destruct (lookup_lt_is_Some_2 scores y Hy) as [b0 Hb0].
  destruct (Forall2_lookup_l _ _ _ _ _ Hinv Ha0) as (a & Ha & Ra).
  destruct (Forall2_lookup_l _ _ _ _ _ Hinv Hb0) as (b1 & Hb & Rb).
  unfold TRF.key_lt. rewrite Ha, Hb.
  destruct (compare_scores_rank a b1) as (Ht & Hf & Hw).
  destruct (TRF.compare_scores a b1) as [r b'].
  cbn [fst snd] in Ht, Hf, Hw. intros E. injection E as <- <-.
  destruct (end_clobbered_keys _ _ Ra) as (Oa & Sa & _).
  destruct (end_clobbered_keys _ _ Rb) as (Ob & Sb & _).
  split.
  - unfold Inv. rewrite <- (list_insert_id scores y b0 Hb0).
    apply Forall2_insert; [exact Hinv|].
    destruct Hw as [->| ->]; [exact Rb|by apply end_clobbered_again].
  - unfold idx_le. rewrite Ha0, Hb0. unfold rank_le in *.
    rewrite Oa, Sa, Ob, Sb in *. tauto.
Qed.

Lemma run_extend_spec desc st prev rest k st' :
  Inv st -> valid prev -> Forall valid rest ->
  TRF.run_extend desc st prev rest = (k, st') ->
  Inv st' /\ (k <= length rest)%nat /\
  Sorted (if desc then flip (idx_le scores) else idx_le scores)
         (prev :: take k rest).
Proof.
  intros Hinv Hp Hr. revert st prev k Hinv Hp.
  induction Hr as [|x rest Hx Hr IH]; intros st prev k Hinv Hp E; cbn in E.
  - injection E as <- <-. split; [done|]. split; [cbn; lia|].
    repeat constructor.
  - destruct (TRF.key_lt st x prev) as [b st1] eqn:Ek.
    destruct (key_lt_spec _ _ _ _ _ Hinv Hx Hp Ek) as (Hinv1 & Ht & Hf).
    destruct (Bool.eqb b desc) eqn:Eb.
    + apply Bool.eqb_prop in Eb. subst desc.
      destruct (TRF.run_extend b st1 x rest) as [k' st2] eqn:Er.
      injection E as <- <-.
      destruct (IH _ _ _ Hinv1 Hx Er) as (Hinv2 & Hk & Hs).
      split; [done|]. split; [cbn; lia|].
      cbn [take]. constructor; [exact Hs|]. constructor.
      destruct b; [apply Ht|apply Hf]; reflexivity.
    + injection E as <- <-. split; [done|]. split; [cbn; lia|].
      repeat constructor.
Qed.

Lemma count_run_spec st l k desc st' :
  Inv st -> Forall valid l ->
  TRF.count_run st l = (k, desc, st') ->
  Inv st' /\ (k <= length l)%nat /\
  Sorted (if desc then flip (idx_le scores) else idx_le scores) (take k l).
Proof.
  intros Hinv Hl E. destruct l as [|x0 [|x1 rest]]; cbn in E.
  - injection E as <- <- <-. split; [done|]. split; [cbn; lia|]. constructor.
  - injection E as <- <- <-. split; [done|]. split; [cbn; lia|].
    repeat constructor.
  - apply Forall_cons in Hl as [H0 Hl]. apply Forall_cons in Hl as [H1 Hl].
    destruct (TRF.key_lt st x1 x0) as [d st1] eqn:Ek.
    destruct (key_lt_spec _ _ _ _ _ Hinv H1 H0 Ek) as (Hinv1 & Ht & Hf).
    destruct (TRF.run_extend d st1 x1 rest) as [n st2] eqn:Er.
    injection E as <- <- <-.
    destruct (run_extend_spec _ _ _ _ _ _ Hinv1 H1 Hl Er) as (Hinv2 & Hn & Hs).
    split; [done|]. split; [cbn; lia|].
    cbn [take]. constructor; [exact Hs|]. constructor.
    destruct d; [apply Ht|apply Hf]; reflexivity.
Qed.

Lemma bisect_spec fuel st sorted pivot l r k st' :
  Inv st -> valid pivot -> Forall valid sorted ->
  StronglySorted (idx_le scores) sorted ->
  (l <= r <= length sorted)%nat -> (r - l < fuel)%nat ->
  (forall i x, (i < l)%nat -> sorted !! i = Some x -> idx_le scores x pivot) ->
  (forall i x, (r <= i)%nat -> sorted !! i = Some x -> idx_le scores pivot x) ->
  TRF.bisect fuel st sorted pivot l r = (k, st') ->
  Inv st' /\ (k <= length sorted)%nat /\
  (forall i x, (i < k)%nat -> sorted !! i = Some x -> idx_le scores x pivot) /\
  (forall i x, (k <= i)%nat -> sorted !! i = Some x -> idx_le scores pivot x).
Proof.
  intros Hinv Hp Hv Hs. revert st l r Hinv.
  induction fuel as [|fuel IH]; intros st l r Hinv Hlr Hfuel Hlo Hhi E; [lia|].
  cbn [TRF.bisect] in E.
  destruct (Nat.ltb_spec l r) as [Hlt|Hge].
  - set (p := (l + (r - l) / 2)%nat) in E.
    assert (Hpl : (l <= p < r)%nat).
    { assert ((r - l) / 2 < r - l)%nat by (apply Nat.div_lt; lia). lia. }
    destruct (lookup_lt_is_Some_2 sorted p) as [x Hx]; [lia|].
    rewrite Hx in E.
    assert (Hvx : valid x) by (eapply Forall_lookup_1; eassumption).
    destruct (TRF.key_lt st pivot x) as [b st1] eqn:Ek.
    destruct (key_lt_spec _ _ _ _ _ Hinv Hp Hvx Ek) as (Hinv1 & Ht & Hf).
    destruct b.
    + apply (IH st1 l p); try done; [lia|lia|].
      intros i y Hi Hy. destruct (decide (i = p)) as [->|Hne].
      * rewrite Hx in Hy. injection Hy as <-. by apply Ht.
      * transitivity x; [by apply Ht|].
        apply (StronglySorted_lookup_lt _ sorted p i); [done|lia|done|done].
    + apply (IH st1 (S p) r); try done; [lia|lia|].
      intros i y Hi Hy. destruct (decide (i = p)) as [->|Hne].
      * rewrite Hx in Hy. injection Hy as <-. by apply Hf.
      * transitivity x; [|by apply Hf].
        apply (StronglySorted_lookup_lt _ sorted i p); [done|lia|done|done].
  - injection E as <- <-. assert (l = r) as -> by lia.
    split; [done|]. split; [lia|]. split; [exact Hlo|exact Hhi].
Qed.

Lemma binarysort_spec st sorted rest out st' :
  Inv st -> Forall valid sorted -> Forall valid rest ->
  StronglySorted (idx_le scores) sorted ->
  TRF.binarysort st sorted rest = (out, st') ->
  Inv st' /\ out ≡ₚ sorted ++ rest /\ StronglySorted (idx_le scores) out.
Proof.
  intros Hinv Hv Hr. revert st sorted Hinv Hv.
  induction Hr as [|pivot rest Hp Hr IH]; intros st sorted Hinv Hv Hs E;
    cbn [TRF.binarysort] in E.
  - injection E as <- <-. rewrite app_nil_r. done.
  - destruct (TRF.bisect _ st sorted pivot 0 (length sorted)) as [k st1] eqn:Eb.
    assert (Hlo0 : forall i x, (i < 0)%nat -> sorted !! i = Some x ->
                               idx_le scores x pivot) by (intros; lia).
    assert (Hhi0 : forall i x, (length sorted <= i)%nat -> sorted !! i = Some x ->
                               idx_le scores pivot x).
    { intros i x Hi Hx. apply lookup_lt_Some in Hx. lia. }
    assert (Hr0 : (0 <= length sorted <= length sorted)%nat) by lia.
    assert (Hf0 : (length sorted - 0 < S (length sorted))%nat) by lia.
    destruct (bisect_spec _ _ _ _ _ _ _ _ Hinv Hp Hv Hs Hr0 Hf0 Hlo0 Hhi0 Eb)
      as (Hinv1 & Hk & Hlo & Hhi).
    assert (Hs' : StronglySorted (idx_le scores)
                    (take k sorted ++ pivot :: drop k sorted)).
    { rewrite <- (take_drop k sorted) in Hs.
      apply StronglySorted_app_2.
      - intros x1 x2 H1 H2. apply elem_of_cons in H2 as [->|H2].
        + apply list_elem_of_lookup in H1 as [i Hi].
          apply lookup_take_Some in Hi as [Hi Hik]. by apply (Hlo i).
        + by eapply StronglySorted_app_1_elem_of.
      - by eapply StronglySorted_app_1_l.
      - constructor; [by eapply StronglySorted_app_1_r|].
        apply Forall_forall. intros x Hx.
        apply list_elem_of_lookup in Hx as [i Hi].
        rewrite lookup_drop in Hi. apply (Hhi (k + i)%nat); [lia|done]. }
    assert (Hv' : Forall valid (take k sorted ++ pivot :: drop k sorted)).
    { apply Forall_app. split; [by apply Forall_take|].
      constructor; [done|by apply Forall_drop]. }
    destruct (IH _ _ Hinv1 Hv' Hs' E) as (Hinv2 & Hperm & Hso).
    split; [done|]. split; [|done].
    rewrite Hperm. rewrite <- app_assoc. cbn [app].
    rewrite <- (take_drop k sorted) at 3. rewrite <- app_assoc.
    apply Permutation_app_head.
    etransitivity; [|apply Permutation_middle]. cbn. done.
Qed.

Lemma sort_reverse_spec st l order st' :
  Inv st -> Forall valid l ->
  TRF.sort_reverse st l = (order, st') ->
  Inv st' /\ order ≡ₚ l /\ StronglySorted (flip (idx_le scores)) order.
Proof.
  intros Hinv Hl. unfold TRF.sort_reverse. cbv zeta.
  destruct (Nat.ltb_spec (length (rev l)) 2) as [Hshort|Hlong].
  - intros E. injection E as <- <-. rewrite rev_involutive.
    split; [done|]. split; [done|].
    rewrite length_rev in Hshort.
    destruct l as [|x [|y l]]; cbn in Hshort; try lia; repeat constructor.
  - assert (Hrl : Forall valid (rev l)).
    { by apply Forall_rev. }
    destruct (TRF.count_run st (rev l)) as [[k desc] st1] eqn:Ec.
    destruct (count_run_spec _ _ _ _ _ Hinv Hrl Ec) as (Hinv1 & Hk & Hrun).
    set (run := if desc then rev (take k (rev l)) else take k (rev l)).
    assert (Hsr : StronglySorted (idx_le scores) run).
    { apply Sorted_StronglySorted; [apply idx_le_trans|].
      subst run. destruct desc; [|exact Hrun].
      rewrite rev_alt. exact (Sorted_reverse _ _ Hrun). }
    assert (Hvr : Forall valid run).
    { subst run. destruct desc; [|by apply Forall_take].
      apply Forall_rev. by apply Forall_take. }
    assert (Hpr : run ≡ₚ take k (rev l)).
    { subst run. destruct desc; [|done]. symmetry. apply Permutation_rev. }
    destruct (TRF.binarysort st1 run (drop k (rev l))) as [sorted st2] eqn:Eb.
    assert (Hvd : Forall valid (drop k (rev l))) by (by apply Forall_drop).
    destruct (binarysort_spec _ _ _ _ _ Hinv1 Hvr Hvd Hsr Eb)
      as (Hinv2 & Hperm & Hso).
    intros E. injection E as <- <-.
    split; [done|]. split.
    + rewrite <- Permutation_rev, Hperm, Hpr, take_drop.
      symmetry. apply Permutation_rev.
    + apply Sorted_StronglySorted; [apply flip_Transitive, idx_le_trans|].
      rewrite rev_alt. apply Sorted_reverse.
      by apply StronglySorted_Sorted.
Qed.

End sort_facts.

(** The record the sort puts first ranks at least as high as every
    candidate, and is a candidate but possibly for its ['end']. *)
Lemma best_score_top scores :
  match TRF.best_score scores with
  | None => scores = []
  | Some r => exists a, a ∈ scores /\ end_clobbered a r /\
                        Forall (fun c => rank_le c a) scores
  end.
Proof.
  unfold TRF.best_score.
  destruct (TRF.sort_reverse scores (seq 0 (length scores))) as [order st] eqn:E.
  assert (Hinv : Forall2 end_clobbered scores scores).
  { apply Forall2_same_length_lookup. split; [done|].
    intros i a b Ha Hb. rewrite Ha in Hb. injection Hb as <-. by left. }
  assert (Hv : Forall (fun i => (i < length scores)%nat) (seq 0 (length scores))).
  { apply Forall_forall. intros i Hi%elem_of_seq. lia. }
  destruct (sort_reverse_spec scores _ _ _ _ Hinv Hv E) as (Hinv' & Hperm & Hs).
  destruct order as [|first rest].
  - apply Permutation_length in Hperm. rewrite length_seq in Hperm.
    cbn in Hperm. by apply nil_length_inv.
  - assert (Hf : (first < length scores)%nat).
    { assert (first ∈ seq 0 (length scores)) as Hin
        by (rewrite <- Hperm; apply list_elem_of_here).
      apply elem_of_seq in Hin. lia. }
    destruct (lookup_lt_is_Some_2 scores first Hf) as [a Ha].
    destruct (Forall2_lookup_l _ _ _ _ _ Hinv' Ha) as (r & Hr & Rr).
    rewrite Hr. exists a. split; [by eapply list_elem_of_lookup_2|].
    split; [exact Rr|].
    apply Forall_lookup. intros j c Hc.
    assert (j ∈ first :: rest) as Hin.
    { rewrite Hperm. apply elem_of_seq. apply lookup_lt_Some in Hc. lia. }
    apply elem_of_cons in Hin as [->|Hin].
    + rewrite Ha in Hc. injection Hc as <-. apply rank_le_refl.
    + apply StronglySorted_inv in Hs as [_ Hall].
      eapply Forall_forall in Hall; [|exact Hin].
      unfold flip, idx_le in Hall. by rewrite Hc, Ha in Hall.
Qed.

(** ** The annotators return a top-ranked candidate *)

(** The scoring loop of [del_annotator] keeps the motifs that overlap, in
    order. *)
Lemma del_scores_candidates entry svlen motifs scores :
  TRF.del_scores (start entry) (stop entry) svlen motifs = Ret scores ->
  scores = del_scored entry svlen
             <$> filter (fun a => Qeq_bool (overlap_of entry a) 0 = false) motifs.
Proof.
  revert scores.
  induction motifs as [|a rest IH]; intros scores Hs; cbn [TRF.del_scores] in Hs.
  - by injection Hs as <-.
  - rewrite filter_cons. unfold overlap_of at 1.
    destruct (Qeq_bool _ 0) eqn:Hovl.
    + rewrite decide_False by discriminate. by apply IH.
    + rewrite decide_True by done.
      destruct (TRF.period a =? 0); [discriminate|].
      destruct (TRF.del_scores (start entry) (stop entry) svlen rest) as [tl| |];
        try discriminate.
      cbn in Hs. injection Hs as <-. cbn [fmap list_fmap].
      f_equal. by apply IH.
Qed.

Lemma omap_nil_iff {A B} (f : A -> option B) l :
  omap f l = [] <-> Forall (fun a => f a = None) l.
Proof.
  induction l as [|a l IH]; cbn; [by split; [constructor|]|].
  destruct (f a) eqn:E.
  - split; [discriminate|]. intros H%Forall_cons. destruct H as [H _]. congruence.
  - rewrite IH. split; [by constructor|]. by intros [_ H]%Forall_cons.
Qed.

(** X22. [del_annotator] returns [None] exactly when no motif of the region
    overlaps the deletion.  A record it returns is the dictionary of a motif
    that overlaps (possibly with its ['end'] overwritten by its ['start']),
    and no overlapping motif has a greater overlap, or the same overlap and
    a greater score. *)
Theorem del_annotator_returns_top_ranked self entry svlen :
  let motifs := TRF.annos (TRF.region self) in
  (TRF.del_annotator self entry svlen = Ret None <->
   Forall (fun a => (overlap_of entry a == 0)%Q) motifs) /\
  (forall r, TRF.del_annotator self entry svlen = Ret (Some r) ->
   exists a, a ∈ motifs /\ ~ (overlap_of entry a == 0)%Q /\
     end_clobbered (del_scored entry svlen a) r /\
     forall a', a' ∈ motifs -> ~ (overlap_of entry a' == 0)%Q ->
       rank_le (del_scored entry svlen a') (del_scored entry svlen a)).
Proof.
  intros motifs. unfold TRF.del_annotator. fold motifs.
  assert (Hin : forall a, a ∈ filter (fun a => Qeq_bool (overlap_of entry a) 0 = false)
                                 motifs <->
                          a ∈ motifs /\ ~ (overlap_of entry a == 0)%Q).
  { intros a. rewrite list_elem_of_filter, <- Qeq_bool_iff.
    destruct (Qeq_bool (overlap_of entry a) 0); intuition congruence. }
  destruct (TRF.del_scores (start entry) (stop entry) svlen motifs)
    as [scores| |] eqn:E.
  - apply del_scores_candidates in E. cbn.
    pose proof (best_score_top scores) as Htop.
    split.
    + split.
      * intros H. injection H as H. rewrite H in Htop. subst scores.
        apply fmap_nil_inv in Htop.
        apply Forall_forall. intros a Ha.
        destruct (Qeq_dec (overlap_of entry a) 0) as [Hz|Hz]; [exact Hz|].
        exfalso. assert (a ∈ @nil TRF.Motif) as Hnil
          by (rewrite <- Htop; apply Hin; done).
        by apply elem_of_nil in Hnil.
      * intros Hall. destruct (TRF.best_score scores) as [r|]; [|done].
        destruct Htop as (s & Hs & _). subst scores.
        apply list_elem_of_fmap in Hs as (a & _ & Ha). apply Hin in Ha as [Ha Hne].
        exfalso. apply Hne. eapply Forall_forall in Hall; [exact Hall|exact Ha].
    + intros r H. injection H as H. rewrite H in Htop.
      destruct Htop as (s & Hs & Hc & Hall). subst scores.
      apply list_elem_of_fmap in Hs as (a & -> & Ha). apply Hin in Ha as [Ha Hne].
      exists a. split; [exact Ha|]. split; [exact Hne|]. split; [exact Hc|].
      intros a' Ha' Hne'.
      eapply Forall_forall in Hall; [exact Hall|].
      apply list_elem_of_fmap. exists a'. split; [done|]. by apply Hin.
  - cbn. split; [|intros r H; discriminate]. split; [discriminate|].
    intros Hall. exfalso.
    destruct (del_scores_outcome (start entry) (stop entry) svlen motifs)
      as [[Hx _]|[_ [scores E']]]; [|congruence].
    apply Exists_exists in Hx as (a & Ha & Hne & _).
    apply Hne. eapply Forall_forall in Hall; [exact Hall|exact Ha].
  - cbn. split; [|intros r H; discriminate]. split; [discriminate|].
    intros _.
    destruct (del_scores_outcome (start entry) (stop entry) svlen motifs)
      as [[_ E']|[_ [scores E']]]; congruence.
Qed.

Lemma del_annotator_returns_top_ranked_witness :
  exists a, a ∈ [motif_at_100_200; motif_gc_130_150] /\
    ~ (overlap_of (deletion 120 160) a == 0)%Q /\
    end_clobbered (del_scored (deletion 120 160) 40 a)
      (del_scored (deletion 120 160) 40 motif_gc_130_150) /\
    forall a', a' ∈ [motif_at_100_200; motif_gc_130_150] ->
      ~ (overlap_of (deletion 120 160) a' == 0)%Q ->
      rank_le (del_scored (deletion 120 160) 40 a')
              (del_scored (deletion 120 160) 40 a).
Proof.
  apply (proj2 (del_annotator_returns_top_ranked
                  (anno_of [motif_at_100_200; motif_gc_130_150])
                  (deletion 120 160) 40)).
  vm_compute. reflexivity.
Defined.

(** X23. [ins_annotator] always returns.  It returns [None] exactly when
    [score_annotation] rejects every motif the tool reports for the
    haplotype.  A record it returns is the scored dictionary of a reported
    motif (possibly with its ['end'] overwritten by its ['start']), and no
    scored motif has a greater overlap, or the same overlap and a greater
    score. *)
Theorem ins_annotator_returns_top_ranked self entry :
  exists m_seq,
    TRF.make_seq self entry INS = Ret m_seq /\
    let found := TRF.run_trf self m_seq in
    let scored := TRF.score_annotation self (start entry) (stop entry) in
    (exists res, TRF.ins_annotator self entry = Ret res) /\
    (TRF.ins_annotator self entry = Ret None <->
     Forall (fun a => scored a = None) found) /\
    (forall r, TRF.ins_annotator self entry = Ret (Some r) ->
     exists a s, a ∈ found /\ scored a = Some s /\ end_clobbered s r /\
       forall a' s', a' ∈ found -> scored a' = Some s' -> rank_le s' s).
Proof.
  unfold TRF.ins_annotator, TRF.make_seq. cbv zeta.
  eexists. split; [reflexivity|]. cbn [mbind Py_bind py_bind].
  set (found := TRF.run_trf self _).
  set (scored := TRF.score_annotation self (start entry) (stop entry)).
  pose proof (best_score_top (omap scored found)) as Htop.
  split; [by eexists|]. split.
  - split.
    + intros H. injection H as H. rewrite H in Htop. by apply omap_nil_iff.
    + intros Hall. apply omap_nil_iff in Hall. rewrite Hall in *.
      destruct (TRF.best_score []) as [r|]; [|done].
      destruct Htop as (s & Hs & _). by apply elem_of_nil in Hs.
  - intros r H. injection H as H. rewrite H in Htop.
    destruct Htop as (s & Hs & Hc & Hall).
    apply list_elem_of_omap in Hs as (a & Ha & Hsa).
    exists a, s. split; [exact Ha|]. split; [exact Hsa|]. split; [exact Hc|].
    intros a' s' Ha' Hs'.
    eapply Forall_forall in Hall; [exact Hall|].
    apply list_elem_of_omap. by exists a'.
Qed.


